(** * Sudoku board and generator (package [game]): model and properties

    The board operations of [game/sudoku.go] and the generator of the
    same package are embedded as functions: a method that writes to the
    board returns the board it leaves behind, and a method of the
    generator returns the state of its random source after the call. *)

From Stdlib Require Import ZArith Lia Bool List Permutation QArith Qround.
From Stdlib Require PrimFloat FloatOps SpecFloat.
From Stdlib Require String Uint63.
From stdpp Require Import base tactics option list numbers.

Local Open Scope Z_scope.

(** ** Loops over an index range *)

(** [for k := lo; k < lo+n; k++ { if !f(k) { return false } }; return true] *)
Definition all_range (lo n : Z) (f : Z → bool) : bool :=
  forallb f (seqZ lo n).

(** The first hit of a loop that returns from inside its body. *)
Fixpoint first_some {A B : Type} (f : A → option B) (l : list A) : option B :=
  match l with
  | [] => None
  | x :: l' => match f x with Some y => Some y | None => first_some f l' end
  end.

Definition first_range {B : Type} (lo n : Z) (f : Z → option B) : option B :=
  first_some f (seqZ lo n).

(** [for k := lo; k < lo+n; k++ { count += f(k) }] *)
Definition sum_range (lo n : Z) (f : Z → Z) : Z :=
  foldr (λ k acc, f k + acc) 0 (seqZ lo n).

(** ** The board: [type Sudoku struct { Board [9][9]int }] *)

Record Sudoku : Type := mkSudoku { Board : list (list Z) }.

(** The shape that the array type [[9][9]int] fixes. *)
Definition wf (s : Sudoku) : Prop :=
  length (Board s) = 9%nat ∧ Forall (λ r, length r = 9%nat) (Board s).

(** [s.Board[row][col]], read.  Every read in the source is behind
    [isValidPosition] or a loop over [0,9). *)
Definition cell (s : Sudoku) (row col : Z) : Z :=
  (Board s !!! Z.to_nat row) !!! Z.to_nat col.

(** [s.Board[row][col] = value]. *)
Definition store (s : Sudoku) (row col value : Z) : Sudoku :=
  mkSudoku (<[Z.to_nat row := <[Z.to_nat col := value]> (Board s !!! Z.to_nat row)]> (Board s)).

Definition NewSudoku : Sudoku := mkSudoku (replicate 9 (replicate 9 0)).

Definition NewSudokuWithPuzzle (puzzle : list (list Z)) : Sudoku := mkSudoku puzzle.

Definition isValidPosition (row col : Z) : bool :=
  (row >=? 0) && (row <? 9) && (col >=? 0) && (col <? 9).

Definition isValidValue (value : Z) : bool :=
  (value >=? 0) && (value <=? 9).

Definition SetCell (s : Sudoku) (row col value : Z) : bool * Sudoku :=
  if negb (isValidPosition row col) || negb (isValidValue value) then (false, s)
  else (true, store s row col value).

Definition GetCell (s : Sudoku) (row col : Z) : Z :=
  if negb (isValidPosition row col) then -1 else cell s row col.

Definition ClearCell (s : Sudoku) (row col : Z) : bool * Sudoku :=
  if negb (isValidPosition row col) then (false, s)
  else (true, store s row col 0).

Definition IsEmpty (s : Sudoku) (row col : Z) : bool :=
  GetCell s row col =? 0.

(** Go's [/] on [int] truncates toward zero: [Z.quot]. *)
Definition isValidPlacement (s : Sudoku) (row col value : Z) : bool :=
  if value =? 0 then true
  else if negb (all_range 0 9 (λ j, negb (negb (j =? col) && (cell s row j =? value)))) then false
  else if negb (all_range 0 9 (λ i, negb (negb (i =? row) && (cell s i col =? value)))) then false
  else
    let boxRow := (row ÷ 3) * 3 in
    let boxCol := (col ÷ 3) * 3 in
    all_range boxRow 3 (λ i,
      all_range boxCol 3 (λ j,
        negb ((negb (i =? row) || negb (j =? col)) && (cell s i j =? value)))).

(** [IsValidMove] writes the candidate into the board, checks it and
    writes the saved value back; the second component is the board
    after the call. *)
Definition IsValidMove (s : Sudoku) (row col value : Z) : bool * Sudoku :=
  if negb (isValidPosition row col) || negb (isValidValue value) then (false, s)
  else
    let original := cell s row col in
    let s1 := store s row col value in
    let valid := isValidPlacement s1 row col value in
    let s2 := store s1 row col original in
    (valid, s2).

Definition IsValid (s : Sudoku) : bool :=
  all_range 0 9 (λ i,
    all_range 0 9 (λ j,
      if negb (cell s i j =? 0)
      then (if negb (isValidPlacement s i j (cell s i j)) then false else true)
      else true)).

Definition IsComplete (s : Sudoku) : bool :=
  if negb (all_range 0 9 (λ i, all_range 0 9 (λ j, negb (cell s i j =? 0))))
  then false
  else IsValid s.

Definition GetSamplePuzzle : list (list Z) :=
  [ [5; 3; 0; 0; 7; 0; 0; 0; 0];
    [6; 0; 0; 1; 9; 5; 0; 0; 0];
    [0; 9; 8; 0; 0; 0; 0; 6; 0];
    [8; 0; 0; 0; 6; 0; 0; 0; 3];
    [4; 0; 0; 8; 0; 3; 0; 0; 1];
    [7; 0; 0; 0; 2; 0; 0; 0; 6];
    [0; 6; 0; 0; 0; 0; 2; 8; 0];
    [0; 0; 0; 4; 1; 9; 0; 0; 5];
    [0; 0; 0; 0; 8; 0; 0; 7; 9] ].

Definition GetSampleSolution : list (list Z) :=
  [ [5; 3; 4; 6; 7; 8; 9; 1; 2];
    [6; 7; 2; 1; 9; 5; 3; 4; 8];
    [1; 9; 8; 3; 4; 2; 5; 6; 7];
    [8; 5; 9; 7; 6; 1; 4; 2; 3];
    [4; 2; 6; 8; 5; 3; 7; 9; 1];
    [7; 1; 3; 9; 2; 4; 8; 5; 6];
    [9; 6; 1; 5; 3; 7; 2; 8; 4];
    [2; 8; 7; 4; 1; 9; 6; 3; 5];
    [3; 4; 5; 2; 8; 6; 1; 7; 9] ].

(** ** The generator (same package, [Difficulty], [Generator]) *)

(** [type Difficulty int] with the constants of the [iota] block. *)
Definition Difficulty : Type := Z.
Definition Easy : Difficulty := 0.
Definition Medium : Difficulty := 1.
Definition Hard : Difficulty := 2.
Definition Expert : Difficulty := 3.

(** The coordinates in the order of the two nested loops
    [for i := 0; i < 9; i++ { for j := 0; j < 9; j++ { ... } }]. *)
Definition positions : list (Z * Z) :=
  list_prod (seqZ 0 9) (seqZ 0 9).

(** [a[i], a[j] = a[j], a[i]]: both reads come before both writes. *)
Definition swap {A : Type} `{!Inhabited A} (l : list A) (i j : Z) : list A :=
  let vi := l !!! Z.to_nat i in
  let vj := l !!! Z.to_nat j in
  <[Z.to_nat j := vi]> (<[Z.to_nat i := vj]> l).

(** ** 64-bit floats, for [GeneratePuzzleWithEmptyRatio] *)

Module Float64.
Import PrimFloat FloatOps SpecFloat.

Definition t : Type := float.

Definition zero : t := 0%float.
Definition one : t := 1%float.
Definition totalCells : t := 81%float.
(** The float64 nearest to 0.7. *)
Definition ratio70 : t := 0x1.6666666666666p-1%float.

(** The conversion [int(f)]: the fraction is dropped.  For NaN, the
    infinities and the values that do not fit 64 bits Go leaves the
    result to the implementation; the value here is the one of amd64. *)
Definition toInt (f : t) : Z :=
  match Prim2SF f with
  | S754_finite sgn m e =>
      let mag := if 0 <=? e then Z.pos m * 2 ^ e else Z.pos m / 2 ^ (- e) in
      let v := if sgn then - mag else mag in
      if (- 2 ^ 63 <=? v) && (v <? 2 ^ 63) then v else - 2 ^ 63
  | S754_zero _ => 0
  | _ => - 2 ^ 63
  end.

(** The rational number a finite float stands for. *)
Definition toQ (f : t) : Q :=
  match Prim2SF f with
  | S754_finite sgn m e =>
      let mag := if 0 <=? e then inject_Z (Z.pos m * 2 ^ e)
                 else Qmake (Z.pos m) (Z.to_pos (2 ^ (- e))) in
      if sgn then Qopp mag else mag
  | _ => 0%Q
  end.

(** [if r < 0.0 { r = 0.0 }; if r > 1.0 { r = 1.0 }] *)
Definition clamp01 (r : t) : t :=
  let r1 := if ltb r zero then zero else r in
  if ltb one r1 then one else r1.

(** [int(float64(totalCells) * emptyRatio)] *)
Definition cellsToRemove (r : t) : Z := toInt (mul totalCells r).
End Float64.

Section Generator.
(** The state of [*rand.Rand] and the two operations of [math/rand]
    the package uses. *)
Context {Rand : Type}.
Variable NewSource : Z → Rand.
Variable Intn : Rand → Z → Z * Rand.

(** [type Generator struct { rand *rand.Rand }] *)
Definition NewGeneratorWithSeed (seed : Z) : Rand := NewSource seed.

(** The loop shared by [getRandomNumbers] and [shufflePositions]:
    [for i := len(a) - 1; i > 0; i-- { j := g.rand.Intn(i + 1); swap }].
    The argument is the current [i]. *)
Fixpoint shuffleDown {A : Type} `{!Inhabited A} (i : nat) (l : list A) (g : Rand)
    : list A * Rand :=
  match i with
  | O => (l, g)
  | S i' =>
      let '(j, g') := Intn g (Z.of_nat i + 1) in
      shuffleDown i' (swap l (Z.of_nat i) j) g'
  end.

Definition getRandomNumbers (g : Rand) : list Z * Rand :=
  let numbers := [1; 2; 3; 4; 5; 6; 7; 8; 9] in
  shuffleDown (length numbers - 1) numbers g.

Definition shufflePositions (ps : list (Z * Z)) (g : Rand) : list (Z * Z) * Rand :=
  shuffleDown (length ps - 1) ps g.

Definition findEmptyCell (s : Sudoku) : Z * Z :=
  match first_range 0 9 (λ i,
          first_range 0 9 (λ j, if IsEmpty s i j then Some (i, j) else None)) with
  | Some p => p
  | None => (-1, -1)
  end.

(** The body of [fillBoard] after the candidates are drawn:
    [for _, num := range numbers { ... }; return false].  [rec] is
    the recursive call. *)
Fixpoint tryNumbers (rec : Rand → Sudoku → option (bool * Sudoku * Rand))
    (row col : Z) (numbers : list Z) (g : Rand) (s : Sudoku)
    : option (bool * Sudoku * Rand) :=
  match numbers with
  | [] => Some (false, s, g)
  | num :: rest =>
      let '(ok, s0) := IsValidMove s row col num in
      if ok then
        let s1 := (SetCell s0 row col num).2 in
        match rec g s1 with
        | None => None
        | Some (true, s2, g2) => Some (true, s2, g2)
        | Some (false, s2, g2) =>
            tryNumbers rec row col rest g2 (ClearCell s2 row col).2
        end
      else tryNumbers rec row col rest g s0
  end.

(** [fillBoard]: the result, the board and the random source it
    leaves.  [fuel] bounds the depth of the recursion; [None] means
    the bound was reached. *)
Fixpoint fillBoard (fuel : nat) (g : Rand) (s : Sudoku)
    : option (bool * Sudoku * Rand) :=
  match fuel with
  | O => None
  | S fuel' =>
      let '(row, col) := findEmptyCell s in
      if row =? -1 then Some (true, s, g)
      else
        let '(numbers, g1) := getRandomNumbers g in
        tryNumbers (fillBoard fuel') row col numbers g1 s
  end.

(** One frame per cell of the board and one for the call that finds
    the board full. *)
Definition maxDepth : nat := 82.

Definition GenerateComplete (g : Rand) : option (Sudoku * Rand) :=
  match fillBoard maxDepth g NewSudoku with
  | Some (_, sudoku, g') => Some (sudoku, g')
  | None => None
  end.

(** The last loop of [removeCells].  The source also reads the cell
    into [originalValue] before it clears it and never uses the value. *)
Fixpoint removeLoop (ps : list (Z * Z)) (cellsToRemove removed : Z) (puzzle : Sudoku)
    : Sudoku :=
  match ps with
  | [] => puzzle
  | (row, col) :: rest =>
      if removed >=? cellsToRemove then puzzle
      else if negb (IsEmpty puzzle row col)
      then removeLoop rest cellsToRemove (removed + 1) (ClearCell puzzle row col).2
      else removeLoop rest cellsToRemove removed puzzle
  end.

Definition removeCells (g : Rand) (complete : Sudoku) (cellsToRemove : Z)
    : Sudoku * Rand :=
  let puzzle :=
    fold_left (λ p '(i, j), store p i j (cell complete i j)) positions NewSudoku in
  let '(shuffled, g') := shufflePositions positions g in
  (removeLoop shuffled cellsToRemove 0 puzzle, g').

Definition createPuzzle (g : Rand) (complete : Sudoku) (difficulty : Difficulty)
    : Sudoku * Rand :=
  let '(cellsToRemove, g1) :=
    if difficulty =? Easy then let '(k, g1) := Intn g 11 in (35 + k, g1)
    else if difficulty =? Medium then let '(k, g1) := Intn g 10 in (46 + k, g1)
    else if difficulty =? Hard then let '(k, g1) := Intn g 10 in (50 + k, g1)
    else if difficulty =? Expert then let '(k, g1) := Intn g 10 in (54 + k, g1)
    else (40, g) in
  removeCells g1 complete cellsToRemove.

Definition GeneratePuzzle (g : Rand) (difficulty : Difficulty) : option (Sudoku * Rand) :=
  match GenerateComplete g with
  | Some (complete, g1) => Some (createPuzzle g1 complete difficulty)
  | None => None
  end.

Definition GeneratePuzzleWithEmptyRatio (g : Rand) (emptyRatio : Float64.t)
    : option (Sudoku * Rand) :=
  let emptyRatio := Float64.clamp01 emptyRatio in
  match GenerateComplete g with
  | Some (complete, g1) =>
      Some (removeCells g1 complete (Float64.cellsToRemove emptyRatio))
  | None => None
  end.

(** A client of one generator: a sequence of calls and the boards
    they return. *)
Inductive Call : Type :=
| CallGenerateComplete
| CallGeneratePuzzle (difficulty : Difficulty).

Definition runCall (g : Rand) (c : Call) : option (Sudoku * Rand) :=
  match c with
  | CallGenerateComplete => GenerateComplete g
  | CallGeneratePuzzle d => GeneratePuzzle g d
  end.

Fixpoint runCalls (g : Rand) (cs : list Call) : option (list Sudoku) :=
  match cs with
  | [] => Some []
  | c :: cs' =>
      match runCall g c with
      | Some (b, g') =>
          match runCalls g' cs' with
          | Some bs => Some (b :: bs)
          | None => None
          end
      | None => None
      end
  end.

(** ** Generators in a running program

    [rand.New(rand.NewSource(seed))] gives every generator a source of
    its own, and the methods draw from [g.rand], the source of their
    receiver, and from nothing else.  A program makes generators and
    calls them in any order; [sources] holds the state of the source
    of each generator, in the order they were made, and a generator is
    named by its place there. *)

(** [NewGenerator]; [nano] is what [time.Now().UnixNano()] reads. *)
Definition NewGenerator (nano : Z) : Rand := NewSource nano.

Inductive Step : Type :=
| StepNewGenerator (nano : Z)
| StepNewGeneratorWithSeed (seed : Z)
| StepCall (g : nat) (c : Call).

(** The boards the calls return, each with its receiver, and the
    sources at the end.  [None]: a call reached the depth bound, or
    names a generator that was not made, which no Go program does. *)
Fixpoint exec (steps : list Step) (sources : list Rand)
    : option (list (nat * Sudoku) * list Rand) :=
  match steps with
  | [] => Some ([], sources)
  | StepNewGenerator nano :: rest => exec rest (sources ++ [NewGenerator nano])
  | StepNewGeneratorWithSeed seed :: rest => exec rest (sources ++ [NewGeneratorWithSeed seed])
  | StepCall g c :: rest =>
      match sources !! g with
      | Some r =>
          match runCall r c with
          | Some (b, r') =>
              match exec rest (<[g := r']> sources) with
              | Some (out, final) => Some ((g, b) :: out, final)
              | None => None
              end
          | None => None
          end
      | None => None
      end
  end.
End Generator.




Definition boardsOf (g : nat) (out : list (nat * Sudoku)) : list Sudoku :=
  map snd (List.filter (λ p, (p.1 =? g)%nat) out).

Definition CountEmptyCells (s : Sudoku) : Z :=
  sum_range 0 9 (λ i, sum_range 0 9 (λ j, if IsEmpty s i j then 1 else 0)).

(** ** A random source to run the model on

    A linear congruential generator stands in for [math/rand] where a
    concrete run is wanted. *)
Module Lcg.
Definition Rand : Type := Z.
Definition NewSource (seed : Z) : Rand := seed mod 2 ^ 64.
Definition Intn (g : Rand) (n : Z) : Z * Rand :=
  let g' := (g * 6364136223846793005 + 1442695040888963407) mod 2 ^ 64 in
  ((g' / 2 ^ 33) mod n, g').
End Lcg.

(** ** Vocabulary of the rules *)

Definition inb (r c : Z) : Prop := 0 ≤ r < 9 ∧ 0 ≤ c < 9.

(** [(i,j)] is another cell of the row, the column or the 3x3 box of
    [(r,c)]. *)
Definition peer (r c i j : Z) : Prop :=
  (i ≠ r ∨ j ≠ c) ∧ (i = r ∨ j = c ∨ (i / 3 = r / 3 ∧ j / 3 = c / 3)).

#[local] Instance peer_dec r c i j : Decision (peer r c i j).
Proof. unfold peer. apply _. Defined.

(** No placed value is repeated in a row, a column or a box. *)
Definition valid_spec (s : Sudoku) : Prop :=
  ∀ r c i j, inb r c → inb i j → peer r c i j →
    cell s r c ≠ 0 → cell s i j ≠ cell s r c.

(** No cell is empty. *)
Definition full (s : Sudoku) : Prop := ∀ r c, inb r c → cell s r c ≠ 0.

(** [t] keeps every placed value of [s]. *)
Definition extends (s t : Sudoku) : Prop :=
  ∀ r c, inb r c → cell s r c ≠ 0 → cell t r c = cell s r c.

Definition solved (t : Sudoku) : Prop :=
  wf t ∧ valid_spec t ∧ ∀ r c, inb r c → 1 ≤ cell t r c ≤ 9.

Definition solvable (s : Sudoku) : Prop := ∃ t, solved t ∧ extends s t.

(** The number of empty cells, as a count over [positions]. *)
Definition emptyb (s : Sudoku) (p : Z * Z) : bool := cell s p.1 p.2 =? 0.

Definition countEmpty (s : Sudoku) : nat := length (List.filter (emptyb s) positions).

(** What a call of [fillBoard] on [s] leaves: on [true] a full board
    that keeps the cells of [s]; on [false] the board [s] itself, and
    then [s] has no solution. *)
Definition fill_post {Rand : Type} (s : Sudoku) (res : bool * Sudoku * Rand) : Prop :=
  if res.1.1
  then wf res.1.2 ∧ full res.1.2 ∧ extends s res.1.2 ∧
       (∀ r c, inb r c → cell s r c = 0 → 1 ≤ cell res.1.2 r c ≤ 9) ∧
       (valid_spec s → valid_spec res.1.2)
  else res.1.2 = s ∧ ¬ solvable s.

(** Two runs on two random sources agree: same result, same board,
    related sources. *)
Definition agree {Rand1 Rand2 A : Type} (R : Rand1 → Rand2 → Prop)
    (o1 : option (A * Rand1)) (o2 : option (A * Rand2)) : Prop :=
  match o1, o2 with
  | None, None => True
  | Some (a1, g1), Some (a2, g2) => a1 = a2 ∧ R g1 g2
  | _, _ => False
  end.

(** The values of row [k], of column [k] and of box [k] (boxes counted
    row by row). *)
Definition rowValues (s : Sudoku) (k : Z) : list Z :=
  map (λ j, cell s k j) (seqZ 0 9).

Definition colValues (s : Sudoku) (k : Z) : list Z :=
  map (λ i, cell s i k) (seqZ 0 9).

Definition boxValues (s : Sudoku) (k : Z) : list Z :=
  flat_map (λ i, map (λ j, cell s i j) (seqZ (3 * (k mod 3)) 3)) (seqZ (3 * (k / 3)) 3).

(** The documented removal range of a named difficulty. *)
Definition removalRange (d : Difficulty) : Z * Z :=
  if d =? Easy then (35, 45)
  else if d =? Medium then (46, 55)
  else if d =? Hard then (50, 59)
  else (54, 63).

(** [round(81 * ratio)] on the exact value of the ratio, halves upward. *)
Definition roundedCells (ratio : Float64.t) : Z :=
  Qfloor (Qplus (Qmult (81 # 1) (Float64.toQ ratio)) (1 # 2)).

(** ** The conflict queries of [game/sudoku.go] *)

(** The loops append the indices they keep: a filter over the range. *)
Definition GetRowConflicts (s : Sudoku) (row col : Z) : list Z :=
  if negb (isValidPosition row col) then []
  else
    let value := cell s row col in
    if value =? 0 then []
    else List.filter (λ j, negb (j =? col) && (cell s row j =? value)) (seqZ 0 9).

Definition GetColConflicts (s : Sudoku) (row col : Z) : list Z :=
  if negb (isValidPosition row col) then []
  else
    let value := cell s row col in
    if value =? 0 then []
    else List.filter (λ i, negb (i =? row) && (cell s i col =? value)) (seqZ 0 9).

Definition GetBoxConflicts (s : Sudoku) (row col : Z) : list (Z * Z) :=
  if negb (isValidPosition row col) then []
  else
    let value := cell s row col in
    if value =? 0 then []
    else
      let boxRow := (row ÷ 3) * 3 in
      let boxCol := (col ÷ 3) * 3 in
      List.filter (λ p, (negb (p.1 =? row) || negb (p.2 =? col)) && (cell s p.1 p.2 =? value))
        (list_prod (seqZ boxRow 3) (seqZ boxCol 3)).

(** ** Names and ratios of the generator file *)

Module Name.
Import String.

Definition GetDifficultyName (difficulty : Difficulty) : string :=
  if difficulty =? Easy then "Easy"%string
  else if difficulty =? Medium then "Medium"%string
  else if difficulty =? Hard then "Hard"%string
  else if difficulty =? Expert then "Expert"%string
  else "Unknown"%string.

Definition unknown : string := "Unknown"%string.

(** The difficulty keys the web page sends to [newGame]. *)
Definition keyEasy : string := "easy"%string.
Definition keyMedium : string := "medium"%string.
Definition keyHard : string := "hard"%string.
Definition keyExpert : string := "expert"%string.
End Name.

Module Ratio.
Import PrimFloat.

(** [float64(n)] for an [int]; exact below 2^53. *)
Definition ofInt (n : Z) : float :=
  if 0 <=? n then of_uint63 (Uint63.of_Z n) else opp (of_uint63 (Uint63.of_Z (- n))).

(** The float64 nearest to 0.45, to 0.60, and 0.75. *)
Definition t45 : float := 0x1.ccccccccccccdp-2%float.
Definition t60 : float := 0x1.3333333333333p-1%float.
Definition t75 : float := 0x1.8p-1%float.

Definition GetDifficultyFromEmptyRatio (emptyRatio : float) : Difficulty :=
  if leb emptyRatio t45 then Easy
  else if leb emptyRatio t60 then Medium
  else if leb emptyRatio t75 then Hard
  else Expert.

Definition GetEmptyRatio (s : Sudoku) : float :=
  div (ofInt (CountEmptyCells s)) 81%float.

Definition GetFilledRatio (s : Sudoku) : float :=
  sub 1%float (GetEmptyRatio s).
End Ratio.

(** The difficulty that [GetDifficultyFromEmptyRatio] gives a board
    with [n] empty cells. *)
Definition classOfCount (n : Z) : Difficulty :=
  if n <=? 36 then Easy else if n <=? 48 then Medium else if n <=? 60 then Hard else Expert.

(** Every cell holds 0 or a digit. *)
Definition digits (s : Sudoku) : Prop := ∀ r c, inb r c → 0 ≤ cell s r c ≤ 9.

(** ** The web front end (package [web])

    The handlers are functions of the state of the [WebUI]; what they
    send to the page is returned beside it.  The page is present
    through [present]: whether [getElementById] finds the element of a
    cell. *)

Module Web.

Record WebUI : Type := mkWebUI {
  sudoku : Sudoku;
  originalPuzzle : Sudoku;
  selectedRow : Z;
  selectedCol : Z;
  selectedNumber : Z;
  gameWon : bool }.

(** The messages of [showMessage]. *)
Inductive Message : Type :=
| CannotModifyOriginal
| InvalidMove
| Solved.

(** What [updateDisplay] sets on the element of a cell: the text (the
    value, 0 for the empty text) and the classes. *)
Record CellView : Type := mkCellView {
  viewRow : Z;
  viewCol : Z;
  viewValue : Z;
  classOriginal : bool;
  classUserInput : bool;
  classSelected : bool;
  classInvalid : bool }.

(** [original := &game.Sudoku{}] and the two loops that fill it. *)
Definition copyBoard (puzzle : Sudoku) : Sudoku :=
  fold_left (λ o '(i, j), store o i j (cell puzzle i j)) positions NewSudoku.

Definition NewWebUI (puzzle : Sudoku) : WebUI :=
  mkWebUI puzzle (copyBoard puzzle) 4 4 1 false.

Definition withSudoku (w : WebUI) (s : Sudoku) : WebUI :=
  mkWebUI s (originalPuzzle w) (selectedRow w) (selectedCol w) (selectedNumber w) (gameWon w).

(** An argument of a callback, a [js.Value], as the handlers use it.
    [JsNumber i] is a JavaScript number that [Int] converts to [i];
    [JsOther] stands for undefined, null, a boolean, an object or a
    function. *)
Inductive JsValue : Type :=
| JsNumber (i : Z)
| JsString (s : String.string)
| JsOther.


(** How a handler ends: it returns, or it panics and the program
    stops. *)
Inductive Result (A : Type) : Type :=
| Returned (a : A)
| Panicked.
Arguments Returned {A} a.
Arguments Panicked {A}.

#[export] Instance Result_bind : MBind Result :=
  λ A B k r, match r with Returned a => k a | Panicked => Panicked end.

(** [v.Int()] panics when [v] is not a number. *)
Definition Int (v : JsValue) : Result Z :=
  match v with JsNumber i => Returned i | _ => Panicked end.

Section Page.
Variable present : Z → Z → bool.

(** The body of the two loops of [updateDisplay] for one cell. *)
Definition updateCell (w : WebUI) (row col : Z) : WebUI * option CellView :=
  if negb (present row col) then (w, None)
  else
    let value := GetCell (sudoku w) row col in
    let isOriginal := negb (GetCell (originalPuzzle w) row col =? 0) in
    let isSelected := (row =? selectedRow w) && (col =? selectedCol w) in
    let '(s', invalid) :=
      if negb (value =? 0) then
        let originalValue := GetCell (sudoku w) row col in
        let s1 := (ClearCell (sudoku w) row col).2 in
        let '(isValid, s2) := IsValidMove s1 row col originalValue in
        let s3 := (SetCell s2 row col originalValue).2 in
        (s3, negb isValid)
      else (sudoku w, false) in
    (withSudoku w s',
     Some (mkCellView row col value isOriginal (negb isOriginal && negb (value =? 0))
             isSelected invalid)).

(** [updateDisplay], the loops over the cells.  The coordinate and the
    status lines after them read the state and write to the page only. *)
Definition updateDisplay (w : WebUI) : WebUI * list CellView :=
  fold_left (λ acc '(row, col),
               let '(w', v) := updateCell acc.1 row col in
               (w', acc.2 ++ option_list v))
            positions (w, []).

(** [selectCell]; [args] are the values the page passes. *)
Definition selectCell (w : WebUI) (args : list JsValue) : Result WebUI :=
  match args with
  | [a0; a1] =>
      row ← Int a0;
      col ← Int a1;
      Returned
        (if (row >=? 0) && (row <? 9) && (col >=? 0) && (col <? 9) then
           (updateDisplay
              (mkWebUI (sudoku w) (originalPuzzle w) row col (selectedNumber w) (gameWon w))).1
         else w)
  | _ => Returned w
  end.

Definition setNumber (w : WebUI) (args : list JsValue) : Result (WebUI * option Message) :=
  match args with
  | [a0] =>
      number ← Int a0;
      Returned
        (if (number <? 1) || (number >? 9) then (w, None)
         else if negb (GetCell (originalPuzzle w) (selectedRow w) (selectedCol w) =? 0)
         then (w, Some CannotModifyOriginal)
         else
           let '(ok, s1) := IsValidMove (sudoku w) (selectedRow w) (selectedCol w) number in
           if negb ok then (withSudoku w s1, Some InvalidMove)
           else
             let s2 := (SetCell s1 (selectedRow w) (selectedCol w) number).2 in
             let w2 := (updateDisplay (withSudoku w s2)).1 in
             if IsComplete (sudoku w2)
             then (mkWebUI (sudoku w2) (originalPuzzle w2) (selectedRow w2) (selectedCol w2)
                     (selectedNumber w2) true, Some Solved)
             else (w2, None))
  | _ => Returned (w, None)
  end.

(** [clearCell] does not look at its arguments. *)
Definition clearCell (w : WebUI) : WebUI * option Message :=
  if negb (GetCell (originalPuzzle w) (selectedRow w) (selectedCol w) =? 0)
  then (w, Some CannotModifyOriginal)
  else
    let s1 := (ClearCell (sudoku w) (selectedRow w) (selectedCol w)).2 in
    ((updateDisplay (withSudoku w s1)).1, None).

Section NewGame.
Context {Rand : Type}.
Variable Intn : Rand → Z → Z * Rand.

(** [newGame]; [g] is the source that [NewGenerator] seeds from the
    clock.  [args[0].String()] is the text of a string; of any other
    value it is a description in angle brackets, which no case of the
    switch matches. *)
Definition newGame (w : WebUI) (args : list JsValue) (g : Rand) : option WebUI :=
  let difficulty :=
    match args with
    | JsString diffStr :: _ =>
        if String.eqb diffStr Name.keyEasy then Easy
        else if String.eqb diffStr Name.keyMedium then Medium
        else if String.eqb diffStr Name.keyHard then Hard
        else if String.eqb diffStr Name.keyExpert then Expert
        else Medium
    | _ => Medium
    end in
  match GeneratePuzzle Intn g difficulty with
  | Some (newPuzzle, _) =>
      Some (updateDisplay (mkWebUI newPuzzle (copyBoard newPuzzle) 4 4 (selectedNumber w) false)).1
  | None => None
  end.

Definition setDifficulty (w : WebUI) (args : list JsValue) (g : Rand) : option WebUI :=
  match args with
  | [_] => newGame w args g
  | _ => Some w
  end.

(** What the page can ask for. *)
Inductive Event : Type :=
| SelectCell (args : list JsValue)
| SetNumber (args : list JsValue)
| ClearCell_
| NewGame (args : list JsValue) (g : Rand)
| SetDifficulty (args : list JsValue) (g : Rand).


(** One callback: [None] when the generator of [newGame] reaches its
    depth bound, [Panicked] when the handler panics. *)
Definition handle (w : WebUI) (e : Event) : option (Result WebUI) :=
  match e with
  | SelectCell args => Some (selectCell w args)
  | SetNumber args => Some (p ← setNumber w args; Returned p.1)
  | ClearCell_ => Some (Returned (clearCell w).1)
  | NewGame args g => Returned <$> newGame w args g
  | SetDifficulty args g => Returned <$> setDifficulty w args g
  end.

(** The callbacks of a session, one after the other; a panic ends the
    program. *)
Fixpoint run (w : WebUI) (es : list Event) : option (Result WebUI) :=
  match es with
  | [] => Some (Returned w)
  | e :: es' =>
      match handle w e with
      | Some (Returned w') => run w' es'
      | Some Panicked => Some Panicked
      | None => None
      end
  end.

End NewGame.
End Page.

(** What the handlers keep: 9x9 boards of digits, a valid board, a
    selection on the board, and the given cells as they were given. *)
Definition inv (w : WebUI) : Prop :=
  wf (sudoku w) ∧ wf (originalPuzzle w) ∧ digits (sudoku w) ∧
  IsValid (sudoku w) = true ∧ inb (selectedRow w) (selectedCol w) ∧
  ∀ r c, inb r c → cell (originalPuzzle w) r c ≠ 0 →
    cell (sudoku w) r c = cell (originalPuzzle w) r c.
End Web.

(** ** The terminal front end (package [ui])

    The arrays of the [TerminalUI] are read and written through
    [at2] and [put2]; every index is the cursor, which the handlers
    keep on the board, or [selectedNum]. *)

Definition at2 {A : Type} `{!Inhabited A} (g : list (list A)) (r c : Z) : A :=
  (g !!! Z.to_nat r) !!! Z.to_nat c.

Definition put2 {A : Type} `{!Inhabited A} (g : list (list A)) (r c : Z) (x : A)
    : list (list A) :=
  <[Z.to_nat r := <[Z.to_nat c := x]> (g !!! Z.to_nat r)]> g.

Definition wf2 {A : Type} (g : list (list A)) : Prop :=
  length g = 9%nat ∧ Forall (λ row, length row = 9%nat) g.

Module Terminal.

(** [type Tool int] and its [iota] constants. *)
Definition Tool : Type := Z.
Definition ToolNumber : Tool := 0.
Definition ToolBlock : Tool := 1.
Definition ToolMove : Tool := 2.

Record TerminalUI : Type := mkTerminalUI {
  sudoku : Sudoku;
  originalBoard : list (list Z);
  userNumbers : list (list Z);
  blockedNums : list (list (list bool));
  cursorRow : Z;
  cursorCol : Z;
  currentTool : Tool;
  selectedNum : Z;
  gameRunning : bool }.

(** [ui.blockedNums[row][col][num]], read and written. *)
Definition blocked (b : list (list (list bool))) (row col num : Z) : bool :=
  at2 b row col !!! Z.to_nat num.

Definition setBlocked (b : list (list (list bool))) (row col num : Z) (v : bool)
    : list (list (list bool)) :=
  put2 b row col (<[Z.to_nat num := v]> (at2 b row col)).

Definition NewTerminalUI (s : Sudoku) : TerminalUI :=
  mkTerminalUI s
    (fold_left (λ o '(i, j), put2 o i j (GetCell s i j)) positions
       (replicate 9 (replicate 9 0)))
    (replicate 9 (replicate 9 0))
    (replicate 9 (replicate 9 (replicate 10 false)))
    4 4 ToolMove 1 true.

Definition moveCursor (ui : TerminalUI) (deltaRow deltaCol : Z) : TerminalUI :=
  let newRow := cursorRow ui + deltaRow in
  let newCol := cursorCol ui + deltaCol in
  if (newRow >=? 0) && (newRow <? 9) && (newCol >=? 0) && (newCol <? 9) then
    mkTerminalUI (sudoku ui) (originalBoard ui) (userNumbers ui) (blockedNums ui)
      newRow newCol (currentTool ui) (selectedNum ui) (gameRunning ui)
  else ui.

Definition withTool (ui : TerminalUI) (tool : Tool) : TerminalUI :=
  mkTerminalUI (sudoku ui) (originalBoard ui) (userNumbers ui) (blockedNums ui)
    (cursorRow ui) (cursorCol ui) tool (selectedNum ui) (gameRunning ui).

Definition cycleTool (ui : TerminalUI) : TerminalUI :=
  if currentTool ui =? ToolMove then withTool ui ToolNumber
  else if currentTool ui =? ToolNumber then withTool ui ToolBlock
  else if currentTool ui =? ToolBlock then withTool ui ToolMove
  else ui.

Definition cycleToolReverse (ui : TerminalUI) : TerminalUI :=
  if currentTool ui =? ToolMove then withTool ui ToolBlock
  else if currentTool ui =? ToolNumber then withTool ui ToolMove
  else if currentTool ui =? ToolBlock then withTool ui ToolNumber
  else ui.

Definition withSelected (ui : TerminalUI) (num : Z) : TerminalUI :=
  mkTerminalUI (sudoku ui) (originalBoard ui) (userNumbers ui) (blockedNums ui)
    (cursorRow ui) (cursorCol ui) (currentTool ui) num (gameRunning ui).

Definition cycleNumber (ui : TerminalUI) : TerminalUI :=
  let n := selectedNum ui + 1 in
  withSelected ui (if n >? 9 then 1 else n).

Definition withMarks (ui : TerminalUI) (user : list (list Z))
    (b : list (list (list bool))) : TerminalUI :=
  mkTerminalUI (sudoku ui) (originalBoard ui) user b
    (cursorRow ui) (cursorCol ui) (currentTool ui) (selectedNum ui) (gameRunning ui).

Definition useTool (ui : TerminalUI) : TerminalUI :=
  let row := cursorRow ui in
  let col := cursorCol ui in
  if negb (at2 (originalBoard ui) row col =? 0) then ui
  else if currentTool ui =? ToolNumber then
    withMarks ui (put2 (userNumbers ui) row col (selectedNum ui))
      (setBlocked (blockedNums ui) row col (selectedNum ui) false)
  else if currentTool ui =? ToolBlock then
    let b := setBlocked (blockedNums ui) row col (selectedNum ui)
               (negb (blocked (blockedNums ui) row col (selectedNum ui))) in
    if blocked b row col (selectedNum ui) && (at2 (userNumbers ui) row col =? selectedNum ui)
    then withMarks ui (put2 (userNumbers ui) row col 0) b
    else withMarks ui (userNumbers ui) b
  else ui.

Definition clearCurrentCell (ui : TerminalUI) : TerminalUI :=
  let row := cursorRow ui in
  let col := cursorCol ui in
  if negb (at2 (originalBoard ui) row col =? 0) then ui
  else
    withMarks ui (put2 (userNumbers ui) row col 0)
      (fold_left (λ b i, setBlocked b row col i false) (seqZ 1 9) (blockedNums ui)).

Definition hasBlockedNumbers (ui : TerminalUI) (row col : Z) : bool :=
  existsb (λ i, blocked (blockedNums ui) row col i) (seqZ 1 9).

Section Keys.
(** The key codes of the keyboard package that [handleInput] names. *)
Variables KeySpace KeyEsc KeyArrowUp KeyArrowDown KeyArrowLeft KeyArrowRight : Z.

(** What [keyboard.GetSingleKey] returns: the rune, the key, and
    whether it failed. *)
Record KeyEvent : Type := mkKeyEvent { char : Z; key : Z; failed : bool }.

(** [handleInput] after the prompt; the runes are written as their
    code points. *)
Definition handleInput (ui : TerminalUI) (e : KeyEvent) : TerminalUI :=
  if failed e then ui
  else if key e =? KeySpace then useTool ui
  else if key e =? KeyEsc then
    mkTerminalUI (sudoku ui) (originalBoard ui) (userNumbers ui) (blockedNums ui)
      (cursorRow ui) (cursorCol ui) (currentTool ui) (selectedNum ui) false
  else if key e =? KeyArrowUp then moveCursor ui (-1) 0
  else if key e =? KeyArrowDown then moveCursor ui 1 0
  else if key e =? KeyArrowLeft then moveCursor ui 0 (-1)
  else if key e =? KeyArrowRight then moveCursor ui 0 1
  else
    let ch := char e in
    if (ch =? 119) || (ch =? 87) then moveCursor ui (-1) 0
    else if (ch =? 115) || (ch =? 83) then moveCursor ui 1 0
    else if (ch =? 97) || (ch =? 65) then moveCursor ui 0 (-1)
    else if (ch =? 100) || (ch =? 68) then moveCursor ui 0 1
    else if (ch =? 113) || (ch =? 81) then cycleTool ui
    else if (ch =? 101) || (ch =? 69) then cycleToolReverse ui
    else if (ch =? 102) || (ch =? 70) then cycleNumber ui
    else if (ch =? 99) || (ch =? 67) then clearCurrentCell ui
    else if (49 <=? ch) && (ch <=? 57) then withSelected ui (ch - 48)
    else ui.

(** [Run]: [for ui.gameRunning { ...; ui.handleInput() }] on the keys
    that arrive. *)
Fixpoint run (ui : TerminalUI) (es : list KeyEvent) : TerminalUI :=
  match es with
  | [] => ui
  | e :: es' => if gameRunning ui then run (handleInput ui e) es' else ui
  end.
End Keys.

(** What the handlers keep. *)
Definition inv (ui : TerminalUI) : Prop :=
  wf2 (originalBoard ui) ∧ wf2 (userNumbers ui) ∧ wf2 (blockedNums ui) ∧
  (∀ r c, inb r c → length (at2 (blockedNums ui) r c) = 10%nat) ∧
  inb (cursorRow ui) (cursorCol ui) ∧ 1 ≤ selectedNum ui ≤ 9 ∧
  (∀ r c, inb r c → 0 ≤ at2 (userNumbers ui) r c ≤ 9) ∧
  (∀ r c, inb r c → at2 (originalBoard ui) r c ≠ 0 →
     at2 (userNumbers ui) r c = 0 ∧
     ∀ n, 0 ≤ n ≤ 9 → blocked (blockedNums ui) r c n = false) ∧
  (∀ r c, inb r c → at2 (userNumbers ui) r c ≠ 0 →
     blocked (blockedNums ui) r c (at2 (userNumbers ui) r c) = false).
End Terminal.

(** A filled cell conflicts with a peer. *)
Definition conflicting (s : Sudoku) (row col : Z) : Prop :=
  cell s row col ≠ 0 ∧
  ∃ i j, inb i j ∧ peer row col i j ∧ cell s i j = cell s row col.

(** What the view of a cell says about a board of digits. *)
Definition view_ok (present : Z → Z → bool) (w : Web.WebUI) (v : Web.CellView) : Prop :=
  let r := Web.viewRow v in
  let c := Web.viewCol v in
  inb r c ∧ present r c = true ∧
  Web.viewValue v = cell (Web.sudoku w) r c ∧
  (Web.classOriginal v = true ↔ cell (Web.originalPuzzle w) r c ≠ 0) ∧
  (Web.classUserInput v = true ↔
     cell (Web.originalPuzzle w) r c = 0 ∧ cell (Web.sudoku w) r c ≠ 0) ∧
  (Web.classSelected v = true ↔ r = Web.selectedRow w ∧ c = Web.selectedCol w) ∧
  (Web.classInvalid v = true ↔ conflicting (Web.sudoku w) r c).

(** ** Basic facts on [cell] and [store] *)

Lemma all_range_spec lo n f :
  all_range lo n f = true ↔ ∀ k, lo ≤ k < lo + n → f k = true.
Proof.
  unfold all_range. rewrite forallb_forall. split.
  - intros H k Hk. apply H, list_elem_of_In, elem_of_seqZ. lia.
  - intros H k Hk. apply H. apply list_elem_of_In, elem_of_seqZ in Hk. lia.
Qed.

Lemma isValidPosition_true row col :
  isValidPosition row col = true ↔ inb row col.
Proof. unfold isValidPosition, inb. lia. Qed.

Lemma isValidPosition_false row col :
  isValidPosition row col = false ↔ ¬ inb row col.
Proof. rewrite <- isValidPosition_true. by destruct (isValidPosition row col). Qed.

Lemma isValidValue_true v : isValidValue v = true ↔ 0 ≤ v ≤ 9.
Proof. unfold isValidValue. lia. Qed.

Lemma wf_store s row col v : wf s → wf (store s row col v).
Proof.
  intros [Hl Hr]. split; simpl.
  - by rewrite length_insert.
  - destruct (decide (Z.to_nat row < length (Board s))%nat) as [Hlt|Hge].
    + apply Forall_insert; [done|]. rewrite length_insert.
      apply (Forall_lookup_1 _ _ (Z.to_nat row) _ Hr).
      by apply list_lookup_lookup_total_lt.
    + rewrite list_insert_ge by lia. done.
Qed.

Lemma wf_row_length s row : wf s → 0 ≤ row < 9 → length (Board s !!! Z.to_nat row) = 9%nat.
Proof.
  intros [Hl Hr] Hrow.
  apply (Forall_lookup_1 _ _ (Z.to_nat row) _ Hr).
  apply list_lookup_lookup_total_lt. lia.
Qed.

Lemma cell_store_eq s row col v :
  wf s → inb row col → cell (store s row col v) row col = v.
Proof.
  intros Hwf [Hr Hc]. pose proof (wf_row_length s row Hwf Hr) as Hlen.
  destruct Hwf as [Hl _]. unfold cell, store; simpl.
  rewrite list_lookup_total_insert_eq by lia.
  rewrite list_lookup_total_insert_eq by lia. done.
Qed.

Lemma cell_store_ne s row col v i j :
  inb row col → inb i j → i ≠ row ∨ j ≠ col →
  cell (store s row col v) i j = cell s i j.
Proof.
  intros [Hr Hc] [Hi Hj] Hne. unfold cell, store; simpl.
  rewrite list_lookup_total_insert. case_decide as Hd; [|done].
  destruct Hd as [Heq _]. assert (i = row) as -> by lia.
  rewrite list_lookup_total_insert_ne by lia. done.
Qed.

(** Writing a cell and then writing back what it held gives the board
    back, whatever the indices. *)
Lemma store_restore s row col v :
  store (store s row col v) row col (cell s row col) = s.
Proof.
  destruct s as [B]. unfold store, cell; simpl. f_equal.
  set (n := Z.to_nat row). set (m := Z.to_nat col).
  destruct (decide (n < length B)%nat) as [Hn|Hn].
  - rewrite list_lookup_total_insert_eq by done.
    rewrite !list_insert_insert_eq.
    rewrite (list_insert_id' (B !!! n) m).
    + apply list_insert_id'. intros _. by apply list_lookup_lookup_total_lt.
    + intros Hm. by apply list_lookup_lookup_total_lt.
  - rewrite !(list_insert_ge B) by lia. done.
Qed.

Lemma store_clear_empty s row col v :
  cell s row col = 0 → store (store s row col v) row col 0 = s.
Proof. intros <-. apply store_restore. Qed.

(** ** [isValidPlacement], [IsValidMove], [IsValid] against the rules *)

Lemma box_range r i :
  0 ≤ r < 9 → ((r ÷ 3) * 3 ≤ i < (r ÷ 3) * 3 + 3 ↔ 0 ≤ i < 9 ∧ i / 3 = r / 3).
Proof.
  intros Hr. rewrite Z.quot_div_nonneg by lia.
  Z.to_euclidean_division_equations. lia.
Qed.

Lemma isValidPlacement_spec s row col value :
  inb row col → value ≠ 0 →
  isValidPlacement s row col value = true ↔
  ∀ i j, inb i j → peer row col i j → cell s i j ≠ value.
Proof.
  intros [Hr Hc] Hv. unfold isValidPlacement.
  destruct (value =? 0) eqn:E0; [lia|]. clear E0.
  split.
  - intros H.
    destruct (all_range 0 9 (λ j, negb (negb (j =? col) && (cell s row j =? value)))) eqn:Erow;
      [simpl in H|done].
    destruct (all_range 0 9 (λ i, negb (negb (i =? row) && (cell s i col =? value)))) eqn:Ecol;
      [simpl in H|done].
    intros i j [Hi Hj] [Hne Hp].
    destruct (decide (i = row)) as [->|Hir].
    { rewrite all_range_spec in Erow. specialize (Erow j ltac:(lia)). lia. }
    destruct (decide (j = col)) as [->|Hjc].
    { rewrite all_range_spec in Ecol. specialize (Ecol i ltac:(lia)). lia. }
    destruct Hp as [?|[?|[Hbi Hbj]]]; [done|done|].
    rewrite all_range_spec in H.
    specialize (H i ltac:(apply box_range; [done|lia])).
    rewrite all_range_spec in H.
    specialize (H j ltac:(apply box_range; [done|lia])). lia.
  - intros H.
    assert (all_range 0 9 (λ j, negb (negb (j =? col) && (cell s row j =? value))) = true) as ->.
    { apply all_range_spec. intros j Hj.
      destruct (decide (j = col)) as [->|Hjc]; [lia|].
      specialize (H row j ltac:(unfold inb; lia) ltac:(unfold peer; lia)). lia. }
    assert (all_range 0 9 (λ i, negb (negb (i =? row) && (cell s i col =? value))) = true) as ->.
    { apply all_range_spec. intros i Hi.
      destruct (decide (i = row)) as [->|Hir]; [lia|].
      specialize (H i col ltac:(unfold inb; lia) ltac:(unfold peer; lia)). lia. }
    simpl. apply all_range_spec. intros i Hi. apply box_range in Hi; [|done].
    apply all_range_spec. intros j Hj. apply box_range in Hj; [|done].
    destruct (decide (i = row ∧ j = col)) as [[-> ->]|Hne]; [lia|].
    specialize (H i j ltac:(unfold inb; lia) ltac:(unfold peer; lia)). lia.
Qed.

Lemma IsValidMove_board s row col value : (IsValidMove s row col value).2 = s.
Proof.
  unfold IsValidMove.
  destruct (negb (isValidPosition row col) || negb (isValidValue value)); [done|].
  simpl. apply store_restore.
Qed.

Lemma IsValidMove_range_false s row col value :
  ¬ (inb row col ∧ 0 ≤ value ≤ 9) → (IsValidMove s row col value).1 = false.
Proof.
  intros H. unfold IsValidMove.
  destruct (negb (isValidPosition row col) || negb (isValidValue value)) eqn:E; [done|].
  exfalso. apply H. apply orb_false_iff in E as [E1 E2].
  apply negb_false_iff in E1, E2.
  by apply isValidPosition_true in E1; apply isValidValue_true in E2.
Qed.

Lemma IsValidMove_spec s row col value :
  inb row col → 1 ≤ value ≤ 9 →
  (IsValidMove s row col value).1 = true ↔
  ∀ i j, inb i j → peer row col i j → cell s i j ≠ value.
Proof.
  intros Hin Hv. unfold IsValidMove.
  assert (isValidPosition row col = true) as -> by by apply isValidPosition_true.
  assert (isValidValue value = true) as -> by (apply isValidValue_true; lia).
  simpl. rewrite isValidPlacement_spec by (done || lia).
  split; intros H i j Hij Hp.
  - rewrite <- (cell_store_ne s row col value i j) by (done || apply Hp). by apply H.
  - rewrite (cell_store_ne s row col value i j) by (done || apply Hp). by apply H.
Qed.

Lemma IsValid_spec s : IsValid s = true ↔ valid_spec s.
Proof.
  unfold IsValid, valid_spec. rewrite all_range_spec. split.
  - intros H r c i j Hrc Hij Hp Hnz.
    specialize (H r ltac:(destruct Hrc; lia)). rewrite all_range_spec in H.
    specialize (H c ltac:(destruct Hrc; lia)).
    destruct (cell s r c =? 0) eqn:E; [lia|]. simpl in H.
    destruct (isValidPlacement s r c (cell s r c)) eqn:Ep; [|done].
    rewrite isValidPlacement_spec in Ep by done. by apply Ep.
  - intros H r Hr. apply all_range_spec. intros c Hc.
    destruct (cell s r c =? 0) eqn:E; [done|]. simpl.
    assert (isValidPlacement s r c (cell s r c) = true) as ->; [|done].
    apply isValidPlacement_spec; [unfold inb; lia|lia|].
    intros i j Hij Hp. apply H; [unfold inb; lia|done|done|lia].
Qed.

Lemma full_spec s :
  all_range 0 9 (λ i, all_range 0 9 (λ j, negb (cell s i j =? 0))) = true ↔ full s.
Proof.
  unfold full. rewrite all_range_spec. split.
  - intros H r c [Hr Hc]. specialize (H r ltac:(lia)).
    rewrite all_range_spec in H. specialize (H c ltac:(lia)). lia.
  - intros H r Hr. apply all_range_spec. intros c Hc.
    specialize (H r c ltac:(unfold inb; lia)). lia.
Qed.

Lemma IsComplete_spec s : IsComplete s = true ↔ full s ∧ IsValid s = true.
Proof.
  unfold IsComplete. rewrite <- full_spec.
  destruct (all_range 0 9 (λ i, all_range 0 9 (λ j, negb (cell s i j =? 0)))); simpl.
  - tauto.
  - split; [done|]. intros [? _]. done.
Qed.

(** ** The coordinate list and the count of empty cells *)

Lemma in_positions r c : In (r, c) positions ↔ inb r c.
Proof.
  unfold positions, inb. rewrite in_prod_iff, <- !list_elem_of_In, !elem_of_seqZ. lia.
Qed.

Lemma NoDup_list_prod {A B : Type} (l : list A) (k : list B) :
  NoDup l → NoDup k → NoDup (list_prod l k).
Proof.
  intros Hl Hk. induction Hl as [|x l Hx Hl IH]; simpl; [constructor|].
  apply list.NoDup_app. split_and!.
  - apply NoDup_fmap_2; [|done]. intros y1 y2 Hy. by inversion Hy.
  - intros [a b] Hab Hin. apply list_elem_of_In, in_map_iff in Hab as (y & Hy & _).
    inversion Hy; subst. apply list_elem_of_In, in_prod_iff in Hin as [Hin _].
    apply Hx. by apply list_elem_of_In.
  - done.
Qed.

Lemma NoDup_positions : NoDup positions.
Proof. apply NoDup_list_prod; apply NoDup_seqZ. Qed.

Lemma length_positions : length positions = 81%nat.
Proof. reflexivity. Qed.

Lemma all_cells_spec (P : Z → Z → bool) :
  all_range 0 9 (λ i, all_range 0 9 (λ j, P i j)) = true ↔
  ∀ r c, inb r c → P r c = true.
Proof.
  rewrite all_range_spec. split.
  - intros H r c [Hr Hc]. specialize (H r ltac:(lia)).
    rewrite all_range_spec in H. apply H. lia.
  - intros H r Hr. apply all_range_spec. intros c Hc. apply H. unfold inb. lia.
Qed.

Lemma GetCell_inb s r c : inb r c → GetCell s r c = cell s r c.
Proof.
  intros H. unfold GetCell. apply isValidPosition_true in H. by rewrite H.
Qed.

Lemma IsEmpty_inb s r c : inb r c → IsEmpty s r c = (cell s r c =? 0).
Proof. intros H. unfold IsEmpty. by rewrite GetCell_inb. Qed.

Lemma sum_range_count (f : Z → bool) (l : list Z) :
  foldr (λ k acc, (if f k then 1 else 0) + acc) 0 l = Z.of_nat (length (List.filter f l)).
Proof.
  induction l as [|x l IH]; simpl; [done|]. rewrite IH.
  destruct (f x); simpl; lia.
Qed.

Lemma sum_grid_count (p : Z * Z → bool) (rows cols : list Z) :
  foldr (λ i acc, foldr (λ j acc', (if p (i, j) then 1 else 0) + acc') 0 cols + acc) 0 rows
  = Z.of_nat (length (List.filter p (list_prod rows cols))).
Proof.
  induction rows as [|i rows IH]; simpl; [done|].
  rewrite IH, filter_app, length_app, Nat2Z.inj_add. f_equal.
  rewrite (sum_range_count (λ j, p (i, j))).
  clear. induction cols as [|j cols IH]; simpl; [done|].
  destruct (p (i, j)); simpl; lia.
Qed.

Lemma CountEmptyCells_countEmpty s : CountEmptyCells s = Z.of_nat (countEmpty s).
Proof.
  unfold CountEmptyCells, countEmpty, sum_range.
  transitivity (Z.of_nat (length (List.filter (λ p, IsEmpty s p.1 p.2) positions))).
  - exact (sum_grid_count (λ p, IsEmpty s p.1 p.2) (seqZ 0 9) (seqZ 0 9)).
  - rewrite (filter_ext_in (λ p, IsEmpty s p.1 p.2) (emptyb s) positions); [done|].
    intros [r c] Hin%in_positions. by apply IsEmpty_inb.
Qed.

(** Changing a predicate at one element of a duplicate-free list moves
    the count by one. *)
Lemma filter_length_flip {A : Type} (f f' : A → bool) (x : A) (l : list A) :
  NoDup l → x ∈ l → f x = true → f' x = false →
  (∀ y, y ∈ l → y ≠ x → f' y = f y) →
  (length (List.filter f' l) + 1 = length (List.filter f l))%nat.
Proof.
  intros Hnd. induction Hnd as [|y l Hy Hnd IH]; intros Hx Hf Hf' Hext.
  - by apply elem_of_nil in Hx.
  - simpl. apply elem_of_cons in Hx as [->|Hx].
    + rewrite Hf, Hf'. simpl.
      rewrite (filter_ext_in f' f l); [lia|].
      intros z Hz%list_elem_of_In. apply Hext; [by right|]. by intros ->.
    + rewrite (Hext y); [|by left|by intros ->].
      specialize (IH Hx Hf Hf' ltac:(intros z Hz; apply Hext; by right)).
      destruct (f y); simpl; lia.
Qed.

Lemma countEmpty_fill s row col v :
  wf s → inb row col → cell s row col = 0 → v ≠ 0 →
  (countEmpty (store s row col v) + 1 = countEmpty s)%nat.
Proof.
  intros Hwf Hin H0 Hv. unfold countEmpty.
  apply (filter_length_flip (emptyb s) (emptyb (store s row col v)) (row, col)).
  - apply NoDup_positions.
  - by apply list_elem_of_In, in_positions.
  - unfold emptyb; simpl. lia.
  - unfold emptyb; simpl. rewrite cell_store_eq by done. lia.
  - intros [i j] Hij%list_elem_of_In%in_positions Hne. unfold emptyb; simpl.
    rewrite cell_store_ne; [done..|].
    destruct (decide (i = row)) as [->|]; [right|by left]. congruence.
Qed.

Lemma countEmpty_clear s row col :
  wf s → inb row col → cell s row col ≠ 0 →
  (countEmpty (store s row col 0) = countEmpty s + 1)%nat.
Proof.
  intros Hwf Hin H0. unfold countEmpty. symmetry.
  apply (filter_length_flip (emptyb (store s row col 0)) (emptyb s) (row, col)).
  - apply NoDup_positions.
  - by apply list_elem_of_In, in_positions.
  - unfold emptyb; simpl. rewrite cell_store_eq by done. lia.
  - unfold emptyb; simpl. lia.
  - intros [i j] Hij%list_elem_of_In%in_positions Hne. unfold emptyb; simpl.
    rewrite cell_store_ne; [done..|].
    destruct (decide (i = row)) as [->|]; [right|by left]. congruence.
Qed.

Lemma countEmpty_le s : (countEmpty s ≤ 81)%nat.
Proof.
  unfold countEmpty. rewrite <- length_positions. apply List.filter_length_le.
Qed.

Lemma countEmpty_zero_full s : countEmpty s = 0%nat ↔ full s.
Proof.
  unfold countEmpty, full. split.
  - intros H r c Hrc Hz.
    assert (In (r, c) (List.filter (emptyb s) positions)) as Hin.
    { apply filter_In. split; [by apply in_positions|]. unfold emptyb; simpl. lia. }
    destruct (List.filter (emptyb s) positions); [done|discriminate].
  - intros H. destruct (List.filter (emptyb s) positions) as [|[r c] l] eqn:E; [done|].
    assert (In (r, c) (List.filter (emptyb s) positions)) as Hin by (rewrite E; by left).
    apply filter_In in Hin as [Hin Hz]. apply in_positions in Hin.
    specialize (H r c Hin). unfold emptyb in Hz; simpl in Hz. lia.
Qed.

(** ** Swaps and shuffles *)

Lemma insert_head_Permutation {A : Type} `{!Inhabited A} (l : list A) (k : nat) (a : A) :
  (k < length l)%nat → (l !!! k) :: <[k:=a]> l ≡ₚ a :: l.
Proof.
  revert k. induction l as [|x l IH]; intros k Hk; simpl in Hk; [lia|].
  destruct k as [|k]; simpl.
  - apply perm_swap.
  - rewrite perm_swap. rewrite (IH k) by lia. apply perm_swap.
Qed.

Lemma swap_Permutation {A : Type} `{!Inhabited A} (l : list A) (i j : Z) :
  0 ≤ i → 0 ≤ j → (Z.to_nat i < length l)%nat → (Z.to_nat j < length l)%nat →
  swap l i j ≡ₚ l.
Proof.
  intros _ _. unfold swap. generalize (Z.to_nat i) (Z.to_nat j). clear i j.
  induction l as [|x l IH]; intros i j Hi Hj; simpl in Hi, Hj; [lia|].
  destruct i as [|i], j as [|j]; simpl.
  - done.
  - by apply insert_head_Permutation; lia.
  - by apply insert_head_Permutation; lia.
  - f_equiv. apply IH; lia.
Qed.

Lemma first_some_Some {A B : Type} (f : A → option B) (l : list A) (y : B) :
  first_some f l = Some y → ∃ x, x ∈ l ∧ f x = Some y.
Proof.
  induction l as [|x l IH]; simpl; [done|].
  destruct (f x) as [y'|] eqn:E.
  - intros [= <-]. exists x. split; [by left|done].
  - intros (x' & Hx' & Hf)%IH. exists x'. split; [by right|done].
Qed.

Lemma first_some_None {A B : Type} (f : A → option B) (l : list A) :
  first_some f l = None → ∀ x, x ∈ l → f x = None.
Proof.
  induction l as [|x l IH]; simpl; intros H x' Hx'; [by apply elem_of_nil in Hx'|].
  destruct (f x) eqn:E; [done|].
  apply elem_of_cons in Hx' as [->|Hx']; [done|]. by apply IH.
Qed.

Lemma findEmptyCell_found s row col :
  findEmptyCell s = (row, col) → row ≠ -1 → inb row col ∧ cell s row col = 0.
Proof.
  unfold findEmptyCell, first_range.
  destruct (first_some _ _) as [p|] eqn:E; [|intros [= <- <-]; done].
  intros -> _. apply first_some_Some in E as (i & Hi & E).
  apply first_some_Some in E as (j & Hj & E).
  apply elem_of_seqZ in Hi, Hj.
  destruct (IsEmpty s i j) eqn:Hemp; [|done]. injection E as <- <-.
  assert (inb i j) as Hin by (unfold inb; lia). split; [done|].
  rewrite IsEmpty_inb in Hemp by done. lia.
Qed.

Lemma findEmptyCell_none s row col :
  findEmptyCell s = (row, col) → row = -1 → full s.
Proof.
  unfold findEmptyCell, first_range.
  destruct (first_some _ _) as [p|] eqn:E.
  - intros -> ->. apply first_some_Some in E as (i & Hi & E).
    apply first_some_Some in E as (j & Hj & E).
    destruct (IsEmpty s i j); [|done]. injection E as E _.
    apply elem_of_seqZ in Hi. lia.
  - intros _ _ r c [Hr Hc].
    pose proof (first_some_None _ _ E r ltac:(apply elem_of_seqZ; lia)) as E'.
    pose proof (first_some_None _ _ E' c ltac:(apply elem_of_seqZ; lia)) as E''.
    simpl in E''. destruct (IsEmpty s r c) eqn:Hemp; [done|].
    rewrite IsEmpty_inb in Hemp by (unfold inb; lia). lia.
Qed.

Lemma peer_sym r c i j : peer r c i j → peer i j r c.
Proof. unfold peer. intros [Hne Hp]. split; [lia|]. destruct Hp as [?|[?|[? ?]]]; auto. Qed.

(** Placing a value that no peer holds keeps the rules. *)
Lemma valid_spec_store s row col v :
  wf s → inb row col → v ≠ 0 →
  (∀ i j, inb i j → peer row col i j → cell s i j ≠ v) →
  valid_spec s → valid_spec (store s row col v).
Proof.
  intros Hwf Hin Hv Hfree Hvalid r c i j Hrc Hij Hp Hnz.
  destruct (decide (r = row ∧ c = col)) as [[-> ->]|Hne1].
  - rewrite cell_store_eq by done.
    rewrite cell_store_ne by (done || apply Hp). by apply Hfree.
  - rewrite (cell_store_ne s row col v r c) in * by (done || lia).
    destruct (decide (i = row ∧ j = col)) as [[-> ->]|Hne2].
    + rewrite cell_store_eq by done. intros Heq.
      by apply (Hfree r c Hrc (peer_sym _ _ _ _ Hp)).
    + rewrite cell_store_ne by (done || lia). by apply Hvalid.
Qed.

Lemma extends_refl s : extends s s.
Proof. by intros r c _ _. Qed.

Lemma extends_store s t row col :
  wf s → inb row col → cell s row col = 0 →
  extends s t → extends (store s row col (cell t row col)) t.
Proof.
  intros Hwf Hin H0 Hext r c Hrc Hnz.
  destruct (decide (r = row ∧ c = col)) as [[-> ->]|Hne].
  - by rewrite cell_store_eq.
  - rewrite cell_store_ne in * by (done || lia). by apply Hext.
Qed.

(** A solution of [s] puts at an empty cell a value that is a valid
    move on [s]. *)
Lemma solved_move_valid s t row col :
  solved t → extends s t → inb row col →
  (IsValidMove s row col (cell t row col)).1 = true.
Proof.
  intros (Hwft & Hvalid & Hrange) Hext Hin.
  apply IsValidMove_spec; [done|by apply Hrange|].
  intros i j Hij Hp Heq.
  pose proof (Hrange row col Hin) as Hv.
  assert (cell t i j = cell s i j) as Ht by (apply Hext; [done|lia]).
  apply (Hvalid row col i j Hin Hij Hp); lia.
Qed.

Section GeneratorFacts.
Context {Rand : Type}.
Variable Intn : Rand → Z → Z * Rand.

(** [Intn(n)] is in [[0,n)] for positive [n], as [math/rand] documents. *)
Hypothesis Intn_range : ∀ g n, 0 < n → 0 ≤ (Intn g n).1 < n.

Lemma shuffleDown_Permutation {A : Type} `{!Inhabited A} (i : nat) (l : list A) (g : Rand) :
  (i < length l)%nat → (shuffleDown Intn i l g).1 ≡ₚ l.
Proof using Intn_range.
  revert l g. induction i as [|i IH]; intros l g Hi; [done|].
  cbn [shuffleDown]. pose proof (Intn_range g (Z.of_nat (S i) + 1) ltac:(lia)) as Hj.
  destruct (Intn g (Z.of_nat (S i) + 1)) as [j g']. simpl in Hj.
  assert (swap l (Z.of_nat (S i)) j ≡ₚ l) as Hsw by (apply swap_Permutation; lia).
  rewrite IH; [done|]. rewrite Hsw. lia.
Qed.

Lemma getRandomNumbers_Permutation g :
  (getRandomNumbers Intn g).1 ≡ₚ seqZ 1 9.
Proof using Intn_range.
  unfold getRandomNumbers. rewrite shuffleDown_Permutation; [done|simpl; lia].
Qed.

Lemma shufflePositions_Permutation ps g :
  (shufflePositions Intn ps g).1 ≡ₚ ps.
Proof using Intn_range.
  unfold shufflePositions. destruct ps as [|p ps]; [done|].
  apply shuffleDown_Permutation. simpl. lia.
Qed.

(** *** The backtracking search *)

Lemma tryNumbers_spec (rec : Rand → Sudoku → option (bool * Sudoku * Rand))
    (bound : nat) (row col : Z) (s : Sudoku) :
  (∀ g1 s1, wf s1 → (countEmpty s1 < bound)%nat →
      ∃ res, rec g1 s1 = Some res ∧ fill_post s1 res) →
  wf s → inb row col → cell s row col = 0 → (countEmpty s ≤ bound)%nat →
  ∀ numbers g, (∀ v, v ∈ numbers → 1 ≤ v ≤ 9) →
    ∃ res, tryNumbers rec row col numbers g s = Some res ∧
      if res.1.1
      then fill_post s res
      else res.1.2 = s ∧ ∀ t, solved t → extends s t → cell t row col ∉ numbers.
Proof.
  intros Hrec Hwf Hin H0 Hcount numbers.
  induction numbers as [|v rest IH]; intros g Hnums.
  - eexists. split; [done|]. simpl. split; [done|]. intros t _ _. apply not_elem_of_nil.
  - assert (1 ≤ v ≤ 9) as Hv by (apply Hnums; by left).
    assert (∀ w, w ∈ rest → 1 ≤ w ≤ 9) as Hrest by (intros w Hw; apply Hnums; by right).
    cbn [tryNumbers].
    pose proof (IsValidMove_board s row col v) as Hboard.
    destruct (IsValidMove s row col v) as [ok s0] eqn:Hmove. simpl in Hboard. subst s0.
    destruct ok.
    + (* the candidate is placed and the search goes one level down *)
      assert (SetCell s row col v = (true, store s row col v)) as ->.
      { unfold SetCell. apply isValidPosition_true in Hin as ->.
        assert (isValidValue v = true) as -> by (apply isValidValue_true; lia). done. }
      cbn [snd].
      assert (∀ i j, inb i j → peer row col i j → cell s i j ≠ v) as Hfree.
      { apply IsValidMove_spec; [done..|]. by rewrite Hmove. }
      pose proof (countEmpty_fill s row col v Hwf Hin H0 ltac:(lia)) as Hcnt.
      destruct (Hrec g (store s row col v) (wf_store _ _ _ _ Hwf) ltac:(lia))
        as ([[ok1 s2] g2] & -> & Hpost).
      unfold fill_post in Hpost; simpl in Hpost. destruct ok1.
      * destruct Hpost as (Hwf2 & Hfull & Hext & Hnew & Hval).
        eexists. split; [done|]. unfold fill_post; simpl. split_and!; [done|done|..].
        -- intros r c Hrc Hnz.
           assert (r ≠ row ∨ c ≠ col) as Hne.
           { destruct (decide (r = row)) as [->|]; [right|by left]. congruence. }
           rewrite Hext, cell_store_ne; try done.
           by rewrite cell_store_ne.
        -- intros r c Hrc Hz.
           destruct (decide (r = row ∧ c = col)) as [[-> ->]|Hne].
           ++ rewrite Hext; [|done|]; rewrite cell_store_eq by done; lia.
           ++ apply Hnew; [done|]. rewrite cell_store_ne; done || lia.
        -- intros Hvalid. by apply Hval, valid_spec_store; try lia.
      * destruct Hpost as [-> Hunsolv].
        assert (ClearCell (store s row col v) row col = (true, s)) as ->.
        { unfold ClearCell. apply isValidPosition_true in Hin as ->. simpl.
          by rewrite store_clear_empty. }
        cbn [snd]. destruct (IH g2 Hrest) as (res & -> & Hres).
        exists res. split; [done|]. destruct res.1.1; [done|].
        destruct Hres as [Hs Hnot]. split; [done|].
        intros t Ht Hext [Heq|Hr]%elem_of_cons; [|by eapply Hnot].
        apply Hunsolv. exists t. split; [done|]. rewrite <- Heq. by apply extends_store.
    + (* the candidate breaks a rule on the current board *)
      destruct (IH g Hrest) as (res & -> & Hres).
      exists res. split; [done|]. destruct res.1.1; [done|].
      destruct Hres as [Hs Hnot]. split; [done|].
      intros t Ht Hext [Heq|Hr]%elem_of_cons; [|by eapply Hnot].
      pose proof (solved_move_valid s t row col Ht Hext Hin) as Hok.
      rewrite Heq, Hmove in Hok. done.
Qed.

Lemma fillBoard_spec (fuel : nat) :
  ∀ g s, wf s → (countEmpty s < fuel)%nat →
    ∃ res, fillBoard Intn fuel g s = Some res ∧ fill_post s res.
Proof using Intn_range.
  induction fuel as [|fuel IH]; intros g s Hwf Hfuel; [lia|].
  cbn [fillBoard].
  destruct (findEmptyCell s) as [row col] eqn:Hfind.
  destruct (row =? -1) eqn:Hrow.
  - eexists. split; [done|]. unfold fill_post; simpl.
    pose proof (findEmptyCell_none s row col Hfind ltac:(lia)) as Hfull.
    split_and!; [done|done|apply extends_refl| |done].
    intros r c Hrc Hz. by destruct (Hfull r c Hrc).
  - destruct (findEmptyCell_found s row col Hfind ltac:(lia)) as [Hin H0].
    pose proof (getRandomNumbers_Permutation g) as Hperm.
    destruct (getRandomNumbers Intn g) as [numbers g1]. simpl in Hperm.
    destruct (tryNumbers_spec (fillBoard Intn fuel) fuel row col s IH Hwf Hin H0
                ltac:(lia) numbers g1) as (res & -> & Hres).
    { intros v Hv. rewrite Hperm in Hv. apply elem_of_seqZ in Hv. lia. }
    exists res. split; [done|]. unfold fill_post in *.
    destruct res.1.1; [done|]. destruct Hres as [Hs Hnot]. split; [done|].
    intros (t & Ht & Hext). apply (Hnot t Ht Hext).
    rewrite Hperm. apply elem_of_seqZ.
    destruct Ht as (_ & _ & Hrange). specialize (Hrange row col Hin). lia.
Qed.
End GeneratorFacts.

(** ** The sample solution and the empty board *)

Lemma wf_sample_solution : wf (NewSudokuWithPuzzle GetSampleSolution).
Proof. split; [reflexivity|repeat constructor]. Qed.

Lemma wf_sample_puzzle : wf (NewSudokuWithPuzzle GetSamplePuzzle).
Proof. split; [reflexivity|repeat constructor]. Qed.

Lemma sample_solution_solved : solved (NewSudokuWithPuzzle GetSampleSolution).
Proof.
  split_and!.
  - apply wf_sample_solution.
  - apply IsValid_spec. vm_compute. reflexivity.
  - intros r c Hrc.
    assert (all_range 0 9 (λ i, all_range 0 9 (λ j,
              (1 <=? cell (NewSudokuWithPuzzle GetSampleSolution) i j)
              && (cell (NewSudokuWithPuzzle GetSampleSolution) i j <=? 9))) = true) as H
      by (vm_compute; reflexivity).
    rewrite all_cells_spec in H. specialize (H r c Hrc). lia.
Qed.

Lemma wf_NewSudoku : wf NewSudoku.
Proof. split; [reflexivity|repeat constructor]. Qed.

Lemma cell_NewSudoku r c : inb r c → cell NewSudoku r c = 0.
Proof.
  intros Hrc.
  assert (all_range 0 9 (λ i, all_range 0 9 (λ j, cell NewSudoku i j =? 0)) = true) as H
    by (vm_compute; reflexivity).
  rewrite all_cells_spec in H. specialize (H r c Hrc). lia.
Qed.

Lemma countEmpty_NewSudoku : countEmpty NewSudoku = 81%nat.
Proof. vm_compute. reflexivity. Qed.

Lemma valid_spec_NewSudoku : valid_spec NewSudoku.
Proof. intros r c i j Hrc _ _ Hnz. by rewrite cell_NewSudoku in Hnz. Qed.

Lemma solvable_NewSudoku : solvable NewSudoku.
Proof.
  exists (NewSudokuWithPuzzle GetSampleSolution). split; [apply sample_solution_solved|].
  intros r c Hrc Hnz. by rewrite cell_NewSudoku in Hnz.
Qed.

(** ** Rows, columns and boxes of a full valid board *)

Lemma flat_map_list_prod {C : Type} (f : Z → Z → C) (rows cols : list Z) :
  flat_map (λ i, map (λ j, f i j) cols) rows = map (λ p, f p.1 p.2) (list_prod rows cols).
Proof.
  induction rows as [|i rows IH]; simpl; [done|].
  by rewrite map_app, map_map, IH.
Qed.

Lemma block_values_Permutation s (rows cols : list Z) :
  valid_spec s → (∀ r c, inb r c → 1 ≤ cell s r c ≤ 9) →
  NoDup rows → NoDup cols → (length rows * length cols = 9)%nat →
  (∀ i, i ∈ rows → 0 ≤ i < 9) → (∀ j, j ∈ cols → 0 ≤ j < 9) →
  (∀ i i' j j', i ∈ rows → i' ∈ rows → j ∈ cols → j' ∈ cols →
     i' ≠ i ∨ j' ≠ j → peer i j i' j') →
  flat_map (λ i, map (λ j, cell s i j) cols) rows ≡ₚ seqZ 1 9.
Proof.
  intros Hvalid Hrange Hrows Hcols Hlen Hr Hc Hpeer.
  rewrite flat_map_list_prod.
  assert (∀ p, p ∈ list_prod rows cols → p.1 ∈ rows ∧ p.2 ∈ cols) as Hin.
  { intros [i j] Hp%list_elem_of_In%in_prod_iff. by rewrite !list_elem_of_In. }
  apply submseteq_length_Permutation.
  - apply NoDup_submseteq.
    + change (NoDup ((λ p : Z * Z, cell s p.1 p.2) <$> list_prod rows cols)).
      apply NoDup_fmap_2_strong; [|by apply NoDup_list_prod].
      intros [i j] [i' j'] [Hi Hj]%Hin [Hi' Hj']%Hin Heq. simpl in *.
      destruct (decide (i' = i ∧ j' = j)) as [[-> ->]|Hne]; [done|]. exfalso.
      assert (inb i j) as Hij by (split; auto).
      assert (inb i' j') as Hij' by (split; auto).
      apply (Hvalid i j i' j' Hij Hij'); [apply Hpeer; auto; lia| |done].
      specialize (Hrange i j Hij). lia.
    + intros v Hv. apply list_elem_of_In, in_map_iff in Hv as ([i j] & <- & Hp).
      apply list_elem_of_In, Hin in Hp as [Hi Hj]. simpl in *.
      apply elem_of_seqZ. specialize (Hrange i j ltac:(split; auto)). lia.
  - rewrite length_map, length_prod, Hlen. done.
Qed.

Lemma rowValues_Permutation s k :
  valid_spec s → (∀ r c, inb r c → 1 ≤ cell s r c ≤ 9) → 0 ≤ k < 9 →
  rowValues s k ≡ₚ seqZ 1 9.
Proof.
  intros Hvalid Hrange Hk. unfold rowValues.
  rewrite <- (app_nil_r (map _ _)).
  apply (block_values_Permutation s [k] (seqZ 0 9)); try done.
  - apply NoDup_singleton.
  - apply NoDup_seqZ.
  - intros i ->%list_elem_of_singleton. done.
  - intros j Hj%elem_of_seqZ. lia.
  - intros i i' j j' ->%list_elem_of_singleton ->%list_elem_of_singleton _ _ Hne.
    unfold peer. lia.
Qed.

Lemma flat_map_column {C : Type} (f : Z → C) (rows : list Z) :
  flat_map (λ i, [f i]) rows = map f rows.
Proof. induction rows as [|i rows IH]; simpl; [done|]. by rewrite IH. Qed.

Lemma colValues_Permutation s k :
  valid_spec s → (∀ r c, inb r c → 1 ≤ cell s r c ≤ 9) → 0 ≤ k < 9 →
  colValues s k ≡ₚ seqZ 1 9.
Proof.
  intros Hvalid Hrange Hk. unfold colValues.
  rewrite <- (flat_map_column (λ i, cell s i k)).
  apply (block_values_Permutation s (seqZ 0 9) [k]); try done.
  - apply NoDup_seqZ.
  - apply NoDup_singleton.
  - intros j Hj%elem_of_seqZ. lia.
  - intros i ->%list_elem_of_singleton. done.
  - intros i i' j j' _ _ ->%list_elem_of_singleton ->%list_elem_of_singleton Hne.
    unfold peer. lia.
Qed.

Lemma boxValues_Permutation s k :
  valid_spec s → (∀ r c, inb r c → 1 ≤ cell s r c ≤ 9) → 0 ≤ k < 9 →
  boxValues s k ≡ₚ seqZ 1 9.
Proof.
  intros Hvalid Hrange Hk. unfold boxValues.
  apply block_values_Permutation; try done.
  - apply NoDup_seqZ.
  - apply NoDup_seqZ.
  - intros i Hi%elem_of_seqZ. Z.to_euclidean_division_equations. lia.
  - intros j Hj%elem_of_seqZ. Z.to_euclidean_division_equations. lia.
  - intros i i' j j' Hi%elem_of_seqZ Hi'%elem_of_seqZ Hj%elem_of_seqZ Hj'%elem_of_seqZ Hne.
    unfold peer. split; [lia|]. right; right.
    Z.to_euclidean_division_equations. lia.
Qed.

(** ** Removing cells *)

(** The copy loop of [removeCells]. *)
Lemma copy_loop_spec complete (ps : list (Z * Z)) :
  (∀ p, p ∈ ps → inb p.1 p.2) →
  ∀ p0, wf p0 →
    let p1 := fold_left (λ p '(i, j), store p i j (cell complete i j)) ps p0 in
    wf p1 ∧ ∀ r c, inb r c →
      cell p1 r c = if decide ((r, c) ∈ ps) then cell complete r c else cell p0 r c.
Proof.
  induction ps as [|[i j] ps IH]; intros Hps p0 Hwf; cbn [fold_left].
  - split; [done|]. intros r c _.
    destruct (decide ((r, c) ∈ [])) as [H|]; [|done]. by apply elem_of_nil in H.
  - assert (inb i j) as Hij by (apply (Hps (i, j)); by left).
    destruct (IH ltac:(intros p Hp; apply Hps; by right)
                 (store p0 i j (cell complete i j)) (wf_store _ _ _ _ Hwf)) as [Hwf1 Hcell].
    split; [done|]. intros r c Hrc. rewrite (Hcell r c Hrc).
    destruct (decide ((r, c) ∈ ps)) as [Hin|Hnin].
    + rewrite decide_True; [done|by right].
    + destruct (decide ((r, c) = (i, j))) as [[= -> ->]|Hne].
      * rewrite decide_True by by left. by apply cell_store_eq.
      * rewrite decide_False by (intros Hel; apply elem_of_cons in Hel as [?|?]; done).
        apply cell_store_ne; [done..|].
        destruct (decide (r = i)) as [->|]; [right|by left]. congruence.
Qed.

Lemma copy_spec complete :
  let puzzle := fold_left (λ p '(i, j), store p i j (cell complete i j)) positions NewSudoku in
  wf puzzle ∧ ∀ r c, inb r c → cell puzzle r c = cell complete r c.
Proof.
  destruct (copy_loop_spec complete positions
              ltac:(intros [r c] Hp%list_elem_of_In%in_positions; done)
              NewSudoku wf_NewSudoku) as [Hwf Hcell].
  split; [done|]. intros r c Hrc. rewrite (Hcell r c Hrc).
  rewrite decide_True; [done|]. by apply list_elem_of_In, in_positions.
Qed.

(** The removal loop on cells that are all filled: it clears the first
    cells of the list until the count is reached. *)
Lemma removeLoop_spec (n : Z) (ps : list (Z * Z)) :
  NoDup ps → (∀ p, p ∈ ps → inb p.1 p.2) →
  ∀ removed puzzle, wf puzzle → (∀ p, p ∈ ps → cell puzzle p.1 p.2 ≠ 0) →
    let p' := removeLoop ps n removed puzzle in
    wf p' ∧
    (∀ r c, inb r c → cell p' r c = 0 ∨ cell p' r c = cell puzzle r c) ∧
    Z.of_nat (countEmpty p') =
      Z.of_nat (countEmpty puzzle) + Z.min (Z.of_nat (length ps)) (Z.max 0 (n - removed)).
Proof.
  intros Hnd. induction Hnd as [|[row col] ps Hnin Hnd IH];
    intros Hps removed puzzle Hwf Hfilled; simpl.
  - split_and!; [done|by right|lia].
  - destruct (removed >=? n) eqn:Hge.
    { split_and!; [done|by right|lia]. }
    assert (inb row col) as Hin by (apply (Hps (row, col)); by left).
    assert (cell puzzle row col ≠ 0) as Hnz by (apply (Hfilled (row, col)); by left).
    rewrite IsEmpty_inb by done.
    assert ((cell puzzle row col =? 0) = false) as -> by lia. simpl.
    assert (ClearCell puzzle row col = (true, store puzzle row col 0)) as ->.
    { unfold ClearCell. by apply isValidPosition_true in Hin as ->. }
    cbn [snd].
    destruct (IH ltac:(intros p Hp; apply Hps; by right) (removed + 1)
                 (store puzzle row col 0) (wf_store _ _ _ _ Hwf)) as (Hwf' & Hcell & Hcount).
    { intros [r c] Hp. simpl. rewrite cell_store_ne.
      - apply (Hfilled (r, c)). by right.
      - done.
      - apply (Hps (r, c)). by right.
      - destruct (decide (r = row)) as [->|]; [right|by left]. congruence. }
    split_and!; [done| |].
    + intros r c Hrc. destruct (Hcell r c Hrc) as [H0|Hsame]; [by left|].
      destruct (decide (r = row ∧ c = col)) as [[-> ->]|Hne].
      * left. rewrite Hsame. by apply cell_store_eq.
      * right. rewrite Hsame. apply cell_store_ne; [done..|lia].
    + rewrite Hcount, countEmpty_clear by done. lia.
Qed.

Section PuzzleFacts.
Context {Rand : Type}.
Variable Intn : Rand → Z → Z * Rand.
Hypothesis Intn_range : ∀ g n, 0 < n → 0 ≤ (Intn g n).1 < n.

Lemma GenerateComplete_spec g :
  ∃ s g', GenerateComplete Intn g = Some (s, g') ∧
    wf s ∧ full s ∧ valid_spec s ∧ ∀ r c, inb r c → 1 ≤ cell s r c ≤ 9.
Proof using Intn_range.
  unfold GenerateComplete, maxDepth.
  destruct (fillBoard_spec Intn Intn_range 82 g NewSudoku wf_NewSudoku)
    as ([[ok s] g'] & -> & Hpost).
  { rewrite countEmpty_NewSudoku. lia. }
  unfold fill_post in Hpost; simpl in Hpost. destruct ok.
  - destruct Hpost as (Hwf & Hfull & _ & Hnew & Hvalid).
    exists s, g'. split_and!; [done..|by apply Hvalid, valid_spec_NewSudoku|].
    intros r c Hrc. apply Hnew; [done|]. by apply cell_NewSudoku.
  - destruct Hpost as [_ Hno]. destruct Hno. apply solvable_NewSudoku.
Qed.

Lemma removeCells_spec g complete n :
  wf complete → full complete →
  let p := (removeCells Intn g complete n).1 in
  wf p ∧
  (∀ r c, inb r c → cell p r c = 0 ∨ cell p r c = cell complete r c) ∧
  CountEmptyCells p = Z.min 81 (Z.max 0 n).
Proof using Intn_range.
  intros Hwf Hfull. unfold removeCells.
  destruct (copy_spec complete) as [Hwfc Hcopy].
  set (puzzle := fold_left _ positions NewSudoku) in *.
  pose proof (shufflePositions_Permutation Intn Intn_range positions g) as Hperm.
  destruct (shufflePositions Intn positions g) as [shuffled g']. simpl in Hperm. simpl.
  assert (∀ p, p ∈ shuffled → inb p.1 p.2) as Hin.
  { intros [r c] Hp. rewrite Hperm in Hp. by apply list_elem_of_In, in_positions in Hp. }
  destruct (removeLoop_spec n shuffled) with (removed := 0) (puzzle := puzzle)
    as (Hwf' & Hcell & Hcount); [|done|done| |].
  - rewrite Hperm. apply NoDup_positions.
  - intros [r c] Hp. simpl. rewrite Hcopy by (by apply (Hin (r, c))).
    apply Hfull. by apply (Hin (r, c)).
  - split_and!; [done| |].
    + intros r c Hrc. destruct (Hcell r c Hrc) as [?|Hsame]; [by left|right].
      by rewrite Hsame, Hcopy.
    + rewrite CountEmptyCells_countEmpty, Hcount.
      assert (countEmpty puzzle = 0%nat) as ->.
      { apply countEmpty_zero_full. intros r c Hrc. rewrite Hcopy by done. by apply Hfull. }
      rewrite Hperm, length_positions. lia.
Qed.
End PuzzleFacts.

(** ** More fuel never changes a result *)

Lemma tryNumbers_mono {Rand : Type}
    (rec rec' : Rand → Sudoku → option (bool * Sudoku * Rand)) (row col : Z) :
  (∀ g s r, rec g s = Some r → rec' g s = Some r) →
  ∀ numbers g s r,
    tryNumbers rec row col numbers g s = Some r →
    tryNumbers rec' row col numbers g s = Some r.
Proof.
  intros Hrec numbers. induction numbers as [|v rest IH]; intros g s r; [done|].
  cbn [tryNumbers]. destruct (IsValidMove s row col v) as [[] s0]; [|by apply IH].
  destruct (rec g (SetCell s0 row col v).2) as [[[[] s2] g2]|] eqn:E; [| |done].
  - rewrite (Hrec _ _ _ E). done.
  - rewrite (Hrec _ _ _ E). by apply IH.
Qed.

Lemma fillBoard_mono {Rand : Type} (Intn : Rand → Z → Z * Rand) (fuel : nat) :
  ∀ fuel' g s r, (fuel ≤ fuel')%nat →
    fillBoard Intn fuel g s = Some r → fillBoard Intn fuel' g s = Some r.
Proof.
  induction fuel as [|fuel IH]; intros fuel' g s r Hle; [done|].
  destruct fuel' as [|fuel']; [lia|]. cbn [fillBoard].
  destruct (findEmptyCell s) as [row col]. destruct (row =? -1); [done|].
  destruct (getRandomNumbers Intn g) as [numbers g1].
  apply tryNumbers_mono. intros g' s' r'. apply IH. lia.
Qed.

(** ** The board contract *)

(** C9.  On a 9x9 board: with [r], [c] in [[0,8]] and [v] in [[0,9]],
    [SetCell] returns [true] and [GetCell] then reads [v]; with an
    index or the value out of range, [SetCell] returns [false] and the
    board is the one before; with an index out of range, [GetCell]
    returns [-1]. *)
Theorem SetCell_GetCell_contract (s : Sudoku) (r c v : Z) :
  wf s →
  (inb r c → 0 ≤ v ≤ 9 →
     (SetCell s r c v).1 = true ∧ GetCell (SetCell s r c v).2 r c = v) ∧
  (¬ (inb r c ∧ 0 ≤ v ≤ 9) →
     (SetCell s r c v).1 = false ∧ (SetCell s r c v).2 = s) ∧
  (¬ inb r c → GetCell s r c = -1).
Proof.
  intros Hwf. split_and!.
  - intros Hrc Hv. unfold SetCell.
    assert (isValidPosition r c = true) as -> by by apply isValidPosition_true.
    assert (isValidValue v = true) as -> by by apply isValidValue_true.
    simpl. split; [done|]. rewrite GetCell_inb by done. by apply cell_store_eq.
  - intros Hout. unfold SetCell.
    destruct (negb (isValidPosition r c) || negb (isValidValue v)) eqn:E; [done|].
    exfalso. apply Hout. apply orb_false_iff in E as [E1 E2].
    apply negb_false_iff in E1, E2.
    by apply isValidPosition_true in E1; apply isValidValue_true in E2.
  - intros Hout. unfold GetCell. by apply isValidPosition_false in Hout as ->.
Qed.

Lemma SetCell_GetCell_contract_witness :
  wf (NewSudokuWithPuzzle GetSamplePuzzle) ∧
  (SetCell (NewSudokuWithPuzzle GetSamplePuzzle) 0 2 4).1 = true ∧
  GetCell (SetCell (NewSudokuWithPuzzle GetSamplePuzzle) 0 2 4).2 0 2 = 4.
Proof.
  split; [apply wf_sample_puzzle|].
  apply (SetCell_GetCell_contract (NewSudokuWithPuzzle GetSamplePuzzle) 0 2 4
           wf_sample_puzzle); unfold inb; lia.
Defined.

(** C3.  Whatever the board and the three integers, the board after a
    call of [IsValidMove] is the board before it. *)
Theorem IsValidMove_leaves_board (s : Sudoku) (row col value : Z) :
  (IsValidMove s row col value).2 = s ∧
  ∀ r c, cell (IsValidMove s row col value).2 r c = cell s r c.
Proof.
  pose proof (IsValidMove_board s row col value) as H. split; [done|].
  intros r c. by rewrite H.
Qed.

(** C8.  [IsComplete] is [true] exactly when no cell holds 0 and
    [IsValid] is [true]; the board made from the sample solution is
    complete. *)
Theorem IsComplete_iff_full_and_valid :
  (∀ s, IsComplete s = true ↔ full s ∧ IsValid s = true) ∧
  IsComplete (NewSudokuWithPuzzle GetSampleSolution) = true.
Proof. split; [apply IsComplete_spec|vm_compute; reflexivity]. Qed.

(** C2.  With [row], [col] in [[0,8]] and [value] in [[1,9]],
    [IsValidMove] returns [false] exactly when [value] is held by
    another cell of the row, of the column or of the 3x3 box of
    [(row, col)]; on the sample puzzle 4 is a valid move at (0,2) and 5
    is not. *)
Theorem IsValidMove_false_iff_conflict :
  (∀ s row col value, inb row col → 1 ≤ value ≤ 9 →
     (IsValidMove s row col value).1 = false ↔
     ∃ i j, inb i j ∧ peer row col i j ∧ cell s i j = value) ∧
  (IsValidMove (NewSudokuWithPuzzle GetSamplePuzzle) 0 2 4).1 = true ∧
  (IsValidMove (NewSudokuWithPuzzle GetSamplePuzzle) 0 2 5).1 = false.
Proof.
  split; [|split; vm_compute; reflexivity].
  intros s row col value Hin Hv. split.
  - intros Hfalse.
    destruct (decide (Exists (λ p, peer row col p.1 p.2 ∧ cell s p.1 p.2 = value) positions))
      as [Hsome|Hnone].
    + apply Exists_exists in Hsome as ([i j] & Hp & Hpeer & Hcell).
      exists i, j. split; [|done]. by apply in_positions in Hp.
    + assert ((IsValidMove s row col value).1 = true) as Htrue; [|congruence].
      apply IsValidMove_spec; [done..|]. intros i j Hij Hpeer Hcell.
      apply Hnone, Exists_exists. exists (i, j).
      split; [|done]. by apply in_positions.
  - intros (i & j & Hij & Hpeer & Hcell). apply not_true_is_false. intros Htrue.
    rewrite IsValidMove_spec in Htrue by done. by apply (Htrue i j).
Qed.

Lemma IsValidMove_false_iff_conflict_witness :
  inb 0 2 ∧ 1 ≤ 5 ≤ 9 ∧
  ((IsValidMove (NewSudokuWithPuzzle GetSamplePuzzle) 0 2 5).1 = false ↔
   ∃ i j, inb i j ∧ peer 0 2 i j ∧ cell (NewSudokuWithPuzzle GetSamplePuzzle) i j = 5).
Proof.
  assert (inb 0 2) as Hin by (unfold inb; lia).
  assert (1 ≤ 5 ≤ 9) as Hv by lia.
  split; [exact Hin|]. split; [exact Hv|].
  exact (proj1 IsValidMove_false_iff_conflict
           (NewSudokuWithPuzzle GetSamplePuzzle) 0 2 5 Hin Hv).
Defined.

(** ** The generator *)

Lemma Lcg_Intn_range g n : 0 < n → 0 ≤ (Lcg.Intn g n).1 < n.
Proof. intros Hn. unfold Lcg.Intn. simpl. apply Z.mod_pos_bound. lia. Qed.

Lemma countEmpty_all_empty s :
  countEmpty s = 81%nat → ∀ r c, inb r c → cell s r c = 0.
Proof.
  unfold countEmpty. rewrite <- length_positions. intros H r c Hrc.
  apply filter_length_forallb in H. rewrite forallb_forall in H.
  specialize (H (r, c) ltac:(by apply in_positions)). unfold emptyb in H. simpl in H. lia.
Qed.

Lemma valid_spec_ext s t :
  (∀ r c, inb r c → cell t r c = cell s r c) → valid_spec s → valid_spec t.
Proof.
  intros Heq Hvalid r c i j Hrc Hij Hp. rewrite !Heq by done. by apply Hvalid.
Qed.

(** ** The boards depend on the random source through its draws only *)

Section TwoSources.
Context {Rand1 Rand2 : Type}.
Variable Intn1 : Rand1 → Z → Z * Rand1.
Variable Intn2 : Rand2 → Z → Z * Rand2.
Variable R : Rand1 → Rand2 → Prop.
Hypothesis same_draws : ∀ g1 g2 n, R g1 g2 →
  (Intn1 g1 n).1 = (Intn2 g2 n).1 ∧ R (Intn1 g1 n).2 (Intn2 g2 n).2.

Lemma shuffleDown_agree {A : Type} `{!Inhabited A} (i : nat) :
  ∀ (l : list A) g1 g2, R g1 g2 →
    (shuffleDown Intn1 i l g1).1 = (shuffleDown Intn2 i l g2).1 ∧
    R (shuffleDown Intn1 i l g1).2 (shuffleDown Intn2 i l g2).2.
Proof using same_draws.
  induction i as [|i IH]; intros l g1 g2 HR; [done|]. cbn [shuffleDown].
  destruct (same_draws g1 g2 (Z.of_nat (S i) + 1) HR) as [Hj HR'].
  destruct (Intn1 g1 _) as [j1 g1'], (Intn2 g2 _) as [j2 g2']. simpl in *. subst j2.
  by apply IH.
Qed.

Lemma tryNumbers_agree rec1 rec2 row col :
  (∀ g1 g2 s, R g1 g2 → agree R (rec1 g1 s) (rec2 g2 s)) →
  ∀ numbers g1 g2 s, R g1 g2 →
    agree R (tryNumbers rec1 row col numbers g1 s) (tryNumbers rec2 row col numbers g2 s).
Proof.
  intros Hrec numbers. induction numbers as [|v rest IH]; intros g1 g2 s HR; [done|].
  cbn [tryNumbers]. destruct (IsValidMove s row col v) as [[] s0]; [|by apply IH].
  specialize (Hrec g1 g2 (SetCell s0 row col v).2 HR). unfold agree in Hrec.
  destruct (rec1 g1 _) as [[[ok1 s1] g1']|], (rec2 g2 _) as [[[ok2 s2] g2']|]; try done.
  destruct Hrec as [[= -> ->] HR']. destruct ok2; [done|]. by apply IH.
Qed.

Lemma fillBoard_agree (fuel : nat) :
  ∀ g1 g2 s, R g1 g2 → agree R (fillBoard Intn1 fuel g1 s) (fillBoard Intn2 fuel g2 s).
Proof using same_draws.
  induction fuel as [|fuel IH]; intros g1 g2 s HR; [done|]. cbn [fillBoard].
  destruct (findEmptyCell s) as [row col]. destruct (row =? -1); [done|].
  unfold getRandomNumbers.
  destruct (shuffleDown_agree (length [1; 2; 3; 4; 5; 6; 7; 8; 9] - 1)
              [1; 2; 3; 4; 5; 6; 7; 8; 9] g1 g2 HR) as [Hnum HR'].
  destruct (shuffleDown Intn1 _ _ g1) as [n1 g1'], (shuffleDown Intn2 _ _ g2) as [n2 g2'].
  simpl in *. subst n2. by apply tryNumbers_agree.
Qed.

Lemma GenerateComplete_agree g1 g2 :
  R g1 g2 → agree R (GenerateComplete Intn1 g1) (GenerateComplete Intn2 g2).
Proof using same_draws.
  intros HR. unfold GenerateComplete.
  pose proof (fillBoard_agree maxDepth g1 g2 NewSudoku HR) as H. unfold agree in H.
  destruct (fillBoard Intn1 _ g1 _) as [[[ok1 s1] g1']|],
           (fillBoard Intn2 _ g2 _) as [[[ok2 s2] g2']|]; try done.
  destruct H as [[= -> ->] HR']. done.
Qed.

Lemma removeCells_agree g1 g2 complete n :
  R g1 g2 →
  (removeCells Intn1 g1 complete n).1 = (removeCells Intn2 g2 complete n).1 ∧
  R (removeCells Intn1 g1 complete n).2 (removeCells Intn2 g2 complete n).2.
Proof using same_draws.
  intros HR. unfold removeCells, shufflePositions.
  destruct (shuffleDown_agree (length positions - 1) positions g1 g2 HR) as [Hps HR'].
  destruct (shuffleDown Intn1 _ _ g1) as [p1 g1'], (shuffleDown Intn2 _ _ g2) as [p2 g2'].
  simpl in *. by subst p2.
Qed.

Lemma createPuzzle_agree g1 g2 complete d :
  R g1 g2 →
  (createPuzzle Intn1 g1 complete d).1 = (createPuzzle Intn2 g2 complete d).1 ∧
  R (createPuzzle Intn1 g1 complete d).2 (createPuzzle Intn2 g2 complete d).2.
Proof using same_draws.
  intros HR. unfold createPuzzle.
  destruct (same_draws g1 g2 11 HR) as [H11 HR11].
  destruct (same_draws g1 g2 10 HR) as [H10 HR10].
  destruct (Intn1 g1 11) as [a1 x1], (Intn2 g2 11) as [a2 x2].
  destruct (Intn1 g1 10) as [b1 y1], (Intn2 g2 10) as [b2 y2].
  simpl in *. subst a2 b2.
  repeat (match goal with |- context [if ?b then _ else _] => destruct b end);
    by apply removeCells_agree.
Qed.

Lemma runCall_agree g1 g2 c :
  R g1 g2 → agree R (runCall Intn1 g1 c) (runCall Intn2 g2 c).
Proof using same_draws.
  intros HR. destruct c as [|d]; simpl; [by apply GenerateComplete_agree|].
  unfold GeneratePuzzle.
  pose proof (GenerateComplete_agree g1 g2 HR) as H. unfold agree in H.
  destruct (GenerateComplete Intn1 g1) as [[s1 g1']|],
           (GenerateComplete Intn2 g2) as [[s2 g2']|]; try done.
  destruct H as [-> HR']. simpl.
  destruct (createPuzzle_agree g1' g2' s2 d HR') as [Hp HRp].
  destruct (createPuzzle Intn1 g1' s2 d), (createPuzzle Intn2 g2' s2 d). done.
Qed.

(** Two sources that answer alike give the same boards, call by call. *)
Lemma runCalls_agree (cs : list Call) :
  ∀ g1 g2, R g1 g2 → runCalls Intn1 g1 cs = runCalls Intn2 g2 cs.
Proof using same_draws.
  induction cs as [|c cs IH]; intros g1 g2 HR; [done|]. cbn [runCalls].
  pose proof (runCall_agree g1 g2 c HR) as H. unfold agree in H.
  destruct (runCall Intn1 g1 c) as [[b1 g1']|], (runCall Intn2 g2 c) as [[b2 g2']|]; try done.
  destruct H as [-> HR']. by rewrite (IH g1' g2' HR').
Qed.
End TwoSources.

Section GeneratorClaims.
Context {Rand : Type}.
Variable NewSource : Z → Rand.
Variable Intn : Rand → Z → Z * Rand.
Hypothesis Intn_range : ∀ g n, 0 < n → 0 ≤ (Intn g n).1 < n.

Lemma createPuzzle_spec g complete d :
  wf complete → full complete →
  let p := (createPuzzle Intn g complete d).1 in
  wf p ∧
  (∀ r c, inb r c → cell p r c = 0 ∨ cell p r c = cell complete r c) ∧
  (d = Easy → 35 ≤ CountEmptyCells p ≤ 45) ∧
  (d = Medium → 46 ≤ CountEmptyCells p ≤ 55) ∧
  (d = Hard → 50 ≤ CountEmptyCells p ≤ 59) ∧
  (d = Expert → 54 ≤ CountEmptyCells p ≤ 63) ∧
  (d ≠ Easy → d ≠ Medium → d ≠ Hard → d ≠ Expert → CountEmptyCells p = 40).
Proof using Intn_range.
  intros Hwf Hfull. unfold createPuzzle, Easy, Medium, Hard, Expert.
  pose proof (Intn_range g 11 ltac:(lia)) as H11.
  pose proof (Intn_range g 10 ltac:(lia)) as H10.
  destruct (Intn g 11) as [k11 g11]. destruct (Intn g 10) as [k10 g10].
  simpl in H11, H10.
  destruct (d =? 0) eqn:E0; [|destruct (d =? 1) eqn:E1;
    [|destruct (d =? 2) eqn:E2; [|destruct (d =? 3) eqn:E3]]].
  all: match goal with
       | |- context [removeCells Intn ?g' ?c ?n] =>
           destruct (removeCells_spec Intn Intn_range g' c n Hwf Hfull)
             as (Hwfp & Hcell & Hcount)
       end.
  all: split_and!; [done|done|intros; lia..].
Qed.

(** C1.  [GenerateComplete] returns a board; none of its 81 cells is
    empty, [IsValid] holds on it, and the values of every row, every
    column and every box are the numbers 1 to 9, each once. *)
Theorem GenerateComplete_full_valid (g : Rand) :
  ∃ s g', GenerateComplete Intn g = Some (s, g') ∧
    full s ∧ CountEmptyCells s = 0 ∧ IsValid s = true ∧
    ∀ k, 0 ≤ k < 9 →
      rowValues s k ≡ₚ seqZ 1 9 ∧ colValues s k ≡ₚ seqZ 1 9 ∧ boxValues s k ≡ₚ seqZ 1 9.
Proof using Intn_range.
  destruct (GenerateComplete_spec Intn Intn_range g) as (s & g' & Hgen & Hwf & Hfull & Hvalid & Hrange).
  exists s, g'. split_and!; [done|done| |by apply IsValid_spec|].
  - rewrite CountEmptyCells_countEmpty. by apply countEmpty_zero_full in Hfull as ->.
  - intros k Hk. split_and!.
    + by apply rowValues_Permutation.
    + by apply colValues_Permutation.
    + by apply boxValues_Permutation.
Qed.

(** C6.  On every 9x9 board [fillBoard] returns when it may nest one
    level per empty cell (and one more for the call that finds the
    board full), so at most 82 levels; a larger bound gives the same
    result.  From the empty board it returns [true] with a complete
    board. *)
Theorem fillBoard_terminates :
  (∀ g s, wf s →
     ∃ res, fillBoard Intn (S (countEmpty s)) g s = Some res ∧
       ∀ fuel, (countEmpty s < fuel)%nat → fillBoard Intn fuel g s = Some res) ∧
  (∀ s, (S (countEmpty s) ≤ maxDepth)%nat) ∧
  (∀ g, ∃ s' g', fillBoard Intn maxDepth g NewSudoku = Some (true, s', g') ∧
     IsComplete s' = true).
Proof using Intn_range.
  split_and!.
  - intros g s Hwf.
    destruct (fillBoard_spec Intn Intn_range (S (countEmpty s)) g s Hwf ltac:(lia))
      as (res & Hres & _).
    exists res. split; [done|]. intros fuel Hfuel.
    apply (fillBoard_mono Intn (S (countEmpty s))); [lia|done].
  - intros s. pose proof (countEmpty_le s). unfold maxDepth. lia.
  - intros g.
    destruct (GenerateComplete_spec Intn Intn_range g)
      as (s & g' & Hgen & Hwf & Hfull & Hvalid & Hrange).
    unfold GenerateComplete in Hgen.
    destruct (fillBoard_spec Intn Intn_range maxDepth g NewSudoku wf_NewSudoku)
      as ([[ok s1] g1] & Hfill & Hpost).
    { rewrite countEmpty_NewSudoku. unfold maxDepth. lia. }
    rewrite Hfill in Hgen. injection Hgen as -> ->.
    unfold fill_post in Hpost; simpl in Hpost. destruct ok.
    + exists s, g'. split; [done|]. apply IsComplete_spec. split; [done|by apply IsValid_spec].
    + destruct Hpost as [_ Hno]. destruct Hno. apply solvable_NewSudoku.
Qed.

(** C4.  For each of the four named difficulties the puzzle has a
    number of empty cells in the documented range, and each of its
    filled cells holds the value of the complete board it was cut from. *)
Theorem GeneratePuzzle_removal_range (g : Rand) (d : Difficulty) :
  d = Easy ∨ d = Medium ∨ d = Hard ∨ d = Expert →
  ∃ complete g1 puzzle g2,
    GenerateComplete Intn g = Some (complete, g1) ∧
    GeneratePuzzle Intn g d = Some (puzzle, g2) ∧
    (removalRange d).1 ≤ CountEmptyCells puzzle ≤ (removalRange d).2 ∧
    ∀ r c, inb r c → cell puzzle r c ≠ 0 → cell puzzle r c = cell complete r c.
Proof using Intn_range.
  intros Hd.
  destruct (GenerateComplete_spec Intn Intn_range g)
    as (complete & g1 & Hgen & Hwf & Hfull & _).
  destruct (createPuzzle_spec g1 complete d Hwf Hfull)
    as (_ & Hcell & HE & HM & HH & HX & _).
  unfold GeneratePuzzle. rewrite Hgen.
  destruct (createPuzzle Intn g1 complete d) as [puzzle g2]. simpl in *.
  exists complete, g1, puzzle, g2. split_and!; [done|done| | |].
  - destruct Hd as [-> | [-> | [-> | ->]]]; cbn; auto; lia.
  - destruct Hd as [-> | [-> | [-> | ->]]]; cbn; auto; lia.
  - intros r c Hrc Hnz. by destruct (Hcell r c Hrc).
Qed.

(** C10.  For a difficulty that is none of the four constants the
    puzzle has exactly 40 empty cells. *)
Theorem GeneratePuzzle_unnamed_difficulty (g : Rand) (d : Difficulty) :
  d ≠ Easy → d ≠ Medium → d ≠ Hard → d ≠ Expert →
  ∃ puzzle g', GeneratePuzzle Intn g d = Some (puzzle, g') ∧ CountEmptyCells puzzle = 40.
Proof using Intn_range.
  intros H0 H1 H2 H3.
  destruct (GenerateComplete_spec Intn Intn_range g)
    as (complete & g1 & Hgen & Hwf & Hfull & _).
  destruct (createPuzzle_spec g1 complete d Hwf Hfull) as (_ & _ & _ & _ & _ & _ & H40).
  unfold GeneratePuzzle. rewrite Hgen.
  destruct (createPuzzle Intn g1 complete d) as [puzzle g2]. simpl in *.
  exists puzzle, g2. split; [done|]. by apply H40.
Qed.

(** C5 (as the code has it).  The ratio is clamped to [[0,1]] and the
    number of cells removed is [int(81 * ratio)], the float64 product
    with its fraction dropped, and never more than the 81 cells of the
    board; no filled cell is changed.  Ratio 0.0 gives a complete
    board, ratio 1.0 an empty one, and the float64 nearest to 0.7 gives
    56 empty cells. *)
Theorem GeneratePuzzleWithEmptyRatio_truncates (g : Rand) (ratio : Float64.t) :
  ∃ complete g1 puzzle g2,
    GenerateComplete Intn g = Some (complete, g1) ∧
    GeneratePuzzleWithEmptyRatio Intn g ratio = Some (puzzle, g2) ∧
    CountEmptyCells puzzle =
      Z.min 81 (Z.max 0 (Float64.cellsToRemove (Float64.clamp01 ratio))) ∧
    (∀ r c, inb r c → cell puzzle r c ≠ 0 → cell puzzle r c = cell complete r c) ∧
    (ratio = Float64.zero → IsComplete puzzle = true) ∧
    (ratio = Float64.one → ∀ r c, inb r c → cell puzzle r c = 0) ∧
    (ratio = Float64.ratio70 → CountEmptyCells puzzle = 56).
Proof using Intn_range.
  destruct (GenerateComplete_spec Intn Intn_range g)
    as (complete & g1 & Hgen & Hwf & Hfull & Hvalid & _).
  unfold GeneratePuzzleWithEmptyRatio. rewrite Hgen.
  destruct (removeCells_spec Intn Intn_range g1 complete
              (Float64.cellsToRemove (Float64.clamp01 ratio)) Hwf Hfull)
    as (Hwfp & Hcell & Hcount).
  destruct (removeCells Intn g1 complete _) as [puzzle g2]. simpl in *.
  exists complete, g1, puzzle, g2. split_and!; [done..| | | |].
  - intros r c Hrc Hnz. by destruct (Hcell r c Hrc).
  - intros ->.
    assert (Float64.cellsToRemove (Float64.clamp01 Float64.zero) = 0) as Hn
      by (vm_compute; reflexivity).
    rewrite Hn, CountEmptyCells_countEmpty in Hcount.
    assert (full puzzle) as Hfullp by (apply countEmpty_zero_full; lia).
    apply IsComplete_spec. split; [done|]. apply IsValid_spec.
    apply (valid_spec_ext complete); [|done].
    intros r c Hrc. destruct (Hcell r c Hrc) as [H0|]; [|done]. by destruct (Hfullp r c).
  - intros ->.
    assert (Float64.cellsToRemove (Float64.clamp01 Float64.one) = 81) as Hn
      by (vm_compute; reflexivity).
    rewrite Hn, CountEmptyCells_countEmpty in Hcount.
    apply countEmpty_all_empty. lia.
  - intros ->.
    assert (Float64.cellsToRemove (Float64.clamp01 Float64.ratio70) = 56) as Hn
      by (vm_compute; reflexivity).
    rewrite Hcount, Hn. done.
Qed.







End GeneratorClaims.

(** ** Runs on the stand-in random source *)

Lemma GenerateComplete_full_valid_witness :
  ∃ s g', GenerateComplete Lcg.Intn (Lcg.NewSource 42) = Some (s, g') ∧
    full s ∧ CountEmptyCells s = 0 ∧ IsValid s = true ∧
    ∀ k, 0 ≤ k < 9 →
      rowValues s k ≡ₚ seqZ 1 9 ∧ colValues s k ≡ₚ seqZ 1 9 ∧ boxValues s k ≡ₚ seqZ 1 9.
Proof. exact (GenerateComplete_full_valid Lcg.Intn Lcg_Intn_range (Lcg.NewSource 42)). Defined.

Lemma fillBoard_terminates_witness :
  wf (NewSudokuWithPuzzle GetSamplePuzzle) ∧
  ∃ res, fillBoard Lcg.Intn (S (countEmpty (NewSudokuWithPuzzle GetSamplePuzzle)))
           (Lcg.NewSource 42) (NewSudokuWithPuzzle GetSamplePuzzle) = Some res ∧
    ∀ fuel, (countEmpty (NewSudokuWithPuzzle GetSamplePuzzle) < fuel)%nat →
      fillBoard Lcg.Intn fuel (Lcg.NewSource 42) (NewSudokuWithPuzzle GetSamplePuzzle)
      = Some res.
Proof.
  split; [apply wf_sample_puzzle|].
  exact (proj1 (fillBoard_terminates Lcg.Intn Lcg_Intn_range) (Lcg.NewSource 42)
           (NewSudokuWithPuzzle GetSamplePuzzle) wf_sample_puzzle).
Defined.

Lemma GeneratePuzzle_removal_range_witness :
  ∃ complete g1 puzzle g2,
    GenerateComplete Lcg.Intn (Lcg.NewSource 42) = Some (complete, g1) ∧
    GeneratePuzzle Lcg.Intn (Lcg.NewSource 42) Hard = Some (puzzle, g2) ∧
    (removalRange Hard).1 ≤ CountEmptyCells puzzle ≤ (removalRange Hard).2 ∧
    ∀ r c, inb r c → cell puzzle r c ≠ 0 → cell puzzle r c = cell complete r c.
Proof.
  apply (GeneratePuzzle_removal_range Lcg.Intn Lcg_Intn_range (Lcg.NewSource 42) Hard).
  right. right. left. reflexivity.
Defined.

Lemma GeneratePuzzle_unnamed_difficulty_witness :
  ∃ puzzle g', GeneratePuzzle Lcg.Intn (Lcg.NewSource 42) 7 = Some (puzzle, g') ∧
    CountEmptyCells puzzle = 40.
Proof.
  apply (GeneratePuzzle_unnamed_difficulty Lcg.Intn Lcg_Intn_range (Lcg.NewSource 42) 7);
    unfold Easy, Medium, Hard, Expert; lia.
Defined.

Lemma GeneratePuzzleWithEmptyRatio_truncates_witness :
  ∃ complete g1 puzzle g2,
    GenerateComplete Lcg.Intn (Lcg.NewSource 42) = Some (complete, g1) ∧
    GeneratePuzzleWithEmptyRatio Lcg.Intn (Lcg.NewSource 42) Float64.ratio70
      = Some (puzzle, g2) ∧
    CountEmptyCells puzzle =
      Z.min 81 (Z.max 0 (Float64.cellsToRemove (Float64.clamp01 Float64.ratio70))) ∧
    (∀ r c, inb r c → cell puzzle r c ≠ 0 → cell puzzle r c = cell complete r c) ∧
    (Float64.ratio70 = Float64.zero → IsComplete puzzle = true) ∧
    (Float64.ratio70 = Float64.one → ∀ r c, inb r c → cell puzzle r c = 0) ∧
    (Float64.ratio70 = Float64.ratio70 → CountEmptyCells puzzle = 56).
Proof.
  exact (GeneratePuzzleWithEmptyRatio_truncates Lcg.Intn Lcg_Intn_range
           (Lcg.NewSource 42) Float64.ratio70).
Defined.


(** A run of a program on the stand-in source: the generator seeded
    with 42 and the one started from the clock reading 7 return
    different boards. *)
Example exec_run :
  match exec Lcg.NewSource Lcg.Intn
          [StepNewGeneratorWithSeed 42; StepNewGenerator 7;
           StepCall 1 CallGenerateComplete; StepCall 0 CallGenerateComplete] [] with
  | Some (out, _) => length out = 2%nat ∧ boardsOf 0 out ≠ boardsOf 1 out
  | None => False
  end.
Proof. vm_compute. split; [reflexivity|]. intros H. discriminate H. Qed.

(** C5 as the specification words it fails: with the float64 nearest
    to 0.7 the product is 56.7, [round] gives 57 and the puzzle has 56
    empty cells. *)
Lemma ratio_rounding_counterexample :
  ∃ puzzle g',
    GeneratePuzzleWithEmptyRatio Lcg.Intn (Lcg.NewSource 42) Float64.ratio70
      = Some (puzzle, g') ∧
    CountEmptyCells puzzle = 56 ∧
    roundedCells (Float64.clamp01 Float64.ratio70) = 57 ∧
    CountEmptyCells puzzle ≠ roundedCells (Float64.clamp01 Float64.ratio70).
Proof.
  eexists _, _. split; [vm_compute; reflexivity|].
  split; [vm_compute; reflexivity|]. split; [vm_compute; reflexivity|].
  vm_compute. discriminate.
Qed.

(** ** Small runs *)

Example SetCell_out_of_range :
  SetCell NewSudoku 9 0 5 = (false, NewSudoku) ∧
  SetCell NewSudoku 0 0 10 = (false, NewSudoku) ∧
  GetCell NewSudoku (-1) 3 = -1.
Proof. repeat split. Qed.

Example swap_first_last : swap [1; 2; 3; 4] 3 0 = [4; 2; 3; 1].
Proof. reflexivity. Qed.

Example getRandomNumbers_run :
  (getRandomNumbers Lcg.Intn (Lcg.NewSource 42)).1 = [9; 6; 8; 7; 5; 4; 1; 3; 2].
Proof. vm_compute. reflexivity. Qed.

Example GenerateComplete_run :
  option_map (λ r, Board r.1) (GenerateComplete Lcg.Intn (Lcg.NewSource 42)) =
  Some [ [9; 1; 7; 5; 8; 4; 3; 2; 6];
         [5; 8; 2; 3; 1; 6; 4; 7; 9];
         [3; 4; 6; 9; 7; 2; 8; 5; 1];
         [6; 9; 1; 7; 3; 8; 2; 4; 5];
         [7; 5; 4; 2; 9; 1; 6; 3; 8];
         [2; 3; 8; 4; 6; 5; 1; 9; 7];
         [1; 7; 5; 8; 4; 3; 9; 6; 2];
         [8; 2; 3; 6; 5; 9; 7; 1; 4];
         [4; 6; 9; 1; 2; 7; 5; 8; 3] ].
Proof. vm_compute. reflexivity. Qed.

Example cellsToRemove_runs :
  Float64.cellsToRemove (Float64.clamp01 Float64.zero) = 0 ∧
  Float64.cellsToRemove (Float64.clamp01 Float64.one) = 81 ∧
  Float64.cellsToRemove (Float64.clamp01 Float64.ratio70) = 56 ∧
  roundedCells (Float64.clamp01 Float64.ratio70) = 57.
Proof. repeat split; vm_compute; reflexivity. Qed.

(** ** More on the board operations *)

Lemma store_store s row col v w :
  store (store s row col v) row col w = store s row col w.
Proof.
  destruct s as [B]. unfold store; simpl. f_equal.
  destruct (decide (Z.to_nat row < length B)%nat) as [Hn|Hn].
  - rewrite list_lookup_total_insert_eq by done. by rewrite !list_insert_insert_eq.
  - by rewrite !(list_insert_ge B) by lia.
Qed.

Lemma GetCell_store_ne s row col v i j :
  inb row col → i ≠ row ∨ j ≠ col → GetCell (store s row col v) i j = GetCell s i j.
Proof.
  intros Hin Hne. unfold GetCell.
  destruct (isValidPosition i j) eqn:Hij; [|done]. simpl.
  apply isValidPosition_true in Hij. by apply cell_store_ne.
Qed.

(** X1.  [ClearCell] on a 9x9 board: in range it returns [true], the
    cell is then empty and every other cell reads as before; out of
    range it returns [false] and the board is the one before; a second
    call changes nothing more; and it is [SetCell] with value 0. *)
Theorem ClearCell_contract (s : Sudoku) (r c : Z) :
  wf s →
  (inb r c →
     (ClearCell s r c).1 = true ∧ IsEmpty (ClearCell s r c).2 r c = true ∧
     wf (ClearCell s r c).2 ∧
     ∀ i j, i ≠ r ∨ j ≠ c → GetCell (ClearCell s r c).2 i j = GetCell s i j) ∧
  (¬ inb r c → ClearCell s r c = (false, s)) ∧
  ClearCell (ClearCell s r c).2 r c = ClearCell s r c ∧
  ClearCell s r c = SetCell s r c 0.
Proof.
  intros Hwf. unfold ClearCell, SetCell. split_and!.
  - intros Hin. pose proof Hin as Hpos. apply isValidPosition_true in Hpos.
    rewrite Hpos. simpl. split_and!; [done| |by apply wf_store|].
    + rewrite IsEmpty_inb by done. rewrite cell_store_eq by done. done.
    + intros i j Hne. by apply GetCell_store_ne.
  - intros Hout. by apply isValidPosition_false in Hout as ->.
  - destruct (isValidPosition r c) eqn:Hpos; simpl; [|done].
    by rewrite store_store.
  - destruct (isValidPosition r c); done.
Qed.

Lemma ClearCell_contract_witness :
  wf (NewSudokuWithPuzzle GetSamplePuzzle) ∧ inb 0 0 ∧
  (ClearCell (NewSudokuWithPuzzle GetSamplePuzzle) 0 0).1 = true ∧
  IsEmpty (ClearCell (NewSudokuWithPuzzle GetSamplePuzzle) 0 0).2 0 0 = true.
Proof.
  assert (inb 0 0) as Hin by (unfold inb; lia).
  split; [apply wf_sample_puzzle|]. split; [exact Hin|].
  destruct (proj1 (ClearCell_contract (NewSudokuWithPuzzle GetSamplePuzzle) 0 0
                     wf_sample_puzzle) Hin) as (H1 & H2 & _).
  split; [exact H1|exact H2].
Defined.

(** X2.  [SetCell] changes no cell but the one it is given and keeps
    the 9x9 shape, whether it succeeds or not. *)
Theorem SetCell_frame (s : Sudoku) (r c v i j : Z) :
  (i ≠ r ∨ j ≠ c → GetCell (SetCell s r c v).2 i j = GetCell s i j) ∧
  (wf s → wf (SetCell s r c v).2).
Proof.
  unfold SetCell.
  destruct (negb (isValidPosition r c) || negb (isValidValue v)) eqn:E; simpl; [done|].
  apply orb_false_iff in E as [E _]. apply negb_false_iff, isValidPosition_true in E.
  split; [by apply GetCell_store_ne|by apply wf_store].
Qed.

Lemma SetCell_frame_witness :
  GetCell (SetCell (NewSudokuWithPuzzle GetSamplePuzzle) 0 2 4).2 0 0 = 5 ∧
  wf (SetCell (NewSudokuWithPuzzle GetSamplePuzzle) 0 2 4).2.
Proof.
  destruct (SetCell_frame (NewSudokuWithPuzzle GetSamplePuzzle) 0 2 4 0 0) as [H1 H2].
  split; [|exact (H2 wf_sample_puzzle)].
  rewrite H1; [reflexivity|right; lia].
Defined.

(** X3.  [IsValidMove] at its edges: value 0 is a valid move at every
    position of the board, and a position or a value out of range is
    never one. *)
Theorem IsValidMove_edges (s : Sudoku) (row col value : Z) :
  (inb row col → (IsValidMove s row col 0).1 = true) ∧
  (¬ (inb row col ∧ 0 ≤ value ≤ 9) → (IsValidMove s row col value).1 = false).
Proof.
  split; [|apply IsValidMove_range_false].
  intros Hin. unfold IsValidMove. apply isValidPosition_true in Hin as ->. done.
Qed.

Lemma IsValidMove_edges_witness :
  inb 0 2 ∧ (IsValidMove (NewSudokuWithPuzzle GetSamplePuzzle) 0 2 0).1 = true.
Proof.
  assert (inb 0 2) as Hin by (unfold inb; lia).
  split; [exact Hin|].
  exact (proj1 (IsValidMove_edges (NewSudokuWithPuzzle GetSamplePuzzle) 0 2 0) Hin).
Defined.

(** ** The conflict queries *)

Lemma NoDup_List_filter {A : Type} (f : A → bool) (l : list A) :
  NoDup l → NoDup (List.filter f l).
Proof.
  intros Hnd. induction Hnd as [|x l Hx Hnd IH]; simpl; [constructor|].
  destruct (f x); [|done]. constructor; [|done].
  intros Hin. apply Hx. apply list_elem_of_In, filter_In in Hin as [Hin _].
  by apply list_elem_of_In.
Qed.

Lemma in_GetRowConflicts s row col j :
  In j (GetRowConflicts s row col) ↔
  inb row col ∧ cell s row col ≠ 0 ∧ 0 ≤ j < 9 ∧ j ≠ col ∧ cell s row j = cell s row col.
Proof.
  unfold GetRowConflicts.
  destruct (isValidPosition row col) eqn:Hpos; cbn [negb]; cbv zeta.
  - apply isValidPosition_true in Hpos.
    destruct (cell s row col =? 0) eqn:Hz; [split; [done|lia]|].
    rewrite filter_In, <- list_elem_of_In, elem_of_seqZ. split; [intros [? ?]|intros (?&?&?&?&?)].
    + split_and!; done || lia.
    + split; lia.
  - apply isValidPosition_false in Hpos. split; [done|]. by intros [? _].
Qed.

Lemma in_GetColConflicts s row col i :
  In i (GetColConflicts s row col) ↔
  inb row col ∧ cell s row col ≠ 0 ∧ 0 ≤ i < 9 ∧ i ≠ row ∧ cell s i col = cell s row col.
Proof.
  unfold GetColConflicts.
  destruct (isValidPosition row col) eqn:Hpos; cbn [negb]; cbv zeta.
  - apply isValidPosition_true in Hpos.
    destruct (cell s row col =? 0) eqn:Hz; [split; [done|lia]|].
    rewrite filter_In, <- list_elem_of_In, elem_of_seqZ. split; [intros [? ?]|intros (?&?&?&?&?)].
    + split_and!; done || lia.
    + split; lia.
  - apply isValidPosition_false in Hpos. split; [done|]. by intros [? _].
Qed.

Lemma in_GetBoxConflicts s row col i j :
  In (i, j) (GetBoxConflicts s row col) ↔
  inb row col ∧ cell s row col ≠ 0 ∧ inb i j ∧ (i / 3 = row / 3 ∧ j / 3 = col / 3) ∧
  (i ≠ row ∨ j ≠ col) ∧ cell s i j = cell s row col.
Proof.
  unfold GetBoxConflicts.
  destruct (isValidPosition row col) eqn:Hpos; cbn [negb]; cbv zeta.
  - apply isValidPosition_true in Hpos. pose proof Hpos as [Hr Hc].
    destruct (cell s row col =? 0) eqn:Hz; [split; [done|lia]|].
    rewrite filter_In, in_prod_iff, <- !list_elem_of_In, !elem_of_seqZ. simpl.
    pose proof (box_range row i Hr) as Hbi. pose proof (box_range col j Hc) as Hbj.
    unfold inb. split.
    + intros [[Hi Hj] Hf]. apply Hbi in Hi. apply Hbj in Hj.
      split_and!; try done; lia.
    + intros (_ & _ & [Hi Hj] & [Hqi Hqj] & Hne & Heq).
      split; [split; [apply Hbi|apply Hbj]; done|lia].
  - apply isValidPosition_false in Hpos. split; [done|]. by intros [? _].
Qed.

Lemma valid_spec_cleared p q :
  (∀ r c, inb r c → cell p r c = 0 ∨ cell p r c = cell q r c) →
  valid_spec q → valid_spec p.
Proof.
  intros Hcl Hvalid r c i j Hrc Hij Hp Hnz.
  destruct (Hcl r c Hrc) as [?|Hrc']; [done|].
  destruct (Hcl i j Hij) as [Hz|Hij']; [lia|].
  rewrite Hrc', Hij'. apply (Hvalid r c i j Hrc Hij Hp). by rewrite <- Hrc'.
Qed.

Lemma nil_iff_no_member {A : Type} (l : list A) : l = [] ↔ ∀ x, ¬ In x l.
Proof.
  split; [intros -> x Hx; destruct Hx|]. intros H. destruct l as [|x l]; [done|].
  destruct (H x). by left.
Qed.

(** X4.  The three conflict queries list exactly the other cells of the
    row, of the column and of the box that hold the value of the
    queried cell, each once; for a position off the board or an empty
    cell they list nothing. *)
Theorem conflict_lists (s : Sudoku) (row col : Z) :
  (∀ j, In j (GetRowConflicts s row col) ↔
     inb row col ∧ cell s row col ≠ 0 ∧ 0 ≤ j < 9 ∧ j ≠ col ∧
     cell s row j = cell s row col) ∧
  (∀ i, In i (GetColConflicts s row col) ↔
     inb row col ∧ cell s row col ≠ 0 ∧ 0 ≤ i < 9 ∧ i ≠ row ∧
     cell s i col = cell s row col) ∧
  (∀ i j, In (i, j) (GetBoxConflicts s row col) ↔
     inb row col ∧ cell s row col ≠ 0 ∧ inb i j ∧
     (i / 3 = row / 3 ∧ j / 3 = col / 3) ∧ (i ≠ row ∨ j ≠ col) ∧
     cell s i j = cell s row col) ∧
  NoDup (GetRowConflicts s row col) ∧ NoDup (GetColConflicts s row col) ∧
  NoDup (GetBoxConflicts s row col) ∧
  (¬ inb row col ∨ cell s row col = 0 →
     GetRowConflicts s row col = [] ∧ GetColConflicts s row col = [] ∧
     GetBoxConflicts s row col = []).
Proof.
  split_and!.
  - apply in_GetRowConflicts.
  - apply in_GetColConflicts.
  - apply in_GetBoxConflicts.
  - unfold GetRowConflicts. destruct (negb _); [constructor|]. cbv zeta.
    destruct (_ =? 0); [constructor|]. apply NoDup_List_filter, NoDup_seqZ.
  - unfold GetColConflicts. destruct (negb _); [constructor|]. cbv zeta.
    destruct (_ =? 0); [constructor|]. apply NoDup_List_filter, NoDup_seqZ.
  - unfold GetBoxConflicts. destruct (negb _); [constructor|]. cbv zeta.
    destruct (_ =? 0); [constructor|].
    apply NoDup_List_filter, NoDup_list_prod; apply NoDup_seqZ.
  - intros Hedge. split_and!; apply nil_iff_no_member.
    + intros j Hj%in_GetRowConflicts. tauto.
    + intros i Hi%in_GetColConflicts. tauto.
    + intros [i j] Hij%in_GetBoxConflicts. tauto.
Qed.

Lemma conflict_lists_witness :
  GetRowConflicts (NewSudoku) 9 0 = [] ∧ GetColConflicts (NewSudoku) 9 0 = [] ∧
  GetBoxConflicts (NewSudoku) 9 0 = [].
Proof.
  apply (conflict_lists NewSudoku 9 0). left. unfold inb. lia.
Defined.

(** X5.  [IsValid] holds exactly when no conflict query reports
    anything, at any position. *)
Theorem IsValid_iff_no_conflicts (s : Sudoku) :
  IsValid s = true ↔
  ∀ row col, GetRowConflicts s row col = [] ∧ GetColConflicts s row col = [] ∧
             GetBoxConflicts s row col = [].
Proof.
  rewrite IsValid_spec. split.
  - intros Hvalid row col. split_and!; apply nil_iff_no_member.
    + intros j (Hin & Hnz & Hj & Hne & Heq)%in_GetRowConflicts.
      apply (Hvalid row col row j); try done; [unfold inb in *; lia|unfold peer; lia].
    + intros i (Hin & Hnz & Hi & Hne & Heq)%in_GetColConflicts.
      apply (Hvalid row col i col); try done; [unfold inb in *; lia|unfold peer; lia].
    + intros [i j] (Hin & Hnz & Hij & Hbox & Hne & Heq)%in_GetBoxConflicts.
      apply (Hvalid row col i j); try done. unfold peer. tauto.
  - intros Hnone r c i j Hrc Hij [Hne Hp] Hnz Heq.
    destruct (Hnone r c) as (Hrow & Hcol & Hbox).
    destruct Hp as [->|[->|Hb]].
    + assert (In j (GetRowConflicts s r c)) as Hin; [|by rewrite Hrow in Hin].
      apply in_GetRowConflicts. unfold inb in *. split_and!; lia || done.
    + assert (In i (GetColConflicts s r c)) as Hin; [|by rewrite Hcol in Hin].
      apply in_GetColConflicts. unfold inb in *. split_and!; lia || done.
    + assert (In (i, j) (GetBoxConflicts s r c)) as Hin; [|by rewrite Hbox in Hin].
      apply in_GetBoxConflicts. split_and!; try done; tauto.
Qed.

(** X6.  Conflicts are mutual: a cell is reported for another exactly
    when the other is reported for it. *)
Theorem conflicts_mutual (s : Sudoku) (row col i j : Z) :
  (In j (GetRowConflicts s row col) ↔ In col (GetRowConflicts s row j)) ∧
  (In i (GetColConflicts s row col) ↔ In row (GetColConflicts s i col)) ∧
  (In (i, j) (GetBoxConflicts s row col) ↔ In (row, col) (GetBoxConflicts s i j)).
Proof.
  rewrite !in_GetRowConflicts, !in_GetColConflicts, !in_GetBoxConflicts.
  unfold inb. split_and!; split; intros; split_and!; lia.
Qed.

(** X7.  On a valid 9x9 board, for a position and a value in range,
    [IsValidMove] tells whether the board is still valid once
    [SetCell] has written the value; and [ClearCell] keeps a valid
    board valid. *)
Theorem IsValidMove_predicts_IsValid (s : Sudoku) (row col value : Z) :
  wf s → IsValid s = true →
  (inb row col → 0 ≤ value ≤ 9 →
     (IsValidMove s row col value).1 = IsValid (SetCell s row col value).2) ∧
  IsValid (ClearCell s row col).2 = true.
Proof.
  intros Hwf Hvalid. apply IsValid_spec in Hvalid.
  assert (∀ r c, inb r c → valid_spec (store s r c 0)) as Hclear.
  { intros r c Hrc. apply (valid_spec_cleared _ s); [|done]. intros i j Hij.
    destruct (decide (i = r ∧ j = c)) as [[-> ->]|Hne].
    - left. by apply cell_store_eq.
    - right. apply cell_store_ne; [done..|lia]. }
  split.
  - intros Hin Hv. unfold SetCell.
    assert (isValidPosition row col = true) as -> by by apply isValidPosition_true.
    assert (isValidValue value = true) as -> by by apply isValidValue_true.
    simpl. destruct (decide (value = 0)) as [->|Hnz].
    + rewrite (proj2 (IsValid_spec _) (Hclear row col Hin)).
      unfold IsValidMove. by apply isValidPosition_true in Hin as ->.
    + destruct (IsValidMove s row col value).1 eqn:Hmove; symmetry.
      * apply IsValid_spec, valid_spec_store; try done.
        apply IsValidMove_spec; [done|lia|done].
      * apply not_true_is_false. intros Hafter. apply IsValid_spec in Hafter.
        assert ((IsValidMove s row col value).1 = true) as Htrue; [|congruence].
        apply IsValidMove_spec; [done|lia|]. intros i j Hij Hp Heq.
        apply (Hafter row col i j Hin Hij Hp).
        -- by rewrite cell_store_eq.
        -- rewrite cell_store_eq by done. rewrite cell_store_ne; [done..|apply Hp].
  - unfold ClearCell. destruct (isValidPosition row col) eqn:Hpos; simpl.
    + apply IsValid_spec, Hclear. by apply isValidPosition_true.
    + by apply IsValid_spec.
Qed.

Lemma IsValidMove_predicts_IsValid_witness :
  wf (NewSudokuWithPuzzle GetSamplePuzzle) ∧
  IsValid (NewSudokuWithPuzzle GetSamplePuzzle) = true ∧
  (IsValidMove (NewSudokuWithPuzzle GetSamplePuzzle) 0 2 5).1 =
    IsValid (SetCell (NewSudokuWithPuzzle GetSamplePuzzle) 0 2 5).2.
Proof.
  assert (IsValid (NewSudokuWithPuzzle GetSamplePuzzle) = true) as Hv
    by (vm_compute; reflexivity).
  split; [apply wf_sample_puzzle|]. split; [exact Hv|].
  apply (IsValidMove_predicts_IsValid (NewSudokuWithPuzzle GetSamplePuzzle) 0 2 5
           wf_sample_puzzle Hv); unfold inb; lia.
Defined.

(** X8.  [CountEmptyCells] is between 0 and 81; it is 0 exactly when no
    cell is empty, so on every complete board; filling an empty cell
    lowers it by one and clearing a filled cell raises it by one. *)
Theorem CountEmptyCells_facts (s : Sudoku) (r c v : Z) :
  0 ≤ CountEmptyCells s ≤ 81 ∧
  (CountEmptyCells s = 0 ↔ full s) ∧
  (IsComplete s = true → CountEmptyCells s = 0) ∧
  (wf s → inb r c → cell s r c = 0 → 1 ≤ v ≤ 9 →
     CountEmptyCells (SetCell s r c v).2 = CountEmptyCells s - 1) ∧
  (wf s → inb r c → cell s r c ≠ 0 →
     CountEmptyCells (ClearCell s r c).2 = CountEmptyCells s + 1).
Proof.
  rewrite !CountEmptyCells_countEmpty. pose proof (countEmpty_le s) as Hle.
  split; [lia|]. split; [|split; [|split]].
  - rewrite <- countEmpty_zero_full. lia.
  - intros [Hfull _]%IsComplete_spec. apply countEmpty_zero_full in Hfull. lia.
  - intros Hwf Hin Hz Hv. unfold SetCell.
    assert (isValidPosition r c = true) as -> by by apply isValidPosition_true.
    assert (isValidValue v = true) as -> by (apply isValidValue_true; lia).
    simpl. pose proof (countEmpty_fill s r c v Hwf Hin Hz ltac:(lia)). lia.
  - intros Hwf Hin Hnz. unfold ClearCell.
    assert (isValidPosition r c = true) as -> by by apply isValidPosition_true.
    simpl. rewrite countEmpty_clear by done. lia.
Qed.

Lemma CountEmptyCells_facts_witness :
  CountEmptyCells (SetCell (NewSudokuWithPuzzle GetSamplePuzzle) 0 2 4).2 =
  CountEmptyCells (NewSudokuWithPuzzle GetSamplePuzzle) - 1.
Proof.
  apply (CountEmptyCells_facts (NewSudokuWithPuzzle GetSamplePuzzle) 0 2 4);
    [apply wf_sample_puzzle|unfold inb; lia|reflexivity|lia].
Defined.

(** ** More on the generator *)

Lemma first_some_first {A B : Type} (f : A → option B) (l : list A) (y : B) :
  first_some f l = Some y →
  ∃ i x, l !! i = Some x ∧ f x = Some y ∧
    ∀ i' x', (i' < i)%nat → l !! i' = Some x' → f x' = None.
Proof.
  induction l as [|x l IH]; simpl; [done|].
  destruct (f x) as [y'|] eqn:E.
  - intros [= <-]. exists 0%nat, x. split_and!; [done..|]. intros i' x' Hlt. lia.
  - intros (i & x0 & Hi & Hf & Hbefore)%IH. exists (S i), x0. split_and!; [done..|].
    intros [|i'] x' Hlt; simpl; [by intros [= <-]|]. apply Hbefore. lia.
Qed.

Lemma first_range_first {B : Type} (lo n : Z) (f : Z → option B) (y : B) :
  first_range lo n f = Some y →
  ∃ k, lo ≤ k < lo + n ∧ f k = Some y ∧ ∀ k', lo ≤ k' < k → f k' = None.
Proof.
  intros (i & x & Hi & Hf & Hbefore)%first_some_first.
  apply lookup_seqZ in Hi as [-> Hi]. exists (lo + Z.of_nat i). split_and!; [lia..|done|].
  intros k' Hk'. apply (Hbefore (Z.to_nat (k' - lo))); [lia|].
  apply lookup_seqZ. lia.
Qed.

(** X9.  [findEmptyCell] returns the first empty cell in reading order:
    every cell before it is filled; it returns (-1, -1) exactly when no
    cell is empty. *)
Theorem findEmptyCell_first (s : Sudoku) :
  (findEmptyCell s = (-1, -1) ↔ full s) ∧
  ∀ row col, findEmptyCell s = (row, col) → row ≠ -1 →
    inb row col ∧ cell s row col = 0 ∧
    ∀ i j, inb i j → i < row ∨ (i = row ∧ j < col) → cell s i j ≠ 0.
Proof.
  split.
  - split; [intros H; by apply (findEmptyCell_none s (-1) (-1))|].
    intros Hfull. destruct (findEmptyCell s) as [row col] eqn:Hfind.
    destruct (decide (row = -1)) as [->|Hne].
    + unfold findEmptyCell in Hfind. destruct (first_range _ _ _) as [[r c]|] eqn:E; [|done].
      injection Hfind as -> ->.
      apply first_range_first in E as (i & Hi & E & _).
      apply first_range_first in E as (j & Hj & E & _).
      destruct (IsEmpty s i j); [|done]. injection E as E _. lia.
    + destruct (findEmptyCell_found s row col Hfind Hne) as [Hin Hz].
      by destruct (Hfull row col Hin).
  - intros row col Hfind Hne.
    destruct (findEmptyCell_found s row col Hfind Hne) as [Hin Hz].
    split_and!; [done..|]. intros i j [Hi Hj] Hbefore.
    unfold findEmptyCell in Hfind. destruct (first_range _ _ _) as [[r c]|] eqn:E;
      [|injection Hfind as <- _; done].
    injection Hfind as -> ->.
    apply first_range_first in E as (i0 & Hi0 & E & Hrows).
    pose proof E as E0.
    apply first_range_first in E as (j0 & Hj0 & E & Hcols).
    destruct (IsEmpty s i0 j0) eqn:Hemp; [|done]. injection E as -> ->.
    assert (IsEmpty s i j = false) as Hfilled.
    { destruct Hbefore as [Hlt|[-> Hlt]].
      - specialize (Hrows i ltac:(lia)).
        destruct (first_range 0 9 (λ j, if IsEmpty s i j then Some (i, j) else None))
          as [p|] eqn:Ei; [done|].
        pose proof (first_some_None _ _ Ei j ltac:(apply elem_of_seqZ; lia)) as Hj'.
        simpl in Hj'. by destruct (IsEmpty s i j).
      - specialize (Hcols j ltac:(lia)). simpl in Hcols. by destruct (IsEmpty s row j). }
    rewrite IsEmpty_inb in Hfilled by (unfold inb; lia). lia.
Qed.

Lemma findEmptyCell_first_witness :
  findEmptyCell (NewSudokuWithPuzzle GetSamplePuzzle) = (0, 2) ∧
  inb 0 2 ∧ cell (NewSudokuWithPuzzle GetSamplePuzzle) 0 2 = 0 ∧
  ∀ i j, inb i j → i < 0 ∨ (i = 0 ∧ j < 2) →
    cell (NewSudokuWithPuzzle GetSamplePuzzle) i j ≠ 0.
Proof.
  assert (findEmptyCell (NewSudokuWithPuzzle GetSamplePuzzle) = (0, 2)) as Hf
    by reflexivity.
  split; [exact Hf|].
  apply (proj2 (findEmptyCell_first (NewSudokuWithPuzzle GetSamplePuzzle)) 0 2 Hf). lia.
Defined.

Lemma filter_length_Permutation {A : Type} (f : A → bool) (l k : list A) :
  l ≡ₚ k → length (List.filter f l) = length (List.filter f k).
Proof.
  induction 1 as [|x l k _ IH|x y l|l k m _ IH1 _ IH2]; simpl.
  - done.
  - destruct (f x); simpl; by rewrite IH.
  - destruct (f x), (f y); done.
  - by rewrite IH1.
Qed.

Lemma filter_length_split {A : Type} (f : A → bool) (l : list A) :
  (length (List.filter f l) + length (List.filter (λ x, negb (f x)) l) = length l)%nat.
Proof. induction l as [|x l IH]; simpl; [done|]. destruct (f x); simpl; lia. Qed.

Lemma removeLoop_done ps n removed puzzle :
  n ≤ removed → removeLoop ps n removed puzzle = puzzle.
Proof.
  intros Hle. destruct ps as [|[row col] ps]; simpl; [done|].
  by assert ((removed >=? n) = true) as -> by lia.
Qed.

(** The removal loop on any board: it clears filled cells of the list,
    in order, until the count is reached or the list ends. *)
Lemma removeLoop_general (n : Z) (ps : list (Z * Z)) :
  NoDup ps → (∀ p, p ∈ ps → inb p.1 p.2) →
  ∀ removed puzzle, wf puzzle →
    let p' := removeLoop ps n removed puzzle in
    wf p' ∧
    (∀ r c, inb r c → cell p' r c = 0 ∨ cell p' r c = cell puzzle r c) ∧
    Z.of_nat (countEmpty p') =
      Z.of_nat (countEmpty puzzle) +
      Z.min (Z.of_nat (length (List.filter (λ q, negb (emptyb puzzle q)) ps)))
            (Z.max 0 (n - removed)).
Proof.
  intros Hnd. induction Hnd as [|[row col] ps Hnin Hnd IH];
    intros Hps removed puzzle Hwf; cbn [removeLoop].
  - split_and!; [done|by right|simpl; lia].
  - destruct (removed >=? n) eqn:Hge.
    { split_and!; [done|by right|lia]. }
    assert (inb row col) as Hin by (apply (Hps (row, col)); by left).
    assert (∀ p, p ∈ ps → inb p.1 p.2) as Hps' by (intros p Hp; apply Hps; by right).
    rewrite IsEmpty_inb by done. cbn [List.filter].
    change (emptyb puzzle (row, col)) with (cell puzzle row col =? 0).
    destruct (cell puzzle row col =? 0) eqn:Hz; cbn [negb].
    + destruct (IH Hps' removed puzzle Hwf) as (Hwf' & Hcell & Hcount). done.
    + assert (ClearCell puzzle row col = (true, store puzzle row col 0)) as ->.
      { unfold ClearCell. by apply isValidPosition_true in Hin as ->. }
      cbn [snd].
      destruct (IH Hps' (removed + 1) (store puzzle row col 0) (wf_store _ _ _ _ Hwf))
        as (Hwf' & Hcell & Hcount).
      assert (List.filter (λ q, negb (emptyb (store puzzle row col 0) q)) ps
              = List.filter (λ q, negb (emptyb puzzle q)) ps) as Hsame.
      { apply filter_ext_in. intros [r c] Hp%list_elem_of_In. unfold emptyb; simpl.
        rewrite cell_store_ne; [done|done|by apply (Hps' (r, c))|].
        destruct (decide (r = row)) as [->|]; [right|by left]. congruence. }
      rewrite Hsame in Hcount.
      split_and!; [done| |].
      * intros r c Hrc. destruct (Hcell r c Hrc) as [H0|Hs]; [by left|].
        destruct (decide (r = row ∧ c = col)) as [[-> ->]|Hne].
        -- left. rewrite Hs. by apply cell_store_eq.
        -- right. rewrite Hs. apply cell_store_ne; [done..|lia].
      * rewrite Hcount, countEmpty_clear by (done || lia). cbn [length]. lia.
Qed.

Lemma digits_sample_puzzle : digits (NewSudokuWithPuzzle GetSamplePuzzle).
Proof.
  intros r c Hrc.
  assert (all_range 0 9 (λ i, all_range 0 9 (λ j,
            (0 <=? cell (NewSudokuWithPuzzle GetSamplePuzzle) i j)
            && (cell (NewSudokuWithPuzzle GetSamplePuzzle) i j <=? 9))) = true) as H
    by (vm_compute; reflexivity).
  rewrite all_cells_spec in H. specialize (H r c Hrc). lia.
Qed.

Lemma solved_of_full s :
  wf s → full s → digits s → valid_spec s → solved s.
Proof.
  intros Hwf Hfull Hdig Hvalid. split_and!; [done..|].
  intros r c Hrc. specialize (Hfull r c Hrc). specialize (Hdig r c Hrc). lia.
Qed.

Lemma countEmpty_filled s :
  (countEmpty s + length (List.filter (λ q, negb (emptyb s q)) positions) = 81)%nat.
Proof. unfold countEmpty. rewrite filter_length_split. apply length_positions. Qed.

Section GeneratorExtras.
Context {Rand : Type}.
Variable Intn : Rand → Z → Z * Rand.
Hypothesis Intn_range : ∀ g n, 0 < n → 0 ≤ (Intn g n).1 < n.

(** X10.  [getRandomNumbers] returns the numbers 1 to 9, each once, in
    some order, and [shufflePositions] returns its argument
    rearranged: nothing is lost or repeated. *)
Theorem shuffles_are_permutations (g : Rand) (ps : list (Z * Z)) :
  (getRandomNumbers Intn g).1 ≡ₚ [1; 2; 3; 4; 5; 6; 7; 8; 9] ∧
  (shufflePositions Intn ps g).1 ≡ₚ ps.
Proof using Intn_range.
  split.
  - apply (getRandomNumbers_Permutation Intn Intn_range g).
  - apply (shufflePositions_Permutation Intn Intn_range).
Qed.

Lemma removeCells_general g complete n :
  wf complete →
  let p := (removeCells Intn g complete n).1 in
  wf p ∧
  (∀ r c, inb r c → cell p r c = 0 ∨ cell p r c = cell complete r c) ∧
  CountEmptyCells p = Z.min 81 (CountEmptyCells complete + Z.max 0 n) ∧
  (n ≤ 0 → ∀ r c, inb r c → cell p r c = cell complete r c).
Proof using Intn_range.
  intros Hwf. unfold removeCells.
  destruct (copy_spec complete) as [Hwfc Hcopy].
  set (puzzle := fold_left _ positions NewSudoku) in *.
  pose proof (shufflePositions_Permutation Intn Intn_range positions g) as Hperm.
  destruct (shufflePositions Intn positions g) as [shuffled g']. simpl in Hperm. simpl.
  assert (∀ p, p ∈ shuffled → inb p.1 p.2) as Hin.
  { intros [r c] Hp. rewrite Hperm in Hp. by apply list_elem_of_In, in_positions in Hp. }
  assert (NoDup shuffled) as Hnd by (rewrite Hperm; apply NoDup_positions).
  destruct (removeLoop_general n shuffled Hnd Hin 0 puzzle Hwfc) as (Hwf' & Hcell & Hcount).
  assert (countEmpty puzzle = countEmpty complete) as Hsame.
  { unfold countEmpty.
    rewrite (filter_ext_in (emptyb puzzle) (emptyb complete) positions); [done|].
    intros [r c] Hp%in_positions. unfold emptyb; simpl. by rewrite Hcopy. }
  split_and!; [done| | |].
  - intros r c Hrc. destruct (Hcell r c Hrc) as [?|Hs]; [by left|right].
    by rewrite Hs, Hcopy.
  - rewrite !CountEmptyCells_countEmpty, Hcount, Hsame.
    rewrite (filter_length_Permutation _ _ _ Hperm).
    pose proof (countEmpty_filled puzzle) as Hsplit. rewrite Hsame in Hsplit. lia.
  - intros Hn r c Hrc. rewrite removeLoop_done by lia. by apply Hcopy.
Qed.

(** X11.  [removeCells] on any 9x9 board: it only clears cells; the
    number of empty cells grows by the count asked for, or up to 81
    when fewer filled cells are left; a count of 0 or less changes
    nothing; and a valid board stays valid. *)
Theorem removeCells_on_any_board (g : Rand) (complete : Sudoku) (n : Z) :
  wf complete →
  wf (removeCells Intn g complete n).1 ∧
  (∀ r c, inb r c →
     cell (removeCells Intn g complete n).1 r c = 0 ∨
     cell (removeCells Intn g complete n).1 r c = cell complete r c) ∧
  CountEmptyCells (removeCells Intn g complete n).1 =
    Z.min 81 (CountEmptyCells complete + Z.max 0 n) ∧
  (n ≤ 0 → ∀ r c, inb r c → cell (removeCells Intn g complete n).1 r c = cell complete r c) ∧
  (IsValid complete = true → IsValid (removeCells Intn g complete n).1 = true).
Proof using Intn_range.
  intros Hwf. destruct (removeCells_general g complete n Hwf) as (H1 & H2 & H3 & H4).
  split_and!; [done..|].
  intros Hvalid%IsValid_spec. apply IsValid_spec. by apply (valid_spec_cleared _ complete).
Qed.

(** X12.  [fillBoard] is a solver.  On a valid 9x9 board of digits it
    returns [true] exactly when the board can be completed to a Sudoku
    solution; then the board it leaves is complete and keeps every
    cell that was filled; on [false] the board is the one it was given. *)
Theorem fillBoard_solves (fuel : nat) (g : Rand) (s : Sudoku) :
  wf s → digits s → IsValid s = true → (countEmpty s < fuel)%nat →
  ∃ ok s' g', fillBoard Intn fuel g s = Some (ok, s', g') ∧
    (ok = true ↔ solvable s) ∧
    (ok = true → IsComplete s' = true ∧ extends s s' ∧ digits s') ∧
    (ok = false → s' = s).
Proof using Intn_range.
  intros Hwf Hdig Hvalid%IsValid_spec Hfuel.
  destruct (fillBoard_spec Intn Intn_range fuel g s Hwf Hfuel) as ([[ok s'] g'] & Hfill & Hpost).
  exists ok, s', g'. split; [done|]. unfold fill_post in Hpost; simpl in Hpost.
  destruct ok.
  - destruct Hpost as (Hwf' & Hfull & Hext & Hnew & Hval).
    assert (digits s') as Hdig'.
    { intros r c Hrc. destruct (decide (cell s r c = 0)) as [Hz|Hnz].
      - specialize (Hnew r c Hrc Hz). lia.
      - rewrite Hext by done. by apply Hdig. }
    split_and!; [|intros _|done].
    + split; [intros _|done]. exists s'. split; [|done].
      apply solved_of_full; auto.
    + split_and!; [|done..]. apply IsComplete_spec. split; [done|]. apply IsValid_spec. auto.
  - destruct Hpost as [-> Hno]. split_and!; [split; done|done|done].
Qed.

(** X13.  Whatever the difficulty or the ratio, a generated puzzle is a
    9x9 board of digits on which [IsValid] holds, and it has a
    solution: the complete board it was cut from. *)
Theorem generated_puzzles_valid_solvable (g : Rand) :
  (∀ d, ∃ puzzle g', GeneratePuzzle Intn g d = Some (puzzle, g') ∧
     wf puzzle ∧ digits puzzle ∧ IsValid puzzle = true ∧ solvable puzzle) ∧
  (∀ ratio, ∃ puzzle g', GeneratePuzzleWithEmptyRatio Intn g ratio = Some (puzzle, g') ∧
     wf puzzle ∧ digits puzzle ∧ IsValid puzzle = true ∧ solvable puzzle).
Proof using Intn_range.
  destruct (GenerateComplete_spec Intn Intn_range g)
    as (complete & g1 & Hgen & Hwf & Hfull & Hvalid & Hrange).
  assert (∀ p, wf p → (∀ r c, inb r c → cell p r c = 0 ∨ cell p r c = cell complete r c) →
            wf p ∧ digits p ∧ IsValid p = true ∧ solvable p) as Hcut.
  { intros p Hwfp Hcell. split_and!; [done| | |].
    - intros r c Hrc. specialize (Hrange r c Hrc). destruct (Hcell r c Hrc); lia.
    - apply IsValid_spec. by apply (valid_spec_cleared _ complete).
    - exists complete. split; [done|]. intros r c Hrc Hnz. destruct (Hcell r c Hrc); [done|].
      congruence. }
  split.
  - intros d. unfold GeneratePuzzle. rewrite Hgen.
    destruct (createPuzzle_spec Intn Intn_range g1 complete d Hwf Hfull) as (Hwfp & Hcell & _).
    destruct (createPuzzle Intn g1 complete d) as [puzzle g2]. simpl in *.
    exists puzzle, g2. split; [done|]. by apply Hcut.
  - intros ratio. unfold GeneratePuzzleWithEmptyRatio. rewrite Hgen.
    destruct (removeCells_general g1 complete
                (Float64.cellsToRemove (Float64.clamp01 ratio)) Hwf) as (Hwfp & Hcell & _).
    destruct (removeCells Intn g1 complete _) as [puzzle g2]. simpl in *.
    exists puzzle, g2. split; [done|]. by apply Hcut.
Qed.

(** X14.  The generator solves its own puzzles: on a puzzle from
    [GeneratePuzzle], [fillBoard], from any state of the random
    source, returns [true] with a complete board that keeps the clues. *)
Theorem fillBoard_solves_generated (g gs : Rand) (d : Difficulty) :
  ∃ puzzle g' s' gs',
    GeneratePuzzle Intn g d = Some (puzzle, g') ∧
    fillBoard Intn maxDepth gs puzzle = Some (true, s', gs') ∧
    IsComplete s' = true ∧ extends puzzle s'.
Proof using Intn_range.
  destruct (GenerateComplete_spec Intn Intn_range g)
    as (complete & g1 & Hgen & Hwf & Hfull & Hvalid & Hrange).
  unfold GeneratePuzzle. rewrite Hgen.
  destruct (createPuzzle_spec Intn Intn_range g1 complete d Hwf Hfull) as (Hwfp & Hcell & _).
  destruct (createPuzzle Intn g1 complete d) as [puzzle g2]. simpl in *.
  destruct (fillBoard_spec Intn Intn_range maxDepth gs puzzle Hwfp)
    as ([[ok s'] gs'] & Hfill & Hpost).
  { pose proof (countEmpty_le puzzle). unfold maxDepth. lia. }
  unfold fill_post in Hpost; simpl in Hpost. destruct ok.
  - destruct Hpost as (Hwf' & Hfull' & Hext & _ & Hval).
    exists puzzle, g2, s', gs'. split_and!; [done..| |done].
    apply IsComplete_spec. split; [done|]. apply IsValid_spec, Hval.
    by apply (valid_spec_cleared _ complete).
  - destruct Hpost as [_ Hno]. destruct Hno. exists complete. split.
    + by split_and!.
    + intros r c Hrc Hnz. destruct (Hcell r c Hrc); [done|]. congruence.
Qed.
End GeneratorExtras.

Lemma shuffles_are_permutations_witness :
  (getRandomNumbers Lcg.Intn (Lcg.NewSource 42)).1 ≡ₚ [1; 2; 3; 4; 5; 6; 7; 8; 9] ∧
  (shufflePositions Lcg.Intn [(0, 0); (0, 1); (1, 0)] (Lcg.NewSource 42)).1
    ≡ₚ [(0, 0); (0, 1); (1, 0)].
Proof.
  exact (shuffles_are_permutations Lcg.Intn Lcg_Intn_range (Lcg.NewSource 42)
           [(0, 0); (0, 1); (1, 0)]).
Defined.

Lemma removeCells_on_any_board_witness :
  CountEmptyCells (removeCells Lcg.Intn (Lcg.NewSource 42)
                     (NewSudokuWithPuzzle GetSamplePuzzle) 10).1 =
  Z.min 81 (CountEmptyCells (NewSudokuWithPuzzle GetSamplePuzzle) + Z.max 0 10).
Proof.
  destruct (removeCells_on_any_board Lcg.Intn Lcg_Intn_range (Lcg.NewSource 42)
              (NewSudokuWithPuzzle GetSamplePuzzle) 10 wf_sample_puzzle)
    as (_ & _ & H & _).
  exact H.
Defined.

Lemma fillBoard_solves_witness :
  ∃ ok s' g', fillBoard Lcg.Intn 82 (Lcg.NewSource 42)
                (NewSudokuWithPuzzle GetSamplePuzzle) = Some (ok, s', g') ∧
    (ok = true ↔ solvable (NewSudokuWithPuzzle GetSamplePuzzle)) ∧
    (ok = true → IsComplete s' = true ∧
       extends (NewSudokuWithPuzzle GetSamplePuzzle) s' ∧ digits s') ∧
    (ok = false → s' = NewSudokuWithPuzzle GetSamplePuzzle).
Proof.
  apply (fillBoard_solves Lcg.Intn Lcg_Intn_range 82 (Lcg.NewSource 42)
           (NewSudokuWithPuzzle GetSamplePuzzle) wf_sample_puzzle digits_sample_puzzle).
  - vm_compute. reflexivity.
  - vm_compute. lia.
Defined.

Lemma generated_puzzles_valid_solvable_witness :
  ∃ puzzle g', GeneratePuzzle Lcg.Intn (Lcg.NewSource 42) Expert = Some (puzzle, g') ∧
    wf puzzle ∧ digits puzzle ∧ IsValid puzzle = true ∧ solvable puzzle.
Proof.
  exact (proj1 (generated_puzzles_valid_solvable Lcg.Intn Lcg_Intn_range (Lcg.NewSource 42))
           Expert).
Defined.

Lemma fillBoard_solves_generated_witness :
  ∃ puzzle g' s' gs',
    GeneratePuzzle Lcg.Intn (Lcg.NewSource 42) Medium = Some (puzzle, g') ∧
    fillBoard Lcg.Intn maxDepth (Lcg.NewSource 7) puzzle = Some (true, s', gs') ∧
    IsComplete s' = true ∧ extends puzzle s'.
Proof.
  exact (fillBoard_solves_generated Lcg.Intn Lcg_Intn_range (Lcg.NewSource 42)
           (Lcg.NewSource 7) Medium).
Defined.

(** ** Ratios and names *)

Lemma count_cases (P : Z → bool) :
  forallb P (seqZ 0 82) = true → ∀ s, P (CountEmptyCells s) = true.
Proof.
  intros H s. rewrite forallb_forall in H. apply H.
  apply list_elem_of_In, elem_of_seqZ.
  rewrite CountEmptyCells_countEmpty. pose proof (countEmpty_le s). lia.
Qed.

(** X15.  The difficulty that [GetDifficultyFromEmptyRatio] gives to the
    empty ratio of a board depends on its number of empty cells alone:
    Easy up to 36, Medium up to 48, Hard up to 60, Expert above. *)
Theorem difficulty_by_empty_count (s : Sudoku) :
  Ratio.GetDifficultyFromEmptyRatio (Ratio.GetEmptyRatio s) =
  classOfCount (CountEmptyCells s).
Proof.
  unfold Ratio.GetEmptyRatio.
  pose proof (count_cases
    (λ n, Ratio.GetDifficultyFromEmptyRatio (PrimFloat.div (Ratio.ofInt n) Float64.totalCells)
          =? classOfCount n)) as H.
  specialize (H ltac:(vm_compute; reflexivity) s). cbv beta in H.
  by apply Z.eqb_eq in H.
Qed.

(** X16.  [GetEmptyRatio] and [GetFilledRatio] stay between 0.0 and
    1.0; a board with more empty cells has a strictly larger empty
    ratio and a strictly smaller filled ratio. *)
Theorem ratios_follow_count (s1 s2 : Sudoku) :
  PrimFloat.leb Float64.zero (Ratio.GetEmptyRatio s1) = true ∧
  PrimFloat.leb (Ratio.GetEmptyRatio s1) Float64.one = true ∧
  PrimFloat.leb Float64.zero (Ratio.GetFilledRatio s1) = true ∧
  PrimFloat.leb (Ratio.GetFilledRatio s1) Float64.one = true ∧
  (CountEmptyCells s1 < CountEmptyCells s2 →
     PrimFloat.ltb (Ratio.GetEmptyRatio s1) (Ratio.GetEmptyRatio s2) = true ∧
     PrimFloat.ltb (Ratio.GetFilledRatio s2) (Ratio.GetFilledRatio s1) = true).
Proof.
  unfold Ratio.GetFilledRatio, Ratio.GetEmptyRatio.
  set (e := λ n, PrimFloat.div (Ratio.ofInt n) Float64.totalCells).
  set (f := λ n, PrimFloat.sub Float64.one (e n)).
  change (PrimFloat.leb Float64.zero (e (CountEmptyCells s1)) = true ∧
          PrimFloat.leb (e (CountEmptyCells s1)) Float64.one = true ∧
          PrimFloat.leb Float64.zero (f (CountEmptyCells s1)) = true ∧
          PrimFloat.leb (f (CountEmptyCells s1)) Float64.one = true ∧
          (CountEmptyCells s1 < CountEmptyCells s2 →
           PrimFloat.ltb (e (CountEmptyCells s1)) (e (CountEmptyCells s2)) = true ∧
           PrimFloat.ltb (f (CountEmptyCells s2)) (f (CountEmptyCells s1)) = true)).
  pose proof (count_cases (λ n, PrimFloat.leb Float64.zero (e n) && PrimFloat.leb (e n) Float64.one
                                && PrimFloat.leb Float64.zero (f n) && PrimFloat.leb (f n) Float64.one)
                ltac:(vm_compute; reflexivity) s1) as Hrange.
  cbv beta in Hrange. repeat (apply andb_true_iff in Hrange as [Hrange ?]).
  split_and!; [done..|]. intros Hlt.
  pose proof (count_cases (λ n, forallb (λ m, negb (n <? m) ||
                 (PrimFloat.ltb (e n) (e m) && PrimFloat.ltb (f m) (f n))) (seqZ 0 82))
                ltac:(vm_compute; reflexivity) s1) as Hmono.
  cbv beta in Hmono. rewrite forallb_forall in Hmono.
  specialize (Hmono (CountEmptyCells s2)).
  assert (In (CountEmptyCells s2) (seqZ 0 82)) as Hin.
  { apply list_elem_of_In, elem_of_seqZ.
    rewrite CountEmptyCells_countEmpty. pose proof (countEmpty_le s2). lia. }
  specialize (Hmono Hin). apply orb_true_iff in Hmono as [Hmono|Hmono]; [lia|].
  by apply andb_true_iff in Hmono.
Qed.

Lemma ratios_follow_count_witness :
  PrimFloat.ltb (Ratio.GetEmptyRatio (NewSudokuWithPuzzle GetSampleSolution))
                (Ratio.GetEmptyRatio (NewSudokuWithPuzzle GetSamplePuzzle)) = true ∧
  PrimFloat.ltb (Ratio.GetFilledRatio (NewSudokuWithPuzzle GetSamplePuzzle))
                (Ratio.GetFilledRatio (NewSudokuWithPuzzle GetSampleSolution)) = true.
Proof.
  apply (ratios_follow_count (NewSudokuWithPuzzle GetSampleSolution)
           (NewSudokuWithPuzzle GetSamplePuzzle)).
  vm_compute. reflexivity.
Defined.

(** X17.  [GetDifficultyName] gives the four difficulties four
    different names and every other value the name Unknown; the
    difficulty of a ratio always has one of the four names, also when
    the ratio is not a number. *)
Theorem GetDifficultyName_distinct (d1 d2 : Difficulty) (ratio : PrimFloat.float) :
  (Name.GetDifficultyName d1 = Name.GetDifficultyName d2 →
     d1 = d2 ∨ (¬ 0 ≤ d1 ≤ 3 ∧ ¬ 0 ≤ d2 ≤ 3)) ∧
  (Name.GetDifficultyName d1 = Name.unknown ↔ ¬ 0 ≤ d1 ≤ 3) ∧
  Name.GetDifficultyName (Ratio.GetDifficultyFromEmptyRatio ratio) ≠ Name.unknown.
Proof.
  unfold Name.GetDifficultyName, Ratio.GetDifficultyFromEmptyRatio, Easy, Medium, Hard, Expert.
  split_and!.
  - destruct (d1 =? 0) eqn:?, (d1 =? 1) eqn:?, (d1 =? 2) eqn:?, (d1 =? 3) eqn:?,
             (d2 =? 0) eqn:?, (d2 =? 1) eqn:?, (d2 =? 2) eqn:?, (d2 =? 3) eqn:?;
      intros Heq; try discriminate Heq; lia.
  - destruct (d1 =? 0) eqn:?, (d1 =? 1) eqn:?, (d1 =? 2) eqn:?, (d1 =? 3) eqn:?;
      split; intros Heq; try discriminate Heq; try reflexivity; lia.
  - destruct (PrimFloat.leb ratio Ratio.t45), (PrimFloat.leb ratio Ratio.t60),
             (PrimFloat.leb ratio Ratio.t75); discriminate.
Qed.

(** ** The web front end *)

Lemma withSudoku_same (w : Web.WebUI) : Web.withSudoku w (Web.sudoku w) = w.
Proof. by destruct w. Qed.

Lemma copyBoard_spec puzzle :
  wf (Web.copyBoard puzzle) ∧ ∀ r c, inb r c → cell (Web.copyBoard puzzle) r c = cell puzzle r c.
Proof. unfold Web.copyBoard. exact (copy_spec puzzle). Qed.

Lemma IsValidMove_cleared s row col :
  wf s → inb row col → 1 ≤ cell s row col ≤ 9 →
  (IsValidMove (store s row col 0) row col (cell s row col)).1 = false ↔
  conflicting s row col.
Proof.
  intros Hwf Hin Hv. split.
  - intros Hfalse. split; [lia|].
    destruct (decide (Exists (λ p, peer row col p.1 p.2 ∧ cell s p.1 p.2 = cell s row col)
                        positions)) as [Hsome|Hnone].
    + apply Exists_exists in Hsome as ([i j] & Hp & Hpeer & Hcell).
      exists i, j. split; [|done]. by apply in_positions in Hp.
    + assert ((IsValidMove (store s row col 0) row col (cell s row col)).1 = true) as Htrue;
        [|congruence].
      apply IsValidMove_spec; [done..|]. intros i j Hij Hpeer Hcell.
      rewrite cell_store_ne in Hcell by (done || apply Hpeer).
      apply Hnone, Exists_exists. exists (i, j). split; [|done]. by apply in_positions.
  - intros (_ & i & j & Hij & Hpeer & Hcell). apply not_true_is_false. intros Htrue.
    rewrite IsValidMove_spec in Htrue by done. apply (Htrue i j Hij Hpeer).
    rewrite cell_store_ne by (done || apply Hpeer). done.
Qed.

Section WebFacts.
Variable present : Z → Z → bool.

Lemma updateCell_digits w row col :
  wf (Web.sudoku w) → digits (Web.sudoku w) → inb row col →
  (Web.updateCell present w row col).1 = w ∧
  match (Web.updateCell present w row col).2 with
  | Some v => Web.viewRow v = row ∧ Web.viewCol v = col ∧ view_ok present w v
  | None => present row col = false
  end.
Proof.
  intros Hwf Hdig Hin. unfold Web.updateCell.
  destruct (present row col) eqn:Hpres; cbn [negb]; [|done].
  rewrite !GetCell_inb by done. cbv zeta.
  pose proof (Hdig row col Hin) as Hv.
  destruct (cell (Web.sudoku w) row col =? 0) eqn:Hz; cbn [negb].
  - rewrite withSudoku_same. split; [done|]. cbn. split_and!; try done.
    unfold view_ok; cbn.
    split; [done|]. split; [done|]. split; [done|]. split; [lia|].
    split; [lia|]. split; [lia|]. split; [done|]. intros [Hnz _]. lia.
  - assert (ClearCell (Web.sudoku w) row col = (true, store (Web.sudoku w) row col 0)) as ->.
    { unfold ClearCell. by apply isValidPosition_true in Hin as ->. }
    cbn [snd].
    pose proof (IsValidMove_board (store (Web.sudoku w) row col 0) row col
                  (cell (Web.sudoku w) row col)) as Hb.
    pose proof (IsValidMove_cleared (Web.sudoku w) row col Hwf Hin ltac:(lia)) as Hconf.
    destruct (IsValidMove (store (Web.sudoku w) row col 0) row col
                (cell (Web.sudoku w) row col)) as [isValid s2].
    cbn [fst snd] in Hb, Hconf. subst s2.
    assert (SetCell (store (Web.sudoku w) row col 0) row col (cell (Web.sudoku w) row col)
            = (true, Web.sudoku w)) as ->.
    { unfold SetCell. apply isValidPosition_true in Hin as ->.
      assert (isValidValue (cell (Web.sudoku w) row col) = true) as ->
        by (apply isValidValue_true; lia).
      cbn. by rewrite store_restore. }
    cbn [snd]. rewrite withSudoku_same. split; [done|]. cbn. split_and!; try done.
    unfold view_ok; cbn.
    split; [done|]. split; [done|]. split; [done|]. split; [lia|].
    split; [lia|]. split; [lia|]. rewrite <- Hconf. by destruct isValid.
Qed.

Lemma updateDisplay_fold_digits w (ps : list (Z * Z)) :
  wf (Web.sudoku w) → digits (Web.sudoku w) → (∀ p, p ∈ ps → inb p.1 p.2) →
  ∀ acc,
    fold_left (λ a '(row, col),
                 let '(w', v) := Web.updateCell present a.1 row col in
                 (w', a.2 ++ option_list v)) ps (w, acc)
    = (w, acc ++ flat_map (λ p, option_list (Web.updateCell present w p.1 p.2).2) ps).
Proof.
  intros Hwf Hdig. induction ps as [|[row col] ps IH]; intros Hps acc; cbn [fold_left flat_map].
  - by rewrite app_nil_r.
  - destruct (updateCell_digits w row col Hwf Hdig) as [Hsame _].
    { apply (Hps (row, col)). by left. }
    cbn [fst snd]. destruct (Web.updateCell present w row col) as [w' v] eqn:E.
    cbn [fst snd] in *. subst w'.
    rewrite IH by (intros p Hp; apply Hps; by right). by rewrite <- app_assoc.
Qed.

Lemma updateDisplay_digits w :
  wf (Web.sudoku w) → digits (Web.sudoku w) →
  (Web.updateDisplay present w).1 = w ∧
  (Web.updateDisplay present w).2 =
    flat_map (λ p, option_list (Web.updateCell present w p.1 p.2).2) positions.
Proof.
  intros Hwf Hdig. unfold Web.updateDisplay.
  rewrite (updateDisplay_fold_digits w positions Hwf Hdig); [done|].
  intros [r c] Hp. by apply list_elem_of_In, in_positions in Hp.
Qed.

(** X18.  On a 9x9 board of digits [updateDisplay] gives the state
    back as it was, although it clears and rewrites each filled cell
    on the way.  It sets one view for each cell the page has, in
    reading order, with the value of the cell, and marks a cell invalid
    exactly when the cell is filled and another cell of its row, column
    or box holds the same value. *)
Theorem updateDisplay_on_digits (w : Web.WebUI) :
  wf (Web.sudoku w) → digits (Web.sudoku w) →
  (Web.updateDisplay present w).1 = w ∧
  map (λ v, (Web.viewRow v, Web.viewCol v)) (Web.updateDisplay present w).2
    = List.filter (λ p, present p.1 p.2) positions ∧
  ∀ v, In v (Web.updateDisplay present w).2 → view_ok present w v.
Proof.
  intros Hwf Hdig. destruct (updateDisplay_digits w Hwf Hdig) as [Hstate Hviews].
  split; [done|]. rewrite Hviews. clear Hstate Hviews.
  assert (∀ p, In p positions → inb p.1 p.2) as Hin
    by (intros [r c] Hp; by apply in_positions in Hp).
  revert Hin. generalize positions as ps. intros ps Hps. split.
  - induction ps as [|[row col] ps IH]; cbn [flat_map List.filter]; [done|].
    rewrite map_app, IH by (intros p Hp; apply Hps; by right).
    destruct (updateCell_digits w row col Hwf Hdig) as [_ Hv].
    { apply (Hps (row, col)). by left. }
    cbn [fst snd]. destruct (Web.updateCell present w row col).2 as [v|].
    + destruct Hv as (Hr & Hc & _ & Hpres & _). rewrite Hr, Hc in Hpres.
      cbn. by rewrite Hr, Hc, Hpres.
    + cbn. by rewrite Hv.
  - intros v (p & Hp & Hv)%in_flat_map.
    destruct (updateCell_digits w p.1 p.2 Hwf Hdig (Hps p Hp)) as [_ Hview].
    destruct (Web.updateCell present w p.1 p.2).2 as [v'|]; [|done].
    destruct Hv as [<-|[]]. apply Hview.
Qed.
End WebFacts.

Lemma updateDisplay_on_digits_witness :
  (Web.updateDisplay (λ _ _, true) (Web.NewWebUI (NewSudokuWithPuzzle GetSamplePuzzle))).1
  = Web.NewWebUI (NewSudokuWithPuzzle GetSamplePuzzle).
Proof.
  apply (updateDisplay_on_digits (λ _ _, true)
           (Web.NewWebUI (NewSudokuWithPuzzle GetSamplePuzzle))
           wf_sample_puzzle digits_sample_puzzle).
Defined.

Lemma digits_store s row col v :
  wf s → inb row col → 0 ≤ v ≤ 9 → digits s → digits (store s row col v).
Proof.
  intros Hwf Hin Hv Hdig r c Hrc.
  destruct (decide (r = row ∧ c = col)) as [[-> ->]|Hne].
  - by rewrite cell_store_eq.
  - rewrite cell_store_ne by (done || lia). by apply Hdig.
Qed.

Section WebErase.
Variable present : Z → Z → bool.

Lemma updateCell_board w row col :
  wf (Web.sudoku w) → inb row col →
  Web.sudoku (Web.updateCell present w row col).1 =
    (if present row col && negb (isValidValue (cell (Web.sudoku w) row col))
     then store (Web.sudoku w) row col 0 else Web.sudoku w) ∧
  Web.originalPuzzle (Web.updateCell present w row col).1 = Web.originalPuzzle w.
Proof.
  intros Hwf Hin. unfold Web.updateCell.
  destruct (present row col) eqn:Hpres; cbn [negb andb]; [|done].
  rewrite !GetCell_inb by done. cbv zeta.
  destruct (cell (Web.sudoku w) row col =? 0) eqn:Hz; cbn [negb].
  - cbn. assert (isValidValue (cell (Web.sudoku w) row col) = true) as ->
      by (apply isValidValue_true; lia). done.
  - assert (ClearCell (Web.sudoku w) row col = (true, store (Web.sudoku w) row col 0)) as ->.
    { unfold ClearCell. by apply isValidPosition_true in Hin as ->. }
    cbn [snd].
    pose proof (IsValidMove_board (store (Web.sudoku w) row col 0) row col
                  (cell (Web.sudoku w) row col)) as Hb.
    destruct (IsValidMove (store (Web.sudoku w) row col 0) row col
                (cell (Web.sudoku w) row col)) as [isValid s2].
    cbn [snd] in Hb. subst s2. unfold SetCell.
    apply isValidPosition_true in Hin as ->.
    destruct (isValidValue (cell (Web.sudoku w) row col)); cbn; [|done].
    by rewrite store_restore.
Qed.

Lemma updateDisplay_fold_board (ps : list (Z * Z)) :
  NoDup ps → (∀ p, p ∈ ps → inb p.1 p.2) →
  ∀ w acc, wf (Web.sudoku w) →
    let w' := (fold_left (λ a '(row, col),
                 let '(w', v) := Web.updateCell present a.1 row col in
                 (w', a.2 ++ option_list v)) ps (w, acc)).1 in
    wf (Web.sudoku w') ∧ Web.originalPuzzle w' = Web.originalPuzzle w ∧
    ∀ r c, inb r c →
      cell (Web.sudoku w') r c =
        if bool_decide ((r, c) ∈ ps) && present r c
           && negb (isValidValue (cell (Web.sudoku w) r c))
        then 0 else cell (Web.sudoku w) r c.
Proof.
  intros Hnd. induction Hnd as [|[row col] ps Hnin Hnd IH]; intros Hps w acc Hwf;
    cbn [fold_left].
  - split_and!; [done..|]. intros r c _. rewrite bool_decide_eq_false_2; [done|].
    apply not_elem_of_nil.
  - assert (inb row col) as Hin by (apply (Hps (row, col)); by left).
    destruct (updateCell_board w row col Hwf Hin) as [Hs Ho]. cbn [fst snd].
    destruct (Web.updateCell present w row col) as [w1 v]. cbn [fst] in Hs, Ho.
    assert (wf (Web.sudoku w1)) as Hwf1.
    { rewrite Hs. destruct (_ && _); [by apply wf_store|done]. }
    destruct (IH ltac:(intros p Hp; apply Hps; by right) w1 (acc ++ option_list v) Hwf1)
      as (Hwf' & Ho' & Hcell).
    split_and!; [done|congruence|]. intros r c Hrc. rewrite (Hcell r c Hrc), Hs.
    destruct (decide (r = row ∧ c = col)) as [[-> ->]|Hne].
    + rewrite (bool_decide_eq_false_2 _ Hnin). rewrite bool_decide_eq_true_2 by by left.
      cbn [andb]. destruct (present row col && _); [by apply cell_store_eq|done].
    + assert (cell (if present row col && negb (isValidValue (cell (Web.sudoku w) row col))
                    then store (Web.sudoku w) row col 0 else Web.sudoku w) r c
              = cell (Web.sudoku w) r c) as ->.
      { destruct (_ && _); [|done]. apply cell_store_ne; [done..|lia]. }
      assert (bool_decide ((r, c) ∈ (row, col) :: ps) = bool_decide ((r, c) ∈ ps)) as ->; [|done].
      apply bool_decide_ext. rewrite elem_of_cons. split; [|by right].
      intros [[= -> ->]|?]; [lia|done].
Qed.

(** X19.  [updateDisplay] and values that are no digits: on any 9x9
    board, a cell the page has that holds a value outside 0..9 is
    empty after the call, because the value is cleared for the check
    and [SetCell] then refuses to write it back; every other cell is as
    before. *)
Theorem updateDisplay_erases_non_digits (w : Web.WebUI) (r c : Z) :
  wf (Web.sudoku w) → inb r c →
  cell (Web.sudoku (Web.updateDisplay present w).1) r c =
    if present r c && negb (isValidValue (cell (Web.sudoku w) r c))
    then 0 else cell (Web.sudoku w) r c.
Proof.
  intros Hwf Hrc. unfold Web.updateDisplay.
  destruct (updateDisplay_fold_board positions NoDup_positions
              ltac:(intros [i j] Hp; by apply list_elem_of_In, in_positions in Hp)
              w [] Hwf) as (_ & _ & Hcell).
  rewrite (Hcell r c Hrc). rewrite bool_decide_eq_true_2; [done|].
  by apply list_elem_of_In, in_positions.
Qed.
End WebErase.

Lemma updateDisplay_erases_non_digits_witness :
  cell (store NewSudoku 0 0 12) 0 0 = 12 ∧
  cell (Web.sudoku (Web.updateDisplay (λ _ _, true)
          (Web.NewWebUI (store NewSudoku 0 0 12))).1) 0 0 = 0.
Proof.
  assert (inb 0 0) as Hin by (unfold inb; lia).
  split; [reflexivity|].
  exact (updateDisplay_erases_non_digits (λ _ _, true)
           (Web.NewWebUI (store NewSudoku 0 0 12)) 0 0
           (wf_store NewSudoku 0 0 12 wf_NewSudoku) Hin).
Defined.

Section WebHandlers.
Context {Rand : Type}.
Variable present : Z → Z → bool.
Variable Intn : Rand → Z → Z * Rand.
Hypothesis Intn_range : ∀ g n, 0 < n → 0 ≤ (Intn g n).1 < n.


Lemma inv_NewWebUI puzzle :
  wf puzzle → digits puzzle → IsValid puzzle = true → Web.inv (Web.NewWebUI puzzle).
Proof.
  intros Hwf Hdig Hvalid. destruct (copyBoard_spec puzzle) as [Hwfc Hcopy].
  unfold Web.inv, Web.NewWebUI; cbn. split_and!; try done; try lia.
  intros r c Hrc _. by rewrite Hcopy.
Qed.

Lemma inv_select w row col :
  Web.inv w → inb row col →
  Web.inv (Web.mkWebUI (Web.sudoku w) (Web.originalPuzzle w) row col
             (Web.selectedNumber w) (Web.gameWon w)).
Proof. intros (?&?&?&?&?&?) Hin. unfold Web.inv; cbn. by split_and!. Qed.

Lemma inv_write w v :
  Web.inv w → 0 ≤ v ≤ 9 →
  cell (Web.originalPuzzle w) (Web.selectedRow w) (Web.selectedCol w) = 0 →
  (v ≠ 0 → (IsValidMove (Web.sudoku w) (Web.selectedRow w) (Web.selectedCol w) v).1 = true) →
  Web.inv (Web.withSudoku w (store (Web.sudoku w) (Web.selectedRow w) (Web.selectedCol w) v)).
Proof.
  intros (Hwf & Hwfo & Hdig & Hvalid & Hin & Hgiven) Hv Hfree Hmove.
  unfold Web.inv; cbn. split_and!; [by apply wf_store|done|by apply digits_store| |done|].
  - apply IsValid_spec in Hvalid. apply IsValid_spec.
    destruct (decide (v = 0)) as [->|Hnz].
    + apply (valid_spec_cleared _ (Web.sudoku w)); [|done]. intros r c Hrc.
      destruct (decide (r = Web.selectedRow w ∧ c = Web.selectedCol w)) as [[-> ->]|Hne].
      * left. by apply cell_store_eq.
      * right. apply cell_store_ne; [done..|lia].
    + apply valid_spec_store; try done.
      apply IsValidMove_spec; [done|lia|by apply Hmove].
  - intros r c Hrc Hnz. rewrite cell_store_ne; [by apply Hgiven|done..|].
    destruct (decide (r = Web.selectedRow w)) as [->|]; [right|by left]. congruence.
Qed.

Lemma updateDisplay_inv w :
  Web.inv w → (Web.updateDisplay present w).1 = w.
Proof. intros (Hwf & _ & Hdig & _). by apply updateDisplay_digits. Qed.

Lemma setNumber_cases w args :
  Web.inv w →
  let sr := Web.selectedRow w in
  let sc := Web.selectedCol w in
  match args with
  | [Web.JsNumber number] =>
      if decide (1 ≤ number ≤ 9) then
        if decide (cell (Web.originalPuzzle w) sr sc = 0) then
          if (IsValidMove (Web.sudoku w) sr sc number).1 then
            let s' := store (Web.sudoku w) sr sc number in
            Web.setNumber present w args =
              Web.Returned
                (Web.mkWebUI s' (Web.originalPuzzle w) sr sc (Web.selectedNumber w)
                   (Web.gameWon w || IsComplete s'),
                 if IsComplete s' then Some Web.Solved else None)
          else Web.setNumber present w args = Web.Returned (w, Some Web.InvalidMove)
        else Web.setNumber present w args = Web.Returned (w, Some Web.CannotModifyOriginal)
      else Web.setNumber present w args = Web.Returned (w, None)
  | [_] => Web.setNumber present w args = Web.Panicked
  | _ => Web.setNumber present w args = Web.Returned (w, None)
  end.
Proof.
  intros Hinv. pose proof Hinv as (Hwf & Hwfo & Hdig & Hvalid & Hin & Hgiven).
  cbv zeta. destruct args as [|a0 [|? ?]]; [done| |by destruct a0].
  destruct a0 as [number|s|]; [|done..].
  unfold Web.setNumber, Web.Int, mbind, Web.Result_bind. cbv beta iota.
  case_decide as Hnum.
  - assert ((number <? 1) || (number >? 9) = false) as -> by lia.
    rewrite GetCell_inb by done. case_decide as Hfree.
    + rewrite Hfree. cbn [Z.eqb negb].
      pose proof (IsValidMove_board (Web.sudoku w) (Web.selectedRow w) (Web.selectedCol w)
                    number) as Hb.
      pose proof (inv_write w number Hinv ltac:(lia) Hfree) as Hinv'.
      destruct (IsValidMove (Web.sudoku w) (Web.selectedRow w) (Web.selectedCol w) number)
        as [ok s1]. cbn [fst snd] in *. subst s1. destruct ok; cbn [negb].
      * assert (SetCell (Web.sudoku w) (Web.selectedRow w) (Web.selectedCol w) number
                = (true, store (Web.sudoku w) (Web.selectedRow w) (Web.selectedCol w) number))
          as ->.
        { unfold SetCell. apply isValidPosition_true in Hin as ->.
          assert (isValidValue number = true) as -> by (apply isValidValue_true; lia). done. }
        cbn [snd]. rewrite (updateDisplay_inv _ (Hinv' ltac:(done))). cbn.
        destruct (IsComplete _); [by rewrite orb_true_r|]. by rewrite orb_false_r.
      * by rewrite withSudoku_same.
    + assert ((cell (Web.originalPuzzle w) (Web.selectedRow w) (Web.selectedCol w) =? 0)
              = false) as -> by lia. done.
  - assert ((number <? 1) || (number >? 9) = true) as -> by lia. done.
Qed.

Lemma clearCell_cases w :
  Web.inv w →
  let sr := Web.selectedRow w in
  let sc := Web.selectedCol w in
  if decide (cell (Web.originalPuzzle w) sr sc = 0) then
    Web.clearCell present w = (Web.withSudoku w (store (Web.sudoku w) sr sc 0), None)
  else Web.clearCell present w = (w, Some Web.CannotModifyOriginal).
Proof.
  intros Hinv. pose proof Hinv as (Hwf & Hwfo & Hdig & Hvalid & Hin & Hgiven).
  cbv zeta. unfold Web.clearCell. rewrite GetCell_inb by done. case_decide as Hfree.
  - rewrite Hfree. cbn [Z.eqb negb].
    assert (ClearCell (Web.sudoku w) (Web.selectedRow w) (Web.selectedCol w)
            = (true, store (Web.sudoku w) (Web.selectedRow w) (Web.selectedCol w) 0)) as ->.
    { unfold ClearCell. by apply isValidPosition_true in Hin as ->. }
    cbn [snd]. rewrite updateDisplay_inv; [done|]. by apply inv_write.
  - assert ((cell (Web.originalPuzzle w) (Web.selectedRow w) (Web.selectedCol w) =? 0)
            = false) as -> by lia. done.
Qed.





End WebHandlers.

Section WebClaims.
Context {Rand : Type}.
Variable present : Z → Z → bool.
Variable Intn : Rand → Z → Z * Rand.
Hypothesis Intn_range : ∀ g n, 0 < n → 0 ≤ (Intn g n).1 < n.



(** X21.  What [setNumber] and [clearCell] do in a game that keeps its
    invariants.  [setNumber] with one argument that is no number
    panics.  Otherwise it changes nothing unless it gets one number
    from 1 to 9, the selected cell is not a given and the number is a
    valid move there; then it writes the number, and reports a solved
    game exactly when the board is complete.  [clearCell] empties the
    selected cell unless it is a given, and does not take back a win. *)
Theorem setNumber_clearCell_outcomes (w : Web.WebUI) (args : list Web.JsValue) :
  Web.inv w →
  let sr := Web.selectedRow w in
  let sc := Web.selectedCol w in
  match args with
  | [Web.JsNumber number] =>
      if decide (1 ≤ number ≤ 9) then
        if decide (cell (Web.originalPuzzle w) sr sc = 0) then
          if (IsValidMove (Web.sudoku w) sr sc number).1 then
            let s' := store (Web.sudoku w) sr sc number in
            Web.setNumber present w args =
              Web.Returned
                (Web.mkWebUI s' (Web.originalPuzzle w) sr sc (Web.selectedNumber w)
                   (Web.gameWon w || IsComplete s'),
                 if IsComplete s' then Some Web.Solved else None)
          else Web.setNumber present w args = Web.Returned (w, Some Web.InvalidMove)
        else Web.setNumber present w args = Web.Returned (w, Some Web.CannotModifyOriginal)
      else Web.setNumber present w args = Web.Returned (w, None)
  | [_] => Web.setNumber present w args = Web.Panicked
  | _ => Web.setNumber present w args = Web.Returned (w, None)
  end ∧
  (if decide (cell (Web.originalPuzzle w) sr sc = 0) then
     Web.clearCell present w = (Web.withSudoku w (store (Web.sudoku w) sr sc 0), None)
   else Web.clearCell present w = (w, Some Web.CannotModifyOriginal)) ∧
  Web.gameWon (Web.clearCell present w).1 = Web.gameWon w.
Proof.
  intros Hinv. cbv zeta. split_and!.
  - apply (setNumber_cases present w args Hinv).
  - apply (clearCell_cases present w Hinv).
  - pose proof (clearCell_cases present w Hinv) as H. cbv zeta in H.
    case_decide; by rewrite H.
Qed.
End WebClaims.


(** The instances of X21: from the first state, where the selection
    (4,4) is an empty cell, 5 is written and 6, which stands in the
    column, is refused; a value that is no number panics; the written
    cell is cleared again; with the selection on the given cell (0,0)
    both handlers refuse. *)
Lemma setNumber_clearCell_outcomes_witness :
  let page := λ _ _ : Z, true in
  let puzzle := NewSudokuWithPuzzle GetSamplePuzzle in
  let w0 := Web.NewWebUI puzzle in
  let w1 := Web.withSudoku w0 (store puzzle 4 4 5) in
  let w2 := Web.mkWebUI puzzle (Web.originalPuzzle w0) 0 0 1 false in
  (Web.inv w0 ∧ Web.inv w1 ∧ Web.inv w2) ∧
  Web.setNumber page w0 [Web.JsNumber 5] = Web.Returned (w1, None) ∧
  Web.setNumber page w0 [Web.JsNumber 6] = Web.Returned (w0, Some Web.InvalidMove) ∧
  Web.setNumber page w0 [Web.JsOther] = Web.Panicked ∧
  Web.clearCell page w1 = (Web.withSudoku w1 (store (store puzzle 4 4 5) 4 4 0), None) ∧
  Web.setNumber page w2 [Web.JsNumber 1] = Web.Returned (w2, Some Web.CannotModifyOriginal) ∧
  Web.clearCell page w2 = (w2, Some Web.CannotModifyOriginal).
Proof.
  intros page puzzle w0 w1 w2.
  assert (IsValid puzzle = true) as Hv by (vm_compute; reflexivity).
  pose proof (inv_NewWebUI puzzle wf_sample_puzzle digits_sample_puzzle Hv) as Hinv0.
  assert (Web.inv w1) as Hinv1.
  { apply (inv_write w0 5 Hinv0); [lia|reflexivity|intros _; vm_compute; reflexivity]. }
  assert (Web.inv w2) as Hinv2.
  { apply (inv_select w0 0 0 Hinv0). unfold inb. lia. }
  split; [exact (conj Hinv0 (conj Hinv1 Hinv2))|].
  pose proof (proj1 (setNumber_clearCell_outcomes page w0 [Web.JsNumber 5] Hinv0)) as Hwrite.
  pose proof (proj1 (setNumber_clearCell_outcomes page w0 [Web.JsNumber 6] Hinv0)) as Hrefuse.
  pose proof (proj1 (setNumber_clearCell_outcomes page w0 [Web.JsOther] Hinv0)) as Hpanic.
  pose proof (proj1 (proj2 (setNumber_clearCell_outcomes page w1 [] Hinv1))) as Hclear.
  pose proof (setNumber_clearCell_outcomes page w2 [Web.JsNumber 1] Hinv2)
    as (Hgiven & Hgiven' & _).
  split; [exact Hwrite|]. split; [exact Hrefuse|]. split; [exact Hpanic|].
  split; [exact Hclear|]. split; [exact Hgiven|]. exact Hgiven'.
Defined.

(** ** The terminal front end *)

Lemma wf2_row_length {A : Type} `{!Inhabited A} (g : list (list A)) r :
  wf2 g → 0 ≤ r < 9 → length (g !!! Z.to_nat r) = 9%nat.
Proof.
  intros [Hl Hr] Hrow. apply (Forall_lookup_1 _ _ (Z.to_nat r) _ Hr).
  apply list_lookup_lookup_total_lt. lia.
Qed.

Lemma wf2_put2 {A : Type} `{!Inhabited A} (g : list (list A)) r c x :
  wf2 g → wf2 (put2 g r c x).
Proof.
  intros [Hl Hr]. unfold put2. split.
  - by rewrite length_insert.
  - destruct (decide (Z.to_nat r < length g)%nat) as [Hlt|Hge].
    + apply Forall_insert; [done|]. rewrite length_insert.
      apply (Forall_lookup_1 _ _ (Z.to_nat r) _ Hr).
      by apply list_lookup_lookup_total_lt.
    + rewrite list_insert_ge by lia. done.
Qed.

Lemma at2_put2_eq {A : Type} `{!Inhabited A} (g : list (list A)) r c x :
  wf2 g → inb r c → at2 (put2 g r c x) r c = x.
Proof.
  intros Hwf [Hr Hc]. pose proof (wf2_row_length g r Hwf Hr) as Hlen.
  destruct Hwf as [Hl _]. unfold at2, put2.
  rewrite list_lookup_total_insert_eq by lia.
  rewrite list_lookup_total_insert_eq by lia. done.
Qed.

Lemma at2_put2_ne {A : Type} `{!Inhabited A} (g : list (list A)) r c x i j :
  inb r c → inb i j → i ≠ r ∨ j ≠ c → at2 (put2 g r c x) i j = at2 g i j.
Proof.
  intros [Hr Hc] [Hi Hj] Hne. unfold at2, put2.
  rewrite list_lookup_total_insert. case_decide as Hd; [|done].
  destruct Hd as [Heq _]. assert (i = r) as -> by lia.
  rewrite list_lookup_total_insert_ne by lia. done.
Qed.

Lemma at2_replicate {A : Type} `{!Inhabited A} (x : A) r c :
  inb r c → at2 (replicate 9 (replicate 9 x)) r c = x.
Proof.
  intros [Hr Hc]. unfold at2.
  rewrite lookup_total_replicate_2 by lia. by rewrite lookup_total_replicate_2 by lia.
Qed.

Lemma wf2_replicate {A : Type} (x : A) : wf2 (replicate 9 (replicate 9 x)).
Proof. split; [done|]. apply Forall_replicate. done. Qed.

Lemma blocked_setBlocked b r c n v i j m :
  wf2 b → length (at2 b r c) = 10%nat → inb r c → 0 ≤ n ≤ 9 → inb i j → 0 ≤ m ≤ 9 →
  Terminal.blocked (Terminal.setBlocked b r c n v) i j m =
    if decide (i = r ∧ j = c ∧ m = n) then v else Terminal.blocked b i j m.
Proof.
  intros Hwf Hlen Hrc Hn Hij Hm. unfold Terminal.blocked, Terminal.setBlocked.
  destruct (decide (i = r ∧ j = c)) as [[-> ->]|Hne].
  - rewrite at2_put2_eq by done. rewrite list_lookup_total_insert.
    repeat case_decide; try done; lia.
  - rewrite at2_put2_ne by (done || lia). case_decide; [lia|done].
Qed.

Lemma length_setBlocked b r c n v i j :
  wf2 b → inb r c → inb i j →
  length (at2 (Terminal.setBlocked b r c n v) i j) = length (at2 b i j).
Proof.
  intros Hwf Hrc Hij. unfold Terminal.setBlocked.
  destruct (decide (i = r ∧ j = c)) as [[-> ->]|Hne].
  - rewrite at2_put2_eq by done. by rewrite length_insert.
  - by rewrite at2_put2_ne by (done || lia).
Qed.

Lemma clear_loop_spec (ns : list Z) r c :
  inb r c → (∀ n, n ∈ ns → 0 ≤ n ≤ 9) →
  ∀ b, wf2 b → (∀ i j, inb i j → length (at2 b i j) = 10%nat) →
    let b' := fold_left (λ b i, Terminal.setBlocked b r c i false) ns b in
    wf2 b' ∧ (∀ i j, inb i j → length (at2 b' i j) = 10%nat) ∧
    ∀ i j m, inb i j → 0 ≤ m ≤ 9 →
      Terminal.blocked b' i j m =
        if decide (i = r ∧ j = c ∧ m ∈ ns) then false else Terminal.blocked b i j m.
Proof.
  intros Hrc. induction ns as [|n ns IH]; intros Hns b Hwf Hlen; cbn [fold_left].
  - split_and!; [done..|]. intros i j m _ _. case_decide as H; [|done].
    destruct H as (_ & _ & H). by apply elem_of_nil in H.
  - assert (0 ≤ n ≤ 9) as Hn by (apply Hns; by left).
    destruct (IH ltac:(intros k Hk; apply Hns; by right)
                 (Terminal.setBlocked b r c n false)) as (Hwf' & Hlen' & Hb').
    { by apply wf2_put2. }
    { intros i j Hij. rewrite length_setBlocked by done. by apply Hlen. }
    split_and!; [done..|]. intros i j m Hij Hm. rewrite Hb' by done.
    rewrite blocked_setBlocked by (done || by apply Hlen).
    destruct (decide (i = r ∧ j = c ∧ m ∈ n :: ns)) as [(-> & -> & Hm')|Hno].
    + apply elem_of_cons in Hm' as [->|Hm'].
      * destruct (decide (r = r ∧ c = c ∧ n ∈ ns)); [done|]. by rewrite decide_True.
      * by rewrite decide_True.
    + rewrite decide_False; [|intros (?&?&?); apply Hno; split_and!; [done..|by right]].
      rewrite decide_False; [done|]. intros (?&?&->). apply Hno. split_and!; [done..|by left].
Qed.

Lemma put2_loop_spec {A : Type} `{!Inhabited A} (f : Z → Z → A) (ps : list (Z * Z)) :
  (∀ p, p ∈ ps → inb p.1 p.2) →
  ∀ g0, wf2 g0 →
    let g1 := fold_left (λ o '(i, j), put2 o i j (f i j)) ps g0 in
    wf2 g1 ∧ ∀ r c, inb r c →
      at2 g1 r c = if decide ((r, c) ∈ ps) then f r c else at2 g0 r c.
Proof.
  induction ps as [|[i j] ps IH]; intros Hps g0 Hwf; cbn [fold_left].
  - split; [done|]. intros r c _.
    destruct (decide ((r, c) ∈ [])) as [H|]; [|done]. by apply elem_of_nil in H.
  - assert (inb i j) as Hij by (apply (Hps (i, j)); by left).
    destruct (IH ltac:(intros p Hp; apply Hps; by right)
                 (put2 g0 i j (f i j)) (wf2_put2 _ _ _ _ Hwf)) as [Hwf1 Hcell].
    split; [done|]. intros r c Hrc. rewrite (Hcell r c Hrc).
    destruct (decide ((r, c) ∈ ps)) as [Hin|Hnin].
    + rewrite decide_True; [done|by right].
    + destruct (decide ((r, c) = (i, j))) as [[= -> ->]|Hne].
      * rewrite decide_True by by left. by apply at2_put2_eq.
      * rewrite decide_False by (intros Hel; apply elem_of_cons in Hel as [?|?]; done).
        apply at2_put2_ne; [done..|].
        destruct (decide (r = i)) as [->|]; [right|by left]. congruence.
Qed.

Lemma originalBoard_New s :
  wf2 (Terminal.originalBoard (Terminal.NewTerminalUI s)) ∧
  ∀ r c, inb r c → at2 (Terminal.originalBoard (Terminal.NewTerminalUI s)) r c = GetCell s r c.
Proof.
  destruct (put2_loop_spec (GetCell s) positions
              ltac:(intros [i j] Hp; by apply list_elem_of_In, in_positions in Hp)
              (replicate 9 (replicate 9 0)) (wf2_replicate 0)) as [Hwf Hcell].
  split; [exact Hwf|]. intros r c Hrc.
  etrans; [exact (Hcell r c Hrc)|].
  rewrite decide_True; [done|]. by apply list_elem_of_In, in_positions.
Qed.

Lemma inv_NewTerminalUI s : Terminal.inv (Terminal.NewTerminalUI s).
Proof.
  destruct (originalBoard_New s) as [Hwf Hcell].
  assert (∀ r c n, inb r c → 0 ≤ n ≤ 9 →
            Terminal.blocked (replicate 9 (replicate 9 (replicate 10 false))) r c n = false)
    as Hb.
  { intros r c n Hrc Hn. unfold Terminal.blocked. rewrite at2_replicate by done.
    apply lookup_total_replicate_2. lia. }
  unfold Terminal.inv. split; [exact Hwf|]. unfold Terminal.NewTerminalUI.
  cbn [Terminal.originalBoard Terminal.userNumbers Terminal.blockedNums Terminal.cursorRow
       Terminal.cursorCol Terminal.selectedNum].
  split; [apply wf2_replicate|]. split; [apply wf2_replicate|].
  split; [intros r c Hrc; by rewrite at2_replicate|].
  split; [unfold inb; lia|]. split; [lia|].
  split; [intros r c Hrc; rewrite at2_replicate by done; lia|].
  split.
  - intros r c Hrc _. split; [by apply at2_replicate|]. intros n Hn. by apply Hb.
  - intros r c Hrc Hnz. by rewrite at2_replicate in Hnz.
Qed.

Lemma inv_moveCursor ui dr dc : Terminal.inv ui → Terminal.inv (Terminal.moveCursor ui dr dc).
Proof.
  intros Hinv. unfold Terminal.moveCursor. cbv zeta.
  destruct (_ && _) eqn:E; [|done].
  destruct Hinv as (?&?&?&?&?&?&?&?&?). unfold Terminal.inv; cbn.
  split_and!; try done; unfold inb; lia.
Qed.

Lemma inv_withTool ui tool : Terminal.inv ui → Terminal.inv (Terminal.withTool ui tool).
Proof. intros (?&?&?&?&?&?&?&?&?). unfold Terminal.inv; cbn. done. Qed.

Lemma inv_withSelected ui n :
  1 ≤ n ≤ 9 → Terminal.inv ui → Terminal.inv (Terminal.withSelected ui n).
Proof. intros Hn (?&?&?&?&?&?&?&?&?). unfold Terminal.inv; cbn. done. Qed.

Lemma inv_stop ui :
  Terminal.inv ui →
  Terminal.inv (Terminal.mkTerminalUI (Terminal.sudoku ui) (Terminal.originalBoard ui)
                  (Terminal.userNumbers ui) (Terminal.blockedNums ui) (Terminal.cursorRow ui)
                  (Terminal.cursorCol ui) (Terminal.currentTool ui) (Terminal.selectedNum ui)
                  false).
Proof. intros (?&?&?&?&?&?&?&?&?). unfold Terminal.inv; cbn. done. Qed.

(** Writing marks at the cursor, when the cell there is no given, keeps
    the invariant if the new user number there is not blocked. *)
Lemma inv_withMarks ui (u : Z) (b : list (list (list bool))) :
  Terminal.inv ui →
  let r := Terminal.cursorRow ui in
  let c := Terminal.cursorCol ui in
  at2 (Terminal.originalBoard ui) r c = 0 →
  0 ≤ u ≤ 9 →
  wf2 b → (∀ i j, inb i j → length (at2 b i j) = 10%nat) →
  (∀ i j m, inb i j → 0 ≤ m ≤ 9 → i ≠ r ∨ j ≠ c →
     Terminal.blocked b i j m = Terminal.blocked (Terminal.blockedNums ui) i j m) →
  (u ≠ 0 → Terminal.blocked b r c u = false) →
  Terminal.inv (Terminal.withMarks ui (put2 (Terminal.userNumbers ui) r c u) b).
Proof.
  intros (Hwo & Hwu & Hwb & Hlen & Hcur & Hsel & Hdig & Hgiven & Hfree).
  cbv zeta. intros Hedit Hu Hwfb Hlenb Hother Hnew.
  unfold Terminal.inv; cbn. split; [done|]. split; [by apply wf2_put2|].
  split; [done|]. split; [done|]. split; [done|]. split; [done|]. split; [|split].
  - intros r c Hrc.
    destruct (decide (r = Terminal.cursorRow ui ∧ c = Terminal.cursorCol ui)) as [[-> ->]|Hne].
    + by rewrite at2_put2_eq.
    + rewrite at2_put2_ne by (done || lia). by apply Hdig.
  - intros r c Hrc Hnz.
    assert (r ≠ Terminal.cursorRow ui ∨ c ≠ Terminal.cursorCol ui) as Hne.
    { destruct (decide (r = Terminal.cursorRow ui)) as [->|]; [right|by left]. congruence. }
    rewrite at2_put2_ne by done. destruct (Hgiven r c Hrc Hnz) as [Hz Hb].
    split; [done|]. intros n Hn. rewrite Hother by done. by apply Hb.
  - intros r c Hrc.
    destruct (decide (r = Terminal.cursorRow ui ∧ c = Terminal.cursorCol ui)) as [[-> ->]|Hne].
    + rewrite at2_put2_eq by done. apply Hnew.
    + rewrite at2_put2_ne by (done || lia). intros Hnz.
      rewrite Hother; [by apply Hfree|done| |lia]. by apply Hdig.
Qed.

Lemma put2_same {A : Type} `{!Inhabited A} (g : list (list A)) r c :
  put2 g r c (at2 g r c) = g.
Proof.
  unfold put2, at2. set (n := Z.to_nat r). set (m := Z.to_nat c).
  destruct (decide (n < length g)%nat) as [Hn|Hn].
  - rewrite (list_insert_id' (g !!! n) m).
    + apply list_insert_id'. intros _. by apply list_lookup_lookup_total_lt.
    + intros Hm. by apply list_lookup_lookup_total_lt.
  - by rewrite (list_insert_ge g) by lia.
Qed.

Lemma inv_useTool ui : Terminal.inv ui → Terminal.inv (Terminal.useTool ui).
Proof.
  intros Hinv. pose proof Hinv as (Hwo & Hwu & Hwb & Hlen & Hcur & Hsel & Hdig & Hgiven & Hfree).
  unfold Terminal.useTool. cbv zeta.
  destruct (at2 (Terminal.originalBoard ui) _ _ =? 0) eqn:Hz; cbn [negb]; [|done].
  apply Z.eqb_eq in Hz.
  set (r := Terminal.cursorRow ui) in *. set (c := Terminal.cursorCol ui) in *.
  set (sel := Terminal.selectedNum ui) in *.
  destruct (Terminal.currentTool ui =? Terminal.ToolNumber).
  { apply (inv_withMarks ui sel); try done; try lia.
    - by apply wf2_put2.
    - intros i j Hij. rewrite length_setBlocked by done. by apply Hlen.
    - intros i j m Hij Hm Hne.
      rewrite (blocked_setBlocked _ r c sel _ i j m Hwb (Hlen r c Hcur) Hcur
                 ltac:(lia) Hij Hm).
      rewrite decide_False; [done|]. intros (-> & -> & _). lia.
    - intros _.
      rewrite (blocked_setBlocked _ r c sel _ r c sel Hwb (Hlen r c Hcur) Hcur
                 ltac:(lia) Hcur ltac:(lia)).
      by rewrite decide_True. }
  destruct (Terminal.currentTool ui =? Terminal.ToolBlock); [|done].
  set (b := Terminal.setBlocked _ r c sel _).
  assert (wf2 b) as Hwfb by by apply wf2_put2.
  assert (∀ i j, inb i j → length (at2 b i j) = 10%nat) as Hlenb.
  { intros i j Hij. unfold b. rewrite length_setBlocked by done. by apply Hlen. }
  assert (∀ i j m, inb i j → 0 ≤ m ≤ 9 → (i ≠ r ∨ j ≠ c) ∨ m ≠ sel →
            Terminal.blocked b i j m = Terminal.blocked (Terminal.blockedNums ui) i j m)
    as Hother.
  { intros i j m Hij Hm Hne. unfold b.
    rewrite (blocked_setBlocked _ r c sel _ i j m Hwb (Hlen r c Hcur) Hcur
               ltac:(lia) Hij Hm).
    rewrite decide_False; [done|]. intros (-> & -> & ->). lia. }
  destruct (Terminal.blocked b r c sel && (at2 (Terminal.userNumbers ui) r c =? sel)) eqn:E.
  - apply (inv_withMarks ui 0); try done; try lia. intros i j m Hij Hm Hne.
    apply Hother; auto.
  - rewrite <- (put2_same (Terminal.userNumbers ui) r c).
    apply (inv_withMarks ui (at2 (Terminal.userNumbers ui) r c)); try done.
    + by apply Hdig.
    + intros i j m Hij Hm Hne. apply Hother; auto.
    + intros Hnz. destruct (decide (at2 (Terminal.userNumbers ui) r c = sel)) as [Heq|Hne].
      * rewrite Heq in *. rewrite Z.eqb_refl, andb_true_r in E. done.
      * rewrite Hother; [by apply Hfree|done|by apply Hdig|by right].
Qed.

Lemma inv_clearCurrentCell ui : Terminal.inv ui → Terminal.inv (Terminal.clearCurrentCell ui).
Proof.
  intros Hinv. pose proof Hinv as (Hwo & Hwu & Hwb & Hlen & Hcur & Hsel & Hdig & Hgiven & Hfree).
  unfold Terminal.clearCurrentCell. cbv zeta.
  destruct (at2 (Terminal.originalBoard ui) _ _ =? 0) eqn:Hz; cbn [negb]; [|done].
  apply Z.eqb_eq in Hz.
  destruct (clear_loop_spec (seqZ 1 9) (Terminal.cursorRow ui) (Terminal.cursorCol ui) Hcur
              ltac:(intros n Hn%elem_of_seqZ; lia) (Terminal.blockedNums ui) Hwb Hlen)
    as (Hwfb & Hlenb & Hb).
  apply (inv_withMarks ui 0); try done; try lia.
  intros i j m Hij Hm Hne. rewrite Hb by done. rewrite decide_False; [done|].
  intros (-> & -> & _). lia.
Qed.

Section TerminalFacts.
Variables KeySpace KeyEsc KeyArrowUp KeyArrowDown KeyArrowLeft KeyArrowRight : Z.

Local Abbreviation handleInput :=
  (Terminal.handleInput KeySpace KeyEsc KeyArrowUp KeyArrowDown KeyArrowLeft KeyArrowRight).
Local Abbreviation run :=
  (Terminal.run KeySpace KeyEsc KeyArrowUp KeyArrowDown KeyArrowLeft KeyArrowRight).

Lemma inv_cycleTool ui :
  Terminal.inv ui → Terminal.inv (Terminal.cycleTool ui) ∧ Terminal.inv (Terminal.cycleToolReverse ui).
Proof.
  intros Hinv. unfold Terminal.cycleTool, Terminal.cycleToolReverse.
  split; repeat (destruct (_ =? _)); (done || by apply inv_withTool).
Qed.

Lemma inv_cycleNumber ui : Terminal.inv ui → Terminal.inv (Terminal.cycleNumber ui).
Proof.
  intros Hinv. pose proof Hinv as (_&_&_&_&_&Hsel&_). unfold Terminal.cycleNumber. cbv zeta.
  apply inv_withSelected; [|done]. destruct (_ >? 9) eqn:E; lia.
Qed.

Lemma inv_handleInput ui e : Terminal.inv ui → Terminal.inv (handleInput ui e).
Proof.
  intros Hinv. unfold Terminal.handleInput. cbv zeta.
  repeat (match goal with |- context [if ?b then _ else _] => destruct b eqn:? end);
    first [ done | by apply inv_useTool | by apply inv_stop | by apply inv_moveCursor
          | by apply inv_cycleTool | by apply inv_cycleNumber | by apply inv_clearCurrentCell
          | apply inv_withSelected; [lia|done] ].
Qed.

Lemma frame_handleInput ui e :
  Terminal.sudoku (handleInput ui e) = Terminal.sudoku ui ∧
  Terminal.originalBoard (handleInput ui e) = Terminal.originalBoard ui.
Proof.
  unfold Terminal.handleInput, Terminal.useTool, Terminal.moveCursor, Terminal.cycleTool,
    Terminal.cycleToolReverse, Terminal.cycleNumber, Terminal.clearCurrentCell. cbv zeta.
  repeat (match goal with |- context [if ?b then _ else _] => destruct b end); done.
Qed.

Lemma run_inv_terminal (es : list Terminal.KeyEvent) :
  ∀ ui, Terminal.inv ui →
    Terminal.inv (run ui es) ∧ Terminal.sudoku (run ui es) = Terminal.sudoku ui ∧
    Terminal.originalBoard (run ui es) = Terminal.originalBoard ui.
Proof.
  induction es as [|e es IH]; intros ui Hinv; cbn [Terminal.run]; [done|].
  destruct (Terminal.gameRunning ui); [|done].
  destruct (IH (handleInput ui e) (inv_handleInput ui e Hinv)) as (Hinv' & Hs & Ho).
  destruct (frame_handleInput ui e) as [Hs' Ho'].
  split_and!; [done|congruence|congruence].
Qed.

(** X22.  The terminal game, whatever board it is started on and
    whatever keys arrive: the cursor stays on the board and the
    selected number between 1 and 9, so no array is indexed out of
    range; the player's numbers are digits and never lie on a given
    cell; a cell never holds a player's number that is also blocked
    there; and neither the puzzle board nor the givens are written. *)
Theorem terminal_game_invariants (s : Sudoku) (es : list Terminal.KeyEvent) :
  Terminal.inv (run (Terminal.NewTerminalUI s) es) ∧
  Terminal.sudoku (run (Terminal.NewTerminalUI s) es) = s ∧
  ∀ r c, inb r c →
    at2 (Terminal.originalBoard (run (Terminal.NewTerminalUI s) es)) r c = GetCell s r c.
Proof.
  destruct (run_inv_terminal es (Terminal.NewTerminalUI s) (inv_NewTerminalUI s))
    as (Hinv & Hs & Ho).
  split_and!; [done..|]. intros r c Hrc. rewrite Ho. by apply originalBoard_New.
Qed.
End TerminalFacts.

Lemma terminal_game_invariants_witness :
  Terminal.inv
    (Terminal.run 32 27 65517 65516 65515 65514
       (Terminal.NewTerminalUI (NewSudokuWithPuzzle GetSamplePuzzle))
       [Terminal.mkKeyEvent 113 0 false; Terminal.mkKeyEvent 0 32 false]).
Proof.
  exact (proj1 (terminal_game_invariants 32 27 65517 65516 65515 65514
                  (NewSudokuWithPuzzle GetSamplePuzzle)
                  [Terminal.mkKeyEvent 113 0 false; Terminal.mkKeyEvent 0 32 false])).
Defined.

(** X23.  The marks at the cursor, in a game that keeps its
    invariants.  On a given cell [useTool] and [clearCurrentCell]
    change nothing.  On another cell the number tool writes the
    selected number and unblocks it, the block tool flips the block of
    the selected number and takes the player's number away if it is the
    one now blocked, and clearing leaves no number and no block.  The
    marks of every other cell stay as they are. *)
Theorem terminal_marks (ui : Terminal.TerminalUI) :
  Terminal.inv ui →
  let r := Terminal.cursorRow ui in
  let c := Terminal.cursorCol ui in
  let sel := Terminal.selectedNum ui in
  (at2 (Terminal.originalBoard ui) r c ≠ 0 →
     Terminal.useTool ui = ui ∧ Terminal.clearCurrentCell ui = ui) ∧
  (at2 (Terminal.originalBoard ui) r c = 0 →
     at2 (Terminal.userNumbers (Terminal.clearCurrentCell ui)) r c = 0 ∧
     Terminal.hasBlockedNumbers (Terminal.clearCurrentCell ui) r c = false ∧
     (Terminal.currentTool ui = Terminal.ToolNumber →
        at2 (Terminal.userNumbers (Terminal.useTool ui)) r c = sel ∧
        Terminal.blocked (Terminal.blockedNums (Terminal.useTool ui)) r c sel = false) ∧
     (Terminal.currentTool ui = Terminal.ToolBlock →
        Terminal.blocked (Terminal.blockedNums (Terminal.useTool ui)) r c sel =
          negb (Terminal.blocked (Terminal.blockedNums ui) r c sel) ∧
        (Terminal.blocked (Terminal.blockedNums (Terminal.useTool ui)) r c sel = true →
           at2 (Terminal.userNumbers (Terminal.useTool ui)) r c ≠ sel))) ∧
  (∀ i j m, inb i j → 0 ≤ m ≤ 9 → i ≠ r ∨ j ≠ c →
     at2 (Terminal.userNumbers (Terminal.useTool ui)) i j = at2 (Terminal.userNumbers ui) i j ∧
     Terminal.blocked (Terminal.blockedNums (Terminal.useTool ui)) i j m =
       Terminal.blocked (Terminal.blockedNums ui) i j m ∧
     at2 (Terminal.userNumbers (Terminal.clearCurrentCell ui)) i j =
       at2 (Terminal.userNumbers ui) i j ∧
     Terminal.blocked (Terminal.blockedNums (Terminal.clearCurrentCell ui)) i j m =
       Terminal.blocked (Terminal.blockedNums ui) i j m).
Proof.
  intros (Hwo & Hwu & Hwb & Hlen & Hcur & Hsel & Hdig & Hgiven & Hfree). cbv zeta.
  set (r := Terminal.cursorRow ui) in *. set (c := Terminal.cursorCol ui) in *.
  set (sel := Terminal.selectedNum ui) in *.
  destruct (clear_loop_spec (seqZ 1 9) r c Hcur ltac:(intros n Hn%elem_of_seqZ; lia)
              (Terminal.blockedNums ui) Hwb Hlen) as (_ & _ & Hclear).
  assert (∀ v i j m, inb i j → 0 ≤ m ≤ 9 →
            Terminal.blocked (Terminal.setBlocked (Terminal.blockedNums ui) r c sel v) i j m =
            if decide (i = r ∧ j = c ∧ m = sel) then v
            else Terminal.blocked (Terminal.blockedNums ui) i j m) as Hset.
  { intros v i j m Hij Hm. apply blocked_setBlocked; try done; [by apply Hlen|lia]. }
  unfold Terminal.useTool, Terminal.clearCurrentCell, Terminal.hasBlockedNumbers. cbv zeta.
  fold r c sel. split; [|split].
  - intros Hnz. assert ((at2 (Terminal.originalBoard ui) r c =? 0) = false) as -> by lia. done.
  - intros Hz. rewrite Hz. cbn [Z.eqb negb Terminal.userNumbers Terminal.blockedNums
                                Terminal.withMarks].
    split; [by apply at2_put2_eq|]. split.
    { destruct (existsb _ _) eqn:E; [|done].
      apply existsb_exists in E as (m & Hm & Hb). apply list_elem_of_In in Hm.
      pose proof Hm as Hm'. apply elem_of_seqZ in Hm'.
      rewrite Hclear in Hb by (done || lia). by rewrite decide_True in Hb. }
    split.
    + intros ->. change (Terminal.ToolNumber =? Terminal.ToolNumber) with true.
      cbn [Terminal.userNumbers Terminal.blockedNums Terminal.withMarks].
      split; [by apply at2_put2_eq|]. rewrite Hset by (done || lia). by rewrite decide_True.
    + intros ->. change (Terminal.ToolBlock =? Terminal.ToolNumber) with false.
      change (Terminal.ToolBlock =? Terminal.ToolBlock) with true. cbv iota.
      set (b := Terminal.setBlocked _ r c sel _).
      assert (Terminal.blocked b r c sel
              = negb (Terminal.blocked (Terminal.blockedNums ui) r c sel)) as Hb.
      { unfold b. rewrite Hset by (done || lia). by rewrite decide_True. }
      destruct (Terminal.blocked b r c sel && (at2 (Terminal.userNumbers ui) r c =? sel)) eqn:E;
        cbn [Terminal.userNumbers Terminal.blockedNums Terminal.withMarks].
      * split; [done|]. intros _. rewrite at2_put2_eq by done. lia.
      * split; [done|]. intros Hbt. rewrite Hbt in E. lia.
  - intros i j m Hij Hm Hne.
    assert (∀ v, Terminal.blocked (Terminal.setBlocked (Terminal.blockedNums ui) r c sel v) i j m
                 = Terminal.blocked (Terminal.blockedNums ui) i j m) as Hset'.
    { intros v. rewrite Hset by done. rewrite decide_False; [done|]. intros (-> & -> & _). lia. }
    assert (∀ v, at2 (put2 (Terminal.userNumbers ui) r c v) i j
                 = at2 (Terminal.userNumbers ui) i j) as Hput
      by (intros v; by apply at2_put2_ne).
    assert (Terminal.blocked
              (fold_left (λ b k, Terminal.setBlocked b r c k false) (seqZ 1 9)
                 (Terminal.blockedNums ui)) i j m
            = Terminal.blocked (Terminal.blockedNums ui) i j m) as Hclear'.
    { rewrite Hclear by done. rewrite decide_False; [done|]. intros (-> & -> & _). lia. }
    destruct (at2 (Terminal.originalBoard ui) r c =? 0); cbn [negb]; [|done].
    split_and!.
    + repeat (match goal with |- context [if ?b then _ else _] => destruct b end);
        cbn [Terminal.userNumbers Terminal.withMarks]; by rewrite ?Hput.
    + repeat (match goal with |- context [if ?b then _ else _] => destruct b end);
        cbn [Terminal.blockedNums Terminal.withMarks]; by rewrite ?Hset'.
    + cbn [Terminal.userNumbers Terminal.withMarks]. apply Hput.
    + cbn [Terminal.blockedNums Terminal.withMarks]. apply Hclear'.
Qed.

(** The instances of X23 on the sample puzzle, with the cursor on the
    empty cell (4,4): the number tool writes 1; the block tool then
    blocks 1 and takes it away; clearing the written cell leaves
    nothing; with the cursor on the given cell (4,3) nothing changes;
    and the cell (0,0) keeps its marks. *)
Lemma terminal_marks_witness :
  let ui0 := Terminal.NewTerminalUI (NewSudokuWithPuzzle GetSamplePuzzle) in
  let uiN := Terminal.cycleTool ui0 in
  let uiW := Terminal.useTool uiN in
  let uiB := Terminal.cycleTool uiW in
  let uiG := Terminal.moveCursor uiN 0 (-1) in
  (Terminal.inv uiN ∧ Terminal.inv uiW ∧ Terminal.inv uiB ∧ Terminal.inv uiG) ∧
  (at2 (Terminal.userNumbers uiW) 4 4 = 1 ∧
   Terminal.blocked (Terminal.blockedNums uiW) 4 4 1 = false) ∧
  (Terminal.blocked (Terminal.blockedNums (Terminal.useTool uiB)) 4 4 1 = true ∧
   at2 (Terminal.userNumbers (Terminal.useTool uiB)) 4 4 ≠ 1) ∧
  (at2 (Terminal.userNumbers (Terminal.clearCurrentCell uiW)) 4 4 = 0 ∧
   Terminal.hasBlockedNumbers (Terminal.clearCurrentCell uiW) 4 4 = false) ∧
  (Terminal.useTool uiG = uiG ∧ Terminal.clearCurrentCell uiG = uiG) ∧
  (at2 (Terminal.userNumbers (Terminal.useTool uiB)) 0 0 = at2 (Terminal.userNumbers uiB) 0 0 ∧
   Terminal.blocked (Terminal.blockedNums (Terminal.useTool uiB)) 0 0 1 =
     Terminal.blocked (Terminal.blockedNums uiB) 0 0 1).
Proof.
  intros ui0 uiN uiW uiB uiG.
  pose proof (inv_NewTerminalUI (NewSudokuWithPuzzle GetSamplePuzzle)) as Hinv0.
  pose proof (proj1 (inv_cycleTool ui0 Hinv0)) as HinvN.
  pose proof (inv_useTool uiN HinvN) as HinvW.
  pose proof (proj1 (inv_cycleTool uiW HinvW)) as HinvB.
  pose proof (inv_moveCursor uiN 0 (-1) HinvN) as HinvG.
  assert (at2 (Terminal.originalBoard uiN) (Terminal.cursorRow uiN) (Terminal.cursorCol uiN) = 0)
    as HfreeN by (vm_compute; reflexivity).
  assert (at2 (Terminal.originalBoard uiW) (Terminal.cursorRow uiW) (Terminal.cursorCol uiW) = 0)
    as HfreeW by (vm_compute; reflexivity).
  assert (at2 (Terminal.originalBoard uiB) (Terminal.cursorRow uiB) (Terminal.cursorCol uiB) = 0)
    as HfreeB by (vm_compute; reflexivity).
  assert (at2 (Terminal.originalBoard uiG) (Terminal.cursorRow uiG) (Terminal.cursorCol uiG) ≠ 0)
    as HgivenG by (vm_compute; intros H; discriminate H).
  assert (inb 0 0) as Hin by (unfold inb; lia).
  destruct (terminal_marks uiN HinvN) as (_ & HN & _).
  destruct (HN HfreeN) as (_ & _ & Hnumber & _).
  destruct (terminal_marks uiW HinvW) as (_ & HW & _).
  destruct (HW HfreeW) as (Hcleared & Hnoblock & _ & _).
  destruct (terminal_marks uiB HinvB) as (_ & HB & Hothers).
  destruct (HB HfreeB) as (_ & _ & _ & Hblock).
  destruct (Hblock eq_refl) as [Hflip Hgone].
  destruct (terminal_marks uiG HinvG) as (Hgiven & _ & _).
  destruct (Hothers 0 0 1 Hin ltac:(lia) ltac:(left; vm_compute; lia)) as (Hu & Hb & _ & _).
  split; [exact (conj HinvN (conj HinvW (conj HinvB HinvG)))|].
  split; [exact (Hnumber eq_refl)|].
  split; [exact (conj Hflip (Hgone Hflip))|].
  split; [exact (conj Hcleared Hnoblock)|].
  split; [exact (Hgiven HgivenG)|].
  exact (conj Hu Hb).
Defined.

(** X24.  The tool keys undo each other and three presses of one come
    back to the same tool; nine presses of the number key come back to
    the same number, which stays between 1 and 9. *)
Theorem terminal_cycles (ui : Terminal.TerminalUI) :
  Terminal.cycleToolReverse (Terminal.cycleTool ui) = ui ∧
  Terminal.cycleTool (Terminal.cycleToolReverse ui) = ui ∧
  Terminal.cycleTool (Terminal.cycleTool (Terminal.cycleTool ui)) = ui ∧
  (1 ≤ Terminal.selectedNum ui ≤ 9 →
     1 ≤ Terminal.selectedNum (Terminal.cycleNumber ui) ≤ 9 ∧
     Nat.iter 9 Terminal.cycleNumber ui = ui).
Proof.
  destruct ui as [s o u b cr cc tool sel run].
  unfold Terminal.cycleTool, Terminal.cycleToolReverse, Terminal.withTool,
    Terminal.ToolMove, Terminal.ToolNumber, Terminal.ToolBlock.
  cbn [Terminal.currentTool Terminal.sudoku Terminal.originalBoard Terminal.userNumbers
       Terminal.blockedNums Terminal.cursorRow Terminal.cursorCol Terminal.selectedNum
       Terminal.gameRunning].
  assert (tool = 0 ∨ tool = 1 ∨ tool = 2 ∨ (tool ≠ 0 ∧ tool ≠ 1 ∧ tool ≠ 2)) as Htool by lia.
  split_and!.
  - destruct Htool as [->|[->|[->|(?&?&?)]]]; [done..|].
    assert ((tool =? 2) = false) as -> by lia. assert ((tool =? 0) = false) as -> by lia.
    assert ((tool =? 1) = false) as -> by lia. cbn.
    assert ((tool =? 2) = false) as -> by lia. assert ((tool =? 0) = false) as -> by lia.
    by assert ((tool =? 1) = false) as -> by lia.
  - destruct Htool as [->|[->|[->|(?&?&?)]]]; [done..|].
    assert ((tool =? 2) = false) as -> by lia. assert ((tool =? 0) = false) as -> by lia.
    assert ((tool =? 1) = false) as -> by lia. cbn.
    assert ((tool =? 2) = false) as -> by lia. assert ((tool =? 0) = false) as -> by lia.
    by assert ((tool =? 1) = false) as -> by lia.
  - destruct Htool as [->|[->|[->|(?&?&?)]]]; [done..|].
    assert ((tool =? 2) = false) as -> by lia. assert ((tool =? 0) = false) as -> by lia.
    assert ((tool =? 1) = false) as -> by lia. cbn.
    assert ((tool =? 2) = false) as -> by lia. assert ((tool =? 0) = false) as -> by lia.
    assert ((tool =? 1) = false) as -> by lia. cbn.
    assert ((tool =? 2) = false) as -> by lia. assert ((tool =? 0) = false) as -> by lia.
    by assert ((tool =? 1) = false) as -> by lia.
  - cbn. intros Hsel. split; [destruct (sel + 1 >? 9) eqn:E; lia|].
    assert (sel = 1 ∨ sel = 2 ∨ sel = 3 ∨ sel = 4 ∨ sel = 5 ∨ sel = 6 ∨ sel = 7 ∨ sel = 8
            ∨ sel = 9) as Hcases by lia.
    repeat (destruct Hcases as [->|Hcases]; [reflexivity|]). by subst.
Qed.

Lemma terminal_cycles_witness :
  Nat.iter 9 Terminal.cycleNumber (Terminal.NewTerminalUI NewSudoku)
  = Terminal.NewTerminalUI NewSudoku.
Proof.
  apply (terminal_cycles (Terminal.NewTerminalUI NewSudoku)). cbn. lia.
Defined.
